(** * Chess_station: the rules engine of [useChessEngine]

    A shallow embedding of the chess logic of the hook [useChessEngine]
    (board model, per-piece move generation, attack analysis, legality
    filter, move execution, status derivation and notation), followed by
    the properties the specification states about it.

    Conventions.
    - Rows and columns are JavaScript numbers that only ever hold small
      integers; they are modelled as [Z].
    - The board is the array of arrays of the source.  [cell] reads
      [board[r][c]]; [null] and [undefined] are both [None].
    - React state ([useState]) is modelled as an explicit [GameState]
      record that [makeMove] maps to the next state.  The UI-only
      [selectedSquare] is not part of it. *)

From Stdlib Require Import ZArith List Bool String Ascii Lia DecimalString Sorted.
From stdpp Require Import base list.

Open Scope Z_scope.

(** ** Data model *)

Inductive PieceType := king | queen | rook | bishop | knight | pawn.
Inductive PieceColor := white | black.
Inductive GameStatus := playing | check | checkmate | stalemate | draw.
Inductive CastlingSide := kingside | queenside.

Record ChessPiece := mkPiece {
  type : PieceType;
  color : PieceColor;
  hasMoved : bool        (* [undefined] is read as [false] by every use *)
}.

Record ChessSquare := mkSq { row : Z; col : Z }.

Record ChessMove := mkMove {
  mfrom : ChessSquare;
  mto : ChessSquare;
  piece : ChessPiece;
  capturedPiece : option ChessPiece;
  isCapture : bool;
  isCheck : bool;
  isCheckmate : bool;
  notation : string;
  castling : option CastlingSide;
  enPassant : bool;
  promotion : option PieceType
}.

Abbreviation Board := (list (list (option ChessPiece))).

Record GameState := mkState {
  board : Board;
  currentPlayer : PieceColor;
  moveHistory : list ChessMove;
  gameStatus : GameStatus;
  enPassantTarget : option ChessSquare
}.

(** Decidable equalities used by the comparisons [===] and [!==]. *)

Definition PieceType_eqb (a b : PieceType) : bool :=
  match a, b with
  | king, king | queen, queen | rook, rook
  | bishop, bishop | knight, knight | pawn, pawn => true
  | _, _ => false
  end.

Definition PieceColor_eqb (a b : PieceColor) : bool :=
  match a, b with
  | white, white | black, black => true
  | _, _ => false
  end.

Definition sq_eqb (a b : ChessSquare) : bool :=
  (row a =? row b) && (col a =? col b).

Definition opponent (c : PieceColor) : PieceColor :=
  match c with white => black | black => white end.

(** ** Board access *)

(** [board[r][c]].  Every read in the engine is guarded by [isInBounds]
    or by a loop over [0..7]; outside the array the model answers [None]. *)
Definition cell (b : Board) (r c : Z) : option ChessPiece :=
  if (0 <=? r) && (0 <=? c) then
    match b !! Z.to_nat r with
    | Some rw => match rw !! Z.to_nat c with
                 | Some x => x
                 | None => None
                 end
    | None => None
    end
  else None.

(** [newBoard[r][c] = v] on the copy [board.map(row => [...row])]. *)
Definition setCell (b : Board) (r c : Z) (v : option ChessPiece) : Board :=
  if (0 <=? r) && (0 <=? c) then
    match b !! Z.to_nat r with
    | Some rw => <[Z.to_nat r := <[Z.to_nat c := v]> rw]> b
    | None => b
    end
  else b.

Definition at_sq (b : Board) (sq : ChessSquare) : option ChessPiece :=
  cell b (row sq) (col sq).

Definition range8 : list Z := [0; 1; 2; 3; 4; 5; 6; 7].

(** The squares in the order of the nested loops
    [for row ... for col ...]. *)
Definition allSquares : list ChessSquare :=
  List.flat_map (fun r => List.map (fun c => mkSq r c) range8) range8.

(** ** createInitialBoard *)

Definition pieceOrder : list PieceType :=
  [rook; knight; bishop; queen; king; bishop; knight; rook].

Definition createInitialBoard : Board :=
  let back c := List.map (fun t => Some (mkPiece t c false)) pieceOrder in
  let pawns c := List.map (fun _ => Some (mkPiece pawn c false)) range8 in
  let empty : list (option ChessPiece) := List.map (fun _ => None) range8 in
  [back black; pawns black; empty; empty; empty; empty; pawns white; back white].

Definition initialState : GameState :=
  mkState createInitialBoard white [] playing None.

(** ** isInBounds *)

Definition isInBounds (sq : ChessSquare) : bool :=
  (0 <=? row sq) && (row sq <? 8) && (0 <=? col sq) && (col sq <? 8).

(** ** Attack analysis *)

(** The loop of [isPathClear].  [fuel] bounds the number of iterations;
    [None] is the loop still running when the fuel is spent. *)
Fixpoint pathLoop (fuel : nat) (b : Board) (cr cc tr tc rowDir colDir : Z)
  : option bool :=
  match fuel with
  | O => None
  | S f =>
      if negb (cr =? tr) || negb (cc =? tc) then
        match cell b cr cc with
        | Some _ => Some false
        | None => pathLoop f b (cr + rowDir) (cc + colDir) tr tc rowDir colDir
        end
      else Some true
  end.

(** [isPathClear].  The quotient [d / Math.abs(d)] of a non-zero integer
    is exact.  Between two squares of the board on a common rank, file or
    diagonal, which is how [canPieceAttackSquare] calls it, the loop
    returns within eight iterations (lemma [isPathClear_returns]). *)
Definition isPathClear (b : Board) (from to : ChessSquare) : bool :=
  let rowDir := if row to =? row from then 0
                else (row to - row from) / Z.abs (row to - row from) in
  let colDir := if col to =? col from then 0
                else (col to - col from) / Z.abs (col to - col from) in
  match pathLoop 8 b (row from + rowDir) (col from + colDir)
                 (row to) (col to) rowDir colDir with
  | Some r => r
  | None => false
  end.

Definition direction (c : PieceColor) : Z :=
  match c with white => -1 | black => 1 end.

Definition canPieceAttackSquare (b : Board) (from to : ChessSquare) : bool :=
  match at_sq b from with
  | None => false
  | Some p =>
      match type p with
      | pawn =>
          (row to =? row from + direction (color p))
          && (Z.abs (col to - col from) =? 1)
      | rook =>
          ((row from =? row to) || (col from =? col to))
          && isPathClear b from to
      | knight =>
          let rowDiff := Z.abs (row from - row to) in
          let colDiff := Z.abs (col from - col to) in
          ((rowDiff =? 2) && (colDiff =? 1)) || ((rowDiff =? 1) && (colDiff =? 2))
      | bishop =>
          (Z.abs (row from - row to) =? Z.abs (col from - col to))
          && isPathClear b from to
      | queen =>
          (((row from =? row to) || (col from =? col to))
           || (Z.abs (row from - row to) =? Z.abs (col from - col to)))
          && isPathClear b from to
      | king =>
          (Z.abs (row from - row to) <=? 1) && (Z.abs (col from - col to) <=? 1)
      end
  end.

Definition isSquareUnderAttack (b : Board) (square : ChessSquare)
    (attackingColor : PieceColor) : bool :=
  List.existsb
    (fun from =>
       match at_sq b from with
       | Some p => PieceColor_eqb (color p) attackingColor
                   && canPieceAttackSquare b from square
       | None => false
       end)
    allSquares.

Definition isKingOf (kingColor : PieceColor) (o : option ChessPiece) : bool :=
  match o with
  | Some p => PieceType_eqb (type p) king && PieceColor_eqb (color p) kingColor
  | None => false
  end.

(** The search loop of [isKingInCheck]: the first king of the colour in
    row-major order. *)
Definition kingPosition (b : Board) (kingColor : PieceColor)
  : option ChessSquare :=
  List.find (fun sq => isKingOf kingColor (at_sq b sq)) allSquares.

Definition isKingInCheck (b : Board) (kingColor : PieceColor) : bool :=
  match kingPosition b kingColor with
  | None => false
  | Some k => isSquareUnderAttack b k (opponent kingColor)
  end.

(** ** Pseudo-legal move generation *)

Definition isNone {A} (o : option A) : bool :=
  match o with None => true | Some _ => false end.

(** The squares a capture or a step may land on: empty, or a piece of
    the other colour ([!target || target.color !== piece.color]). *)
Definition freeOrEnemy (b : Board) (p : ChessPiece) (sq : ChessSquare) : bool :=
  match at_sq b sq with
  | None => true
  | Some target => negb (PieceColor_eqb (color target) (color p))
  end.

Definition startRow (c : PieceColor) : Z :=
  match c with white => 6 | black => 1 end.

(** The moving piece is read as [board[from.row][from.col]!]; the
    generators are only called by [getValidMoves] once that square is
    known to hold a piece, and give no move otherwise. *)
Definition getPawnMoves (b : Board) (from : ChessSquare)
    (enPassantTarget : option ChessSquare) : list ChessSquare :=
  match at_sq b from with
  | None => []
  | Some p =>
      let dir := direction (color p) in
      let oneForward := mkSq (row from + dir) (col from) in
      let forward :=
        if isInBounds oneForward && isNone (at_sq b oneForward) then
          oneForward ::
            (if row from =? startRow (color p) then
               let twoForward := mkSq (row from + 2 * dir) (col from) in
               if isInBounds twoForward && isNone (at_sq b twoForward)
               then [twoForward] else []
             else [])
        else [] in
      let captures :=
        List.flat_map
          (fun colOffset =>
             let captureSquare := mkSq (row from + dir) (col from + colOffset) in
             if isInBounds captureSquare then
               match at_sq b captureSquare with
               | Some target =>
                   if negb (PieceColor_eqb (color target) (color p))
                   then [captureSquare] else []
               | None => []
               end
             else [])
          [-1; 1] in
      let ep :=
        match enPassantTarget with
        | Some t =>
            if (Z.abs (col from - col t) =? 1) && (row from =? row t + dir)
            then [mkSq (row t) (col t)] else []
        | None => []
        end in
      forward ++ captures ++ ep
  end.

(** The [while (isInBounds(current))] loop shared by the rook and the
    bishop: slide from [current] along [(dr, dc)].  Eight iterations
    always leave the board. *)
Fixpoint slide (fuel : nat) (b : Board) (p : ChessPiece)
    (cr cc dr dc : Z) : list ChessSquare :=
  match fuel with
  | O => []
  | S f =>
      if isInBounds (mkSq cr cc) then
        match cell b cr cc with
        | None => mkSq cr cc :: slide f b p (cr + dr) (cc + dc) dr dc
        | Some target =>
            if negb (PieceColor_eqb (color target) (color p))
            then [mkSq cr cc] else []
        end
      else []
  end.

Definition slideAll (b : Board) (from : ChessSquare)
    (directions : list (Z * Z)) : list ChessSquare :=
  match at_sq b from with
  | None => []
  | Some p =>
      List.flat_map
        (fun d => slide 8 b p (row from + fst d) (col from + snd d) (fst d) (snd d))
        directions
  end.

Definition rookDirections : list (Z * Z) := [(0, 1); (0, -1); (1, 0); (-1, 0)].
Definition bishopDirections : list (Z * Z) := [(1, 1); (1, -1); (-1, 1); (-1, -1)].

Definition getRookMoves (b : Board) (from : ChessSquare) : list ChessSquare :=
  slideAll b from rookDirections.

Definition getBishopMoves (b : Board) (from : ChessSquare) : list ChessSquare :=
  slideAll b from bishopDirections.

Definition getQueenMoves (b : Board) (from : ChessSquare) : list ChessSquare :=
  getRookMoves b from ++ getBishopMoves b from.

Definition offsetMoves (b : Board) (from : ChessSquare)
    (offsets : list (Z * Z)) : list ChessSquare :=
  match at_sq b from with
  | None => []
  | Some p =>
      List.flat_map
        (fun d =>
           let to := mkSq (row from + fst d) (col from + snd d) in
           if isInBounds to && freeOrEnemy b p to then [to] else [])
        offsets
  end.

Definition knightOffsets : list (Z * Z) :=
  [(-2, -1); (-2, 1); (-1, -2); (-1, 2); (1, -2); (1, 2); (2, -1); (2, 1)].

Definition kingOffsets : list (Z * Z) :=
  [(-1, -1); (-1, 0); (-1, 1); (0, -1); (0, 1); (1, -1); (1, 0); (1, 1)].

Definition getKnightMoves (b : Board) (from : ChessSquare) : list ChessSquare :=
  offsetMoves b from knightOffsets.

Definition isUnmovedRook (o : option ChessPiece) : bool :=
  match o with
  | Some r => PieceType_eqb (type r) rook && negb (hasMoved r)
  | None => false
  end.

(** [moveHistory] is a parameter of the source function and is never
    read by it. *)
Definition getKingMoves (b : Board) (from : ChessSquare)
    (moveHistory : list ChessMove) : list ChessSquare :=
  match at_sq b from with
  | None => []
  | Some p =>
      let normal := offsetMoves b from kingOffsets in
      let attacked c :=
        isSquareUnderAttack b (mkSq (row from) c) (opponent (color p)) in
      let castle :=
        if negb (hasMoved p) && negb (isKingInCheck b (color p)) then
          (if isUnmovedRook (cell b (row from) 7) then
             if isNone (cell b (row from) 5) && isNone (cell b (row from) 6) then
               if negb (attacked 5 || attacked 6)
               then [mkSq (row from) 6] else []
             else []
           else [])
          ++
          (if isUnmovedRook (cell b (row from) 0) then
             if isNone (cell b (row from) 1) && isNone (cell b (row from) 2)
                && isNone (cell b (row from) 3) then
               if negb (attacked 2 || attacked 3)
               then [mkSq (row from) 2] else []
             else []
           else [])
        else [] in
      normal ++ castle
  end.

(** ** Legality filter *)

Definition simulateMove (b : Board) (from to : ChessSquare) : Board :=
  let p := at_sq b from in
  setCell (setCell b (row to) (col to) p) (row from) (col from) None.

Definition pseudoMoves (b : Board) (from : ChessSquare) (p : ChessPiece)
    (enPassantTarget : option ChessSquare) (moveHistory : list ChessMove)
  : list ChessSquare :=
  match type p with
  | pawn => getPawnMoves b from enPassantTarget
  | rook => getRookMoves b from
  | knight => getKnightMoves b from
  | bishop => getBishopMoves b from
  | queen => getQueenMoves b from
  | king => getKingMoves b from moveHistory
  end.

Definition getValidMoves (b : Board) (from : ChessSquare)
    (currentPlayer : PieceColor) (enPassantTarget : option ChessSquare)
    (moveHistory : list ChessMove) : list ChessSquare :=
  match at_sq b from with
  | None => []
  | Some p =>
      if negb (PieceColor_eqb (color p) currentPlayer) then []
      else
        List.filter
          (fun to => negb (isKingInCheck (simulateMove b from to) currentPlayer))
          (pseudoMoves b from p enPassantTarget moveHistory)
  end.

Definition isValidMoveAttempt (b : Board) (from to : ChessSquare)
    (currentPlayer : PieceColor) (enPassantTarget : option ChessSquare)
    (moveHistory : list ChessMove) : bool :=
  match at_sq b from with
  | None => false
  | Some p =>
      if negb (PieceColor_eqb (color p) currentPlayer) then false
      else
        List.existsb (fun move => (row move =? row to) && (col move =? col to))
          (getValidMoves b from currentPlayer enPassantTarget moveHistory)
  end.

Definition hasValidMoves (b : Board) (playerColor : PieceColor)
    (enPassantTarget : option ChessSquare) (moveHistory : list ChessMove) : bool :=
  List.existsb
    (fun sq =>
       match at_sq b sq with
       | Some p =>
           PieceColor_eqb (color p) playerColor
           && (0 <? Z.of_nat (length
                 (getValidMoves b sq playerColor enPassantTarget moveHistory)))
       | None => false
       end)
    allSquares.

(** ** Notation *)

Open Scope string_scope.

(** The string values of the union type [PieceType]. *)
Definition typeName (t : PieceType) : string :=
  match t with
  | king => "king" | queen => "queen" | rook => "rook"
  | bishop => "bishop" | knight => "knight" | pawn => "pawn"
  end.

(** [c.toUpperCase()] on one ASCII character. *)
Definition upperAscii (c : ascii) : ascii :=
  let n := N_of_ascii c in
  if ((97 <=? n) && (n <=? 122))%N then ascii_of_N (n - 32) else c.

(** [s.charAt(0)]: the first character as a string, empty on [""]. *)
Definition charAt0 (s : string) : string :=
  match s with
  | EmptyString => EmptyString
  | String c _ => String c EmptyString
  end.

Definition toUpperCase (s : string) : string :=
  string_of_list_ascii (List.map upperAscii (list_ascii_of_string s)).

(** [String.fromCharCode(n)] for the character codes the engine builds
    (the letters [a]..[h]). *)
Definition fromCharCode (n : Z) : string :=
  String (ascii_of_N (Z.to_N n)) EmptyString.

(** Template interpolation of an integer. *)
Definition showInt (n : Z) : string := NilZero.string_of_int (Z.to_int n).

Definition squareName (sq : ChessSquare) : string :=
  fromCharCode (97 + col sq) ++ showInt (8 - row sq).

Definition generateAlgebraicNotation (p : ChessPiece) (from to : ChessSquare)
    (isCapture isCheck isCheckmate : bool) (castling : option CastlingSide)
    (promotion : option PieceType) : string :=
  match castling with
  | Some side =>
      match side with kingside => "O-O" | queenside => "O-O-O" end
  | None =>
      let pieceSymbol :=
        if PieceType_eqb (type p) pawn then ""
        else toUpperCase (charAt0 (typeName (type p))) in
      let fromSquare := squareName from in
      let toSquare := squareName to in
      let captureSymbol := if isCapture then "x" else "" in
      let checkSymbol := if isCheckmate then "#" else if isCheck then "+" else "" in
      let promotionSymbol :=
        match promotion with
        | Some t => "=" ++ toUpperCase (charAt0 (typeName t))
        | None => ""
        end in
      if PieceType_eqb (type p) pawn && isCapture then
        charAt0 fromSquare ++ captureSymbol ++ toSquare ++ promotionSymbol ++ checkSymbol
      else
        pieceSymbol ++ captureSymbol ++ toSquare ++ promotionSymbol ++ checkSymbol
  end.

Close Scope string_scope.

(** ** Move execution *)

Definition withMoved (p : ChessPiece) : ChessPiece :=
  mkPiece (type p) (color p) true.

(** The piece written on the destination square: the moved piece with
    [hasMoved: true], turned into a queen when a pawn reaches row 0 or 7
    ([promotion ? { ...piece, type: promotion, hasMoved: true }
                : { ...piece, hasMoved: true }]). *)
Definition placedPiece (p : ChessPiece) (to : ChessSquare) : ChessPiece :=
  if PieceType_eqb (type p) pawn && ((row to =? 0) || (row to =? 7))
  then mkPiece queen (color p) true else withMoved p.

(** The board part of [makeMove].  [None] stands for the two places
    where the source leaves typed values: reading [piece.type] when the
    origin square is empty (a [TypeError]), and spreading a missing rook
    into a piece record without type or colour.  Neither happens for a
    move accepted by [isValidMoveAttempt] (lemma [makeMove_total]). *)
Definition moveBoard (b : Board) (ep : option ChessSquare)
    (from to : ChessSquare) : option Board :=
  match at_sq b from with
  | None => None
  | Some p =>
      let afterCastle :=
        if PieceType_eqb (type p) king && (Z.abs (col to - col from) =? 2) then
          let rookFromCol := if col to >? col from then 7 else 0 in
          let rookToCol := if col to >? col from then 5 else 3 in
          match cell b (row from) rookFromCol with
          | None => None
          | Some r =>
              Some (setCell
                      (setCell b (row from) rookToCol (Some (withMoved r)))
                      (row from) rookFromCol None)
          end
        else Some b in
      match afterCastle with
      | None => None
      | Some b1 =>
          let enPassant :=
            PieceType_eqb (type p) pawn &&
            match ep with
            | Some t => (row to =? row t) && (col to =? col t)
            | None => false
            end in
          let b2 := if enPassant then setCell b1 (row from) (col to) None else b1 in
          Some (setCell (setCell b2 (row to) (col to) (Some (placedPiece p to)))
                        (row from) (col from) None)
      end
  end.

Definition makeMove (s : GameState) (from to : ChessSquare) : option GameState :=
  match at_sq (board s) from, moveBoard (board s) (enPassantTarget s) from to with
  | Some p, Some newBoard =>
      let captured := at_sq (board s) to in
      let castling :=
        if PieceType_eqb (type p) king && (Z.abs (col to - col from) =? 2) then
          Some (if col to >? col from then kingside else queenside)
        else None in
      let enPassant :=
        PieceType_eqb (type p) pawn &&
        match enPassantTarget s with
        | Some t => (row to =? row t) && (col to =? col t)
        | None => false
        end in
      let promotion :=
        if PieceType_eqb (type p) pawn && ((row to =? 0) || (row to =? 7))
        then Some queen else None in
      let newEnPassantTarget :=
        if PieceType_eqb (type p) pawn && (Z.abs (row to - row from) =? 2)
        then Some (mkSq ((row from + row to) / 2) (col from)) else None in
      let opponentColor := opponent (currentPlayer s) in
      let isCheck := isKingInCheck newBoard opponentColor in
      let isCheckmate :=
        isCheck && negb (hasValidMoves newBoard opponentColor
                           newEnPassantTarget (moveHistory s)) in
      let isStalemate :=
        negb isCheck && negb (hasValidMoves newBoard opponentColor
                                newEnPassantTarget (moveHistory s)) in
      let isCapture := negb (isNone captured) || enPassant in
      let move :=
        mkMove from to p captured isCapture isCheck isCheckmate
          (generateAlgebraicNotation p from to isCapture isCheck isCheckmate
             castling promotion)
          castling enPassant promotion in
      Some (mkState newBoard opponentColor (moveHistory s ++ [move])
              (if isCheckmate then checkmate
               else if isStalemate then stalemate
               else if isCheck then check
               else playing)
              newEnPassantTarget)
  | _, _ => None
  end.

(** [handlePieceMove]: the move is applied only when
    [isValidMoveAttempt] accepts it; otherwise no state setter runs. *)
Definition handlePieceMove (s : GameState) (from to : ChessSquare)
  : option GameState :=
  if isValidMoveAttempt (board s) from to (currentPlayer s)
       (enPassantTarget s) (moveHistory s)
  then makeMove s from to
  else Some s.

(** [capturedPieces]: the pieces recorded in the [capturedPiece] fields
    of the history, grouped by their colour; the pair is
    ([captured.white], [captured.black]). *)
Definition capturedPieces (history : list ChessMove)
  : list ChessPiece * list ChessPiece :=
  let all := List.flat_map
               (fun m => match capturedPiece m with Some c => [c] | None => [] end)
               history in
  (List.filter (fun c => PieceColor_eqb (color c) white) all,
   List.filter (fun c => PieceColor_eqb (color c) black) all).

(** Playing a list of move intents from a state, each through
    [isValidMoveAttempt] and [makeMove] as the click and drag handlers do;
    [None] when one of them is refused. *)
Fixpoint playFrom (s : GameState) (ms : list (ChessSquare * ChessSquare))
  : option GameState :=
  match ms with
  | [] => Some s
  | (from, to) :: rest =>
      if isValidMoveAttempt (board s) from to (currentPlayer s)
           (enPassantTarget s) (moveHistory s)
      then match makeMove s from to with
           | Some s' => playFrom s' rest
           | None => None
           end
      else None
  end.

(** A square given by file ([0] for a .. [7] for h) and rank ([1]..[8]),
    for readable examples: e4 is [alg 4 4]. *)
Definition alg (file rank : Z) : ChessSquare := mkSq (8 - rank) file.

(** The number of legal moves of the side to move, summed over the
    squares of the board. *)
Definition totalMoves (s : GameState) : Z :=
  fold_right Z.add 0
    (List.map (fun sq => Z.of_nat (length (getValidMoves (board s) sq
                 (currentPlayer s) (enPassantTarget s) (moveHistory s))))
       allSquares).

(** ** Specification-level predicates *)

(** The shape [createInitialBoard] builds and every update keeps:
    eight rows of eight cells. *)
Definition wfBoard (b : Board) : Prop :=
  length b = 8%nat /\ Forall (fun rw => length rw = 8%nat) b.

Definition inb (sq : ChessSquare) : Prop := isInBounds sq = true.

(** States the engine can be in: the initial one, and those obtained by
    a move that [isValidMoveAttempt] accepted and [makeMove] applied. *)
Inductive reachable : GameState -> Prop :=
| reach_init : reachable initialState
| reach_move s from to s' :
    reachable s ->
    isValidMoveAttempt (board s) from to (currentPlayer s)
      (enPassantTarget s) (moveHistory s) = true ->
    makeMove s from to = Some s' ->
    reachable s'.

(** The side [c] has a legal move: some square of the board has a
    non-empty legal-move list. *)
Definition hasLegalMove (b : Board) (c : PieceColor)
    (ep : option ChessSquare) (h : list ChessMove) : Prop :=
  exists sq, inb sq /\ getValidMoves b sq c ep h <> [].

(** [k] is the only square holding a king of colour [c]. *)
Definition onlyKingAt (b : Board) (c : PieceColor) (k : ChessSquare) : Prop :=
  inb k /\ isKingOf c (at_sq b k) = true /\
  forall q, inb q -> isKingOf c (at_sq b q) = true -> q = k.

Definition uniqueKing (b : Board) (c : PieceColor) : Prop :=
  exists k, onlyKingAt b c k.

(** The en passant target, when set, is an empty square of the board and
    the square behind it (seen from the side to move) is empty too: it is
    the square the double-stepping pawn came from. *)
Definition epOK (b : Board) (mover : PieceColor) (ep : option ChessSquare) : Prop :=
  match ep with
  | None => True
  | Some t =>
      inb t /\ at_sq b t = None /\
      cell b (row t + direction mover) (col t) = None
  end.

(** The four ways a pawn move is generated. *)
Inductive pawnMove (b : Board) (from : ChessSquare) (p : ChessPiece)
    (ep : option ChessSquare) (to : ChessSquare) : Prop :=
| pm_one :
    to = mkSq (row from + direction (color p)) (col from) ->
    inb to -> at_sq b to = None -> pawnMove b from p ep to
| pm_two :
    row from = startRow (color p) ->
    to = mkSq (row from + 2 * direction (color p)) (col from) ->
    inb to -> at_sq b to = None ->
    cell b (row from + direction (color p)) (col from) = None ->
    pawnMove b from p ep to
| pm_capture off t :
    off = -1 \/ off = 1 ->
    to = mkSq (row from + direction (color p)) (col from + off) ->
    inb to -> at_sq b to = Some t -> color t <> color p ->
    pawnMove b from p ep to
| pm_enpassant t :
    ep = Some t ->
    Z.abs (col from - col t) = 1 ->
    row from = row t + direction (color p) ->
    to = mkSq (row t) (col t) ->
    pawnMove b from p ep to.

(** The ways a king move is generated: a step, or one of the castlings. *)
Inductive kingMove (b : Board) (from : ChessSquare) (p : ChessPiece)
    (to : ChessSquare) : Prop :=
| km_step : In to (offsetMoves b from kingOffsets) -> kingMove b from p to
| km_kingside :
    hasMoved p = false -> isKingInCheck b (color p) = false ->
    isUnmovedRook (cell b (row from) 7) = true ->
    cell b (row from) 5 = None -> cell b (row from) 6 = None ->
    isSquareUnderAttack b (mkSq (row from) 5) (opponent (color p)) = false ->
    isSquareUnderAttack b (mkSq (row from) 6) (opponent (color p)) = false ->
    to = mkSq (row from) 6 -> kingMove b from p to
| km_queenside :
    hasMoved p = false -> isKingInCheck b (color p) = false ->
    isUnmovedRook (cell b (row from) 0) = true ->
    cell b (row from) 1 = None -> cell b (row from) 2 = None ->
    cell b (row from) 3 = None ->
    isSquareUnderAttack b (mkSq (row from) 2) (opponent (color p)) = false ->
    isSquareUnderAttack b (mkSq (row from) 3) (opponent (color p)) = false ->
    to = mkSq (row from) 2 -> kingMove b from p to.

(** [q] lies strictly between [a] and [k] on the line the loop of
    [isPathClear] walks from [a] towards [k]. *)
Definition between (a k q : ChessSquare) : Prop :=
  exists n i : Z, 1 <= i < n /\ n <= 8 /\
    row k = row a + n * Z.sgn (row k - row a) /\
    col k = col a + n * Z.sgn (col k - col a) /\
    row q = row a + i * Z.sgn (row k - row a) /\
    col q = col a + i * Z.sgn (col k - col a).

(** Position of a square in the scan order of the nested loops. *)
Definition rowMajor (sq : ChessSquare) : Z := 8 * row sq + col sq.

Record Inv (s : GameState) : Prop := mkInv {
  inv_wf : wfBoard (board s);
  inv_ep : epOK (board s) (currentPlayer s) (enPassantTarget s);
  inv_king_white : uniqueKing (board s) white;
  inv_king_black : uniqueKing (board s) black;
  inv_opp_safe : isKingInCheck (board s) (opponent (currentPlayer s)) = false
}.

(** ** The interface state of the hook

    [useChessEngine] keeps, beside the game, the square the user has
    selected.  [EngineState] adds it to the [GameState]; the handlers
    below are the callbacks the hook returns. *)

Record EngineState := mkEngine {
  game : GameState;
  selectedSquare : option ChessSquare
}.

Definition initialEngine : EngineState := mkEngine initialState None.

(** The memo [validMoves]. *)
Definition validMoves (e : EngineState) : list ChessSquare :=
  match selectedSquare e with
  | None => []
  | Some sq =>
      getValidMoves (board (game e)) sq (currentPlayer (game e))
        (enPassantTarget (game e)) (moveHistory (game e))
  end.

(** The memo [isInCheck]. *)
Definition isInCheck (e : EngineState) : bool :=
  isKingInCheck (board (game e)) (currentPlayer (game e)).

(** [piece && piece.color === currentPlayer] for the piece on a square. *)
Definition ownPiece (g : GameState) (sq : ChessSquare) : bool :=
  match at_sq (board g) sq with
  | Some p => PieceColor_eqb (color p) (currentPlayer g)
  | None => false
  end.

(** [handleSquareClick].  [makeMove] ends with [setSelectedSquare(null)]. *)
Definition handleSquareClick (e : EngineState) (square : ChessSquare)
  : option EngineState :=
  match selectedSquare e with
  | Some sel =>
      if isValidMoveAttempt (board (game e)) sel square
           (currentPlayer (game e)) (enPassantTarget (game e))
           (moveHistory (game e))
      then match makeMove (game e) sel square with
           | Some g' => Some (mkEngine g' None)
           | None => None
           end
      else if ownPiece (game e) square
      then Some (mkEngine (game e) (Some square))
      else Some (mkEngine (game e) None)
  | None =>
      if ownPiece (game e) square
      then Some (mkEngine (game e) (Some square))
      else Some e
  end.

(** [handlePieceMove] with the selection: an accepted drop applies the
    move and clears the selection, a refused one changes nothing. *)
Definition handlePieceMoveSel (e : EngineState) (from to : ChessSquare)
  : option EngineState :=
  if isValidMoveAttempt (board (game e)) from to
       (currentPlayer (game e)) (enPassantTarget (game e))
       (moveHistory (game e))
  then match makeMove (game e) from to with
       | Some g' => Some (mkEngine g' None)
       | None => None
       end
  else Some e.

(** [resetGame]. *)
Definition resetGame (e : EngineState) : EngineState := initialEngine.

Inductive SquareHighlight := hl_normal | hl_selected | hl_valid | hl_check.

(** [getSquareColor]. *)
Definition getSquareColor (e : EngineState) (square : ChessSquare)
  : SquareHighlight :=
  if match selectedSquare e with
     | Some sel => (row square =? row sel) && (col square =? col sel)
     | None => false
     end
  then hl_selected
  else if List.existsb
            (fun move => (row move =? row square) && (col move =? col square))
            (validMoves e)
  then hl_valid
  else if isInCheck e
          && isKingOf (currentPlayer (game e)) (at_sq (board (game e)) square)
  then hl_check
  else hl_normal.

(** The states the interface can be in: clicks and drops arrive for
    squares of the rendered 8x8 board. *)
Inductive reachableE : EngineState -> Prop :=
| reachE_init : reachableE initialEngine
| reachE_click e sq e' :
    reachableE e -> inb sq -> handleSquareClick e sq = Some e' ->
    reachableE e'
| reachE_drop e from to e' :
    reachableE e -> inb from -> inb to ->
    handlePieceMoveSel e from to = Some e' -> reachableE e'
| reachE_reset e : reachableE e -> reachableE (resetGame e).

(** ** Display helpers of the components *)

(** [PIECE_VALUES] and [materialValue] of [PlayerInfo]. *)
Definition PIECE_VALUES (t : PieceType) : Z :=
  match t with
  | pawn => 1 | knight => 3 | bishop => 3 | rook => 5 | queen => 9 | king => 0
  end.

Definition materialValue (captured : list ChessPiece) : Z :=
  fold_left (fun total p => total + PIECE_VALUES (type p)) captured 0.

(** The rows of [MoveHistory]: [moves[i]] and [moves[i + 1]] for
    [i = 0, 2, 4, ...], numbered [Math.floor(i / 2) + 1]. *)
Record MovePair := mkPair {
  pairWhite : option ChessMove;
  pairBlack : option ChessMove;
  moveNumber : Z
}.

Fixpoint movePairsLoop (fuel : nat) (moves : list ChessMove) (i : nat)
  : list MovePair :=
  match fuel with
  | O => []
  | S f =>
      if (i <? length moves)%nat then
        mkPair (moves !! i) (moves !! (i + 1)%nat) (Z.of_nat i / 2 + 1)
        :: movePairsLoop f moves (i + 2)
      else []
  end.

(** The loop advances by two, so [length moves] iterations are more
    than it runs (lemma [movePairsLoop_fuel]). *)
Definition movePairs (moves : list ChessMove) : list MovePair :=
  movePairsLoop (length moves) moves 0.

(** The moves a row shows, white entry first. *)
Definition pairMoves (pr : MovePair) : list ChessMove :=
  match pairWhite pr with Some m => [m] | None => [] end
  ++ match pairBlack pr with Some m => [m] | None => [] end.

(** [s.includes(pat)]. *)
Fixpoint includes (s pat : string) : bool :=
  String.prefix pat s
  || match s with
     | EmptyString => false
     | String _ rest => includes rest pat
     end.

(** The extra capture mark of [MoveItem]:
    [move.isCapture && !move.notation.includes('x')]. *)
Definition showsCaptureMark (m : ChessMove) : bool :=
  isCapture m && negb (includes (notation m) "x").

(** [getStatusInfo] of [GameControls]. *)
Inductive StatusIcon := Trophy | Clock | Shield.

Record StatusInfo := mkStatusInfo {
  icon : StatusIcon;
  text : string;
  description : string;
  textColor : string;
  bgColor : string
}.

Definition playerName (c : PieceColor) : string :=
  match c with white => "White" | black => "Black" end.

Definition getStatusInfo (gameStatus : GameStatus) (currentPlayer : PieceColor)
  : StatusInfo :=
  match gameStatus with
  | checkmate =>
      let winner := match currentPlayer with
                    | white => "Black" | black => "White"
                    end%string in
      mkStatusInfo Trophy (winner ++ " Wins!") "Checkmate"
        "text-yellow-400" "bg-yellow-400/20"
  | stalemate =>
      mkStatusInfo Shield "Stalemate" "Draw game"
        "text-blue-400" "bg-blue-400/20"
  | check =>
      mkStatusInfo Shield "Check!"
        (playerName currentPlayer ++ " king in danger")
        "text-chess-check" "bg-chess-check/20"
  | draw =>
      mkStatusInfo Shield "Draw" "Game ended in a draw"
        "text-blue-400" "bg-blue-400/20"
  | playing =>
      mkStatusInfo Clock "Game in Progress"
        (playerName currentPlayer ++ "'s turn")
        "text-primary" "bg-primary/20"
  end%string.


(** ** Counting *)

Definition isColor (c : PieceColor) (o : option ChessPiece) : bool :=
  match o with
  | Some p => PieceColor_eqb (color p) c
  | None => false
  end.

(** The number of pieces of colour [c] on the board. *)
Definition countPieces (b : Board) (c : PieceColor) : nat :=
  length (List.filter (fun q => isColor c (at_sq b q)) allSquares).

(** The tally of one colour: [capturedPieces.white] or
    [capturedPieces.black]. *)
Definition capturedOf (c : PieceColor) (history : list ChessMove)
  : list ChessPiece :=
  match c with
  | white => fst (capturedPieces history)
  | black => snd (capturedPieces history)
  end.

(** ** The effect of an accepted move, as a relation between boards *)

(** What [makeMove] does to the board on a move of piece [p]: either
    only the origin and the destination change, or it is a castling of
    an unmoved king on the e-file with an unmoved rook in the corner
    [rf], the rook landing on [rt] and the king on [kd]. *)
Inductive moveEffect (b b' : Board) (from to : ChessSquare) (p : ChessPiece)
  : Prop :=
| eff_plain :
    PieceType_eqb (type p) king && (Z.abs (col to - col from) =? 2) = false ->
    (forall r c,
       cell b' r c =
       if (row from =? r) && (col from =? c) then None
       else if (row to =? r) && (col to =? c) then Some (placedPiece p to)
       else cell b r c) ->
    moveEffect b b' from to p
| eff_castle rt kd rf rk :
    type p = king -> hasMoved p = false -> col from = 4 ->
    to = mkSq (row from) kd ->
    (rt = 5 /\ kd = 6 /\ rf = 7) \/ (rt = 3 /\ kd = 2 /\ rf = 0) ->
    cell b (row from) rf = Some rk -> type rk = rook -> hasMoved rk = false ->
    cell b (row from) rt = None -> cell b (row from) kd = None ->
    (forall r0 c0,
       cell b' r0 c0 =
       if r0 =? row from then
         if c0 =? 4 then None
         else if c0 =? rt then Some (withMoved rk)
         else if c0 =? kd then Some (withMoved p)
         else if c0 =? rf then None
         else cell b r0 c0
       else cell b r0 c0) ->
    moveEffect b b' from to p.

(** The facts that hold of a move [from]-[to] of piece [p] accepted in
    state [s] and leading to [s']. *)
Record AcceptedStep (s : GameState) (from to : ChessSquare) (s' : GameState)
    (p : ChessPiece) : Prop := mkAccepted {
  as_piece : at_sq (board s) from = Some p;
  as_color : color p = currentPlayer s;
  as_from : inb from;
  as_to : inb to;
  as_pseudo : In to (pseudoMoves (board s) from p (enPassantTarget s)
                       (moveHistory s));
  as_dest : at_sq (board s) to = None \/
            exists t, at_sq (board s) to = Some t /\
                      color t = opponent (currentPlayer s) /\ type t <> king;
  as_effect : moveEffect (board s) (board s') from to p;
  as_wf : wfBoard (board s');
  as_player : currentPlayer s' = opponent (currentPlayer s)
}.

(** ** Example games *)

(** 1. e4 a6 2. e5 d5: black's d-pawn has just passed d6 and stands
    beside the white pawn on e5. *)
Definition gameEnPassant : list (ChessSquare * ChessSquare) :=
  [(alg 4 2, alg 4 4); (alg 0 7, alg 0 6); (alg 4 4, alg 4 5); (alg 3 7, alg 3 5)].

(** 1. e4 e5 2. Nf3 Nc6 3. Bc4 Bc5: white may castle kingside. *)
Definition gameCastle : list (ChessSquare * ChessSquare) :=
  [(alg 4 2, alg 4 4); (alg 4 7, alg 4 5); (alg 6 1, alg 5 3);
   (alg 1 8, alg 2 6); (alg 5 1, alg 2 4); (alg 5 8, alg 2 5)].

(** 1. a4 h6 2. a5 h5 3. a6 h4 4. axb7 c5: a white pawn stands on b7
    when black's c-pawn double-steps from c7. *)
Definition gameBackward : list (ChessSquare * ChessSquare) :=
  [(alg 0 2, alg 0 4); (alg 7 7, alg 7 6); (alg 0 4, alg 0 5);
   (alg 7 6, alg 7 5); (alg 0 5, alg 0 6); (alg 7 5, alg 7 4);
   (alg 0 6, alg 1 7); (alg 2 7, alg 2 5)].

(** Fool's mate, 1. f3 e5 2. g4 Qh4#. *)
Definition gameFoolsMate : list (ChessSquare * ChessSquare) :=
  [(alg 5 2, alg 5 3); (alg 4 7, alg 4 5); (alg 6 2, alg 6 4); (alg 3 8, alg 7 4)].

Definition stateAfter (ms : list (ChessSquare * ChessSquare)) : GameState :=
  match playFrom initialState ms with
  | Some s => s
  | None => initialState
  end.

(** * Properties *)

(** ** Elementary facts *)

Lemma PieceColor_eqb_eq a b : PieceColor_eqb a b = true <-> a = b.
Proof. destruct a, b; simpl; split; congruence. Qed.

Lemma PieceColor_eqb_neq a b : PieceColor_eqb a b = false <-> a <> b.
Proof. destruct a, b; simpl; split; congruence. Qed.

Lemma PieceType_eqb_eq a b : PieceType_eqb a b = true <-> a = b.
Proof. destruct a, b; simpl; split; congruence. Qed.

Lemma PieceType_eqb_neq a b : PieceType_eqb a b = false <-> a <> b.
Proof. destruct a, b; simpl; split; congruence. Qed.

Lemma opponent_neq c : opponent c <> c.
Proof. destruct c; discriminate. Qed.

Lemma opponent_involutive c : opponent (opponent c) = c.
Proof. destruct c; reflexivity. Qed.

Lemma neq_opponent a b : a <> b -> a = opponent b.
Proof. destruct a, b; simpl; congruence. Qed.

Lemma direction_opponent c : direction (opponent c) = - direction c.
Proof. destruct c; reflexivity. Qed.

Lemma sq_eta sq : mkSq (row sq) (col sq) = sq.
Proof. destruct sq; reflexivity. Qed.

Lemma sq_ext a b : row a = row b -> col a = col b -> a = b.
Proof. destruct a, b; simpl; congruence. Qed.

Lemma inb_iff sq : inb sq <-> 0 <= row sq < 8 /\ 0 <= col sq < 8.
Proof. unfold inb, isInBounds. rewrite !andb_true_iff. lia. Qed.

Lemma isInBounds_false sq :
  isInBounds sq = false <-> ~ (0 <= row sq < 8 /\ 0 <= col sq < 8).
Proof.
  rewrite <- inb_iff. unfold inb. destruct (isInBounds sq); split; congruence.
Qed.

Lemma In_range8 z : In z range8 <-> 0 <= z < 8.
Proof. unfold range8; simpl. lia. Qed.

Lemma In_allSquares sq : In sq allSquares <-> inb sq.
Proof.
  unfold allSquares. rewrite in_flat_map, inb_iff. split.
  - intros (r & Hr & Hsq). apply in_map_iff in Hsq as (c & <- & Hc).
    apply In_range8 in Hr, Hc. simpl. lia.
  - intros [Hr Hc]. exists (row sq). split; [now apply In_range8|].
    apply in_map_iff. exists (col sq). split; [apply sq_eta | now apply In_range8].
Qed.

(** ** Reading and writing cells *)

Lemma wfBoard_row b r :
  wfBoard b -> 0 <= r < 8 ->
  exists rw, b !! Z.to_nat r = Some rw /\ length rw = 8%nat.
Proof.
  intros [Hl Hall] Hr.
  destruct (lookup_lt_is_Some_2 b (Z.to_nat r)) as [rw Hrw]; [lia|].
  exists rw. split; [assumption|].
  rewrite Forall_forall in Hall. apply Hall.
  apply list_elem_of_lookup. eauto.
Qed.

Lemma wfBoard_setCell b r c v : wfBoard b -> wfBoard (setCell b r c v).
Proof.
  intros [Hl Hall]. unfold setCell.
  destruct ((0 <=? r) && (0 <=? c)); [|now split].
  destruct (b !! Z.to_nat r) as [rw|] eqn:Hrw; [|now split].
  split; [now rewrite length_insert|].
  apply Forall_insert; [assumption|].
  rewrite length_insert. rewrite Forall_forall in Hall. apply Hall.
  apply list_elem_of_lookup. eauto.
Qed.

Lemma cell_setCell_same b r c v :
  wfBoard b -> 0 <= r < 8 -> 0 <= c < 8 -> cell (setCell b r c v) r c = v.
Proof.
  intros Hwf Hr Hc. destruct (wfBoard_row b r Hwf Hr) as (rw & Hrw & Hlen).
  unfold cell, setCell.
  replace ((0 <=? r) && (0 <=? c)) with true by (symmetry; apply andb_true_iff; lia).
  rewrite Hrw. rewrite list_lookup_insert_eq by (destruct Hwf; lia).
  rewrite list_lookup_insert_eq by lia. reflexivity.
Qed.

Lemma cell_setCell_other b r c v r' c' :
  r <> r' \/ c <> c' -> cell (setCell b r c v) r' c' = cell b r' c'.
Proof.
  intros Hne. unfold cell, setCell.
  destruct ((0 <=? r') && (0 <=? c')) eqn:Hq; [|reflexivity].
  destruct ((0 <=? r) && (0 <=? c)) eqn:Hp; [|reflexivity].
  apply andb_true_iff in Hq as [Hr' Hc'], Hp as [Hr Hc].
  destruct (b !! Z.to_nat r) as [rw|] eqn:Hrw; [|reflexivity].
  destruct (Z.eq_dec r r') as [<-|Hrr].
  - rewrite Hrw.
    rewrite list_lookup_insert_eq by (apply lookup_lt_Some in Hrw; lia).
    rewrite list_lookup_insert_ne by lia. reflexivity.
  - rewrite list_lookup_insert_ne by lia. reflexivity.
Qed.

Lemma cell_setCell b r c v r' c' :
  wfBoard b -> 0 <= r < 8 -> 0 <= c < 8 ->
  cell (setCell b r c v) r' c' =
  if (r =? r') && (c =? c') then v else cell b r' c'.
Proof.
  intros Hwf Hr Hc.
  destruct ((r =? r') && (c =? c')) eqn:E.
  - apply andb_true_iff in E as [E1 E2].
    apply Z.eqb_eq in E1, E2. subst. now apply cell_setCell_same.
  - apply cell_setCell_other. apply andb_false_iff in E.
    destruct E as [E|E]; apply Z.eqb_neq in E; auto.
Qed.

Lemma cell_Some_inb b r c p :
  wfBoard b -> cell b r c = Some p -> 0 <= r < 8 /\ 0 <= c < 8.
Proof.
  intros [Hl Hall] H. unfold cell in H.
  destruct ((0 <=? r) && (0 <=? c)) eqn:E; [|discriminate].
  apply andb_true_iff in E as [Hr Hc].
  destruct (b !! Z.to_nat r) as [rw|] eqn:Hrw; [|discriminate].
  destruct (rw !! Z.to_nat c) as [x|] eqn:Hx; [|discriminate].
  apply lookup_lt_Some in Hrw as Hlt, Hx as Hlt'.
  rewrite Forall_forall in Hall.
  assert (length rw = 8%nat).
  { apply Hall. apply list_elem_of_lookup. eauto. }
  lia.
Qed.

Lemma wfBoard_initial : wfBoard createInitialBoard.
Proof. split; [reflexivity|]. repeat constructor. Qed.

(** ** The path loop *)

Lemma div_abs_sgn x : x <> 0 -> x / Z.abs x = Z.sgn x.
Proof.
  intros Hx. symmetry. apply Z.div_unique with (r := 0).
  - left. lia.
  - destruct (Z.lt_trichotomy x 0) as [H|[H|H]]; [| lia |].
    + rewrite Z.sgn_neg, Z.abs_neq by lia. lia.
    + rewrite Z.sgn_pos, Z.abs_eq by lia. lia.
Qed.

Lemma stepDir_sgn a k :
  (if k =? a then 0 else (k - a) / Z.abs (k - a)) = Z.sgn (k - a).
Proof.
  destruct (Z.eqb_spec k a) as [->|Hne].
  - now rewrite Z.sub_diag.
  - apply div_abs_sgn. lia.
Qed.

Lemma sgn_cases x :
  (x < 0 /\ Z.sgn x = -1) \/ (x = 0 /\ Z.sgn x = 0) \/ (0 < x /\ Z.sgn x = 1).
Proof. destruct x; simpl; lia. Qed.

Lemma pathLoop_true_inv f b cr cc tr tc dr dc :
  pathLoop f b cr cc tr tc dr dc = Some true ->
  exists n : nat, (n < f)%nat /\
    tr = cr + Z.of_nat n * dr /\ tc = cc + Z.of_nat n * dc /\
    forall i : nat, (i < n)%nat ->
      cell b (cr + Z.of_nat i * dr) (cc + Z.of_nat i * dc) = None.
Proof.
  revert cr cc. induction f as [|f IH]; intros cr cc H; simpl in H; [discriminate|].
  destruct (negb (cr =? tr) || negb (cc =? tc)) eqn:E.
  - destruct (cell b cr cc) eqn:Hc; [discriminate|].
    apply IH in H as (n & Hn & Hr & Hc' & Hall).
    exists (S n). repeat split; try lia.
    intros [|i] Hi.
    + replace (cr + Z.of_nat 0 * dr) with cr by lia.
      replace (cc + Z.of_nat 0 * dc) with cc by lia. assumption.
    + specialize (Hall i ltac:(lia)).
      replace (cr + Z.of_nat (S i) * dr) with (cr + dr + Z.of_nat i * dr) by lia.
      replace (cc + Z.of_nat (S i) * dc) with (cc + dc + Z.of_nat i * dc) by lia.
      assumption.
  - apply orb_false_iff in E as [E1 E2].
    apply negb_false_iff, Z.eqb_eq in E1, E2.
    exists 0%nat. repeat split; try lia.
Qed.

Lemma pathLoop_true_intro n : forall f b cr cc tr tc dr dc,
  (n < f)%nat ->
  tr = cr + Z.of_nat n * dr -> tc = cc + Z.of_nat n * dc ->
  (forall i : nat, (i < n)%nat ->
     cell b (cr + Z.of_nat i * dr) (cc + Z.of_nat i * dc) = None) ->
  pathLoop f b cr cc tr tc dr dc = Some true.
Proof.
  induction n as [|n IH]; intros f b cr cc tr tc dr dc Hf Hr Hc Hall;
    (destruct f as [|f]; [lia|]); simpl.
  - replace (cr =? tr) with true by (symmetry; apply Z.eqb_eq; lia).
    replace (cc =? tc) with true by (symmetry; apply Z.eqb_eq; lia).
    reflexivity.
  - destruct (negb (cr =? tr) || negb (cc =? tc)); [|reflexivity].
    pose proof (Hall 0%nat ltac:(lia)) as H0.
    replace (cr + Z.of_nat 0 * dr) with cr in H0 by lia.
    replace (cc + Z.of_nat 0 * dc) with cc in H0 by lia.
    rewrite H0. apply IH; try lia.
    intros i Hi. specialize (Hall (S i) ltac:(lia)).
    replace (cr + Z.of_nat (S i) * dr) with (cr + dr + Z.of_nat i * dr) in Hall by lia.
    replace (cc + Z.of_nat (S i) * dc) with (cc + dc + Z.of_nat i * dc) in Hall by lia.
    assumption.
Qed.

(** [isPathClear] between [a] and [k]: the loop ends within its eight
    iterations exactly when [k] lies [n] steps from [a] along the
    direction of the signs, and then answers whether the squares
    strictly between are empty. *)
Lemma isPathClear_spec b a k :
  let dr := Z.sgn (row k - row a) in
  let dc := Z.sgn (col k - col a) in
  isPathClear b a k = true <->
  exists n : Z, 1 <= n <= 8 /\
    row k = row a + n * dr /\ col k = col a + n * dc /\
    forall i : Z, 1 <= i < n -> cell b (row a + i * dr) (col a + i * dc) = None.
Proof.
  intros dr dc. unfold isPathClear. rewrite !stepDir_sgn. fold dr dc.
  split.
  - destruct (pathLoop 8 b _ _ _ _ _ _) as [[|]|] eqn:E; try discriminate.
    intros _. apply pathLoop_true_inv in E as (n & Hn & Hr & Hc & Hall).
    exists (Z.of_nat n + 1). repeat split; try lia.
    intros i Hi. specialize (Hall (Z.to_nat (i - 1)) ltac:(lia)).
    rewrite Z2Nat.id in Hall by lia.
    replace (row a + dr + (i - 1) * dr) with (row a + i * dr) in Hall by lia.
    replace (col a + dc + (i - 1) * dc) with (col a + i * dc) in Hall by lia.
    assumption.
  - intros (n & Hn & Hr & Hc & Hall).
    rewrite (pathLoop_true_intro (Z.to_nat (n - 1))); try reflexivity; try lia.
    intros i Hi. specialize (Hall (Z.of_nat i + 1) ltac:(lia)).
    replace (row a + (Z.of_nat i + 1) * dr) with (row a + dr + Z.of_nat i * dr) in Hall by lia.
    replace (col a + (Z.of_nat i + 1) * dc) with (col a + dc + Z.of_nat i * dc) in Hall by lia.
    assumption.
Qed.

(** Two squares on a common rank, file or diagonal of the board: the
    loop of [isPathClear] returns, it does not run out of iterations. *)
Lemma isPathClear_returns b a k :
  inb a -> inb k ->
  row a = row k \/ col a = col k \/
  Z.abs (row a - row k) = Z.abs (col a - col k) ->
  let dr := if row k =? row a then 0
            else (row k - row a) / Z.abs (row k - row a) in
  let dc := if col k =? col a then 0
            else (col k - col a) / Z.abs (col k - col a) in
  exists r, pathLoop 8 b (row a + dr) (col a + dc) (row k) (col k) dr dc = Some r.
Proof.
  intros Ha Hk Hal dr dc. subst dr dc. rewrite !stepDir_sgn.
  apply inb_iff in Ha, Hk.
  set (dr := Z.sgn (row k - row a)). set (dc := Z.sgn (col k - col a)).
  set (m := Z.max (Z.abs (row k - row a)) (Z.abs (col k - col a))).
  assert (Hrow : row k = row a + m * dr /\ col k = col a + m * dc /\
                 (m = 0 -> dr = 0 /\ dc = 0)).
  { subst dr dc m.
    destruct (sgn_cases (row k - row a)) as [[? ->]|[[? ->]|[? ->]]];
      destruct (sgn_cases (col k - col a)) as [[? ->]|[[? ->]|[? ->]]]; lia. }
  assert (Hm : 0 <= m <= 7) by (subst m; lia).
  clearbody m dr dc. destruct Hrow as (Hr & Hc & Hz).
  (* generalise: from any start that is [j] steps from [k], with fuel > j *)
  assert (G : forall (j : nat) (f : nat) cr cc, (j < f)%nat ->
              row k = cr + Z.of_nat j * dr -> col k = cc + Z.of_nat j * dc ->
              exists r, pathLoop f b cr cc (row k) (col k) dr dc = Some r).
  { induction j as [|j IH]; intros f cr cc Hf H1 H2;
      (destruct f as [|f]; [lia|]); simpl.
    - replace (cr =? row k) with true by (symmetry; apply Z.eqb_eq; lia).
      replace (cc =? col k) with true by (symmetry; apply Z.eqb_eq; lia).
      simpl. eauto.
    - destruct (negb (cr =? row k) || negb (cc =? col k)); [|eauto].
      destruct (cell b cr cc); [eauto|].
      apply IH; lia. }
  destruct (Z.eq_dec m 0) as [Hm0|Hm0].
  - destruct (Hz Hm0) as [-> ->]. apply (G 0%nat); lia.
  - apply (G (Z.to_nat (m - 1))); rewrite ?Z2Nat.id by lia; lia.
Qed.

(** ** Shape of the generated moves *)

Lemma slide_inv f : forall b p cr cc dr dc to,
  In to (slide f b p cr cc dr dc) ->
  exists n : nat, (n < f)%nat /\
    row to = cr + Z.of_nat n * dr /\ col to = cc + Z.of_nat n * dc /\
    inb to /\
    (forall i : nat, (i < n)%nat ->
       cell b (cr + Z.of_nat i * dr) (cc + Z.of_nat i * dc) = None) /\
    (at_sq b to = None \/
     exists t, at_sq b to = Some t /\ color t <> color p).
Proof.
  induction f as [|f IH]; intros b p cr cc dr dc to H; simpl in H; [contradiction|].
  destruct (isInBounds (mkSq cr cc)) eqn:Hb; [|contradiction].
  assert (Hhere : forall P : Prop, to = mkSq cr cc ->
            (at_sq b to = None \/ exists t, at_sq b to = Some t /\ color t <> color p) ->
            exists n : nat, (n < S f)%nat /\
              row to = cr + Z.of_nat n * dr /\ col to = cc + Z.of_nat n * dc /\
              inb to /\
              (forall i : nat, (i < n)%nat ->
                 cell b (cr + Z.of_nat i * dr) (cc + Z.of_nat i * dc) = None) /\
              (at_sq b to = None \/
               exists t, at_sq b to = Some t /\ color t <> color p)).
  { intros _ -> Hocc. exists 0%nat. simpl. repeat split; try lia; try assumption. }
  destruct (cell b cr cc) as [t|] eqn:Hc.
  - destruct (PieceColor_eqb (color t) (color p)) eqn:Hcol; simpl in H; [contradiction|].
    destruct H as [<-|[]]. apply (Hhere True); [reflexivity|].
    right. exists t. split; [exact Hc|]. now apply PieceColor_eqb_neq.
  - destruct H as [<-|H].
    + apply (Hhere True); [reflexivity|]. now left.
    + apply IH in H as (n & Hn & Hr & Hc' & Hin & Hall & Hocc).
      exists (S n). repeat split; try lia; try assumption.
      intros [|i] Hi.
      * replace (cr + Z.of_nat 0 * dr) with cr by lia.
        replace (cc + Z.of_nat 0 * dc) with cc by lia. assumption.
      * specialize (Hall i ltac:(lia)).
        replace (cr + Z.of_nat (S i) * dr) with (cr + dr + Z.of_nat i * dr) by lia.
        replace (cc + Z.of_nat (S i) * dc) with (cc + dc + Z.of_nat i * dc) by lia.
        assumption.
Qed.

(** The sliding loop stops by itself: once some step leaves the board,
    more iterations change nothing. *)
Lemma slide_fuel_gen (m : nat) : forall f b p cr cc dr dc,
  (m < f)%nat ->
  isInBounds (mkSq (cr + Z.of_nat m * dr) (cc + Z.of_nat m * dc)) = false ->
  slide f b p cr cc dr dc = slide (S m) b p cr cc dr dc.
Proof.
  induction m as [|m IH]; intros f b p cr cc dr dc Hf Hout;
    (destruct f as [|f]; [lia|]).
  - replace (cr + Z.of_nat 0 * dr) with cr in Hout by lia.
    replace (cc + Z.of_nat 0 * dc) with cc in Hout by lia.
    simpl. now rewrite Hout.
  - change (slide (S f) b p cr cc dr dc) with
      (if isInBounds (mkSq cr cc) then
         match cell b cr cc with
         | None => mkSq cr cc :: slide f b p (cr + dr) (cc + dc) dr dc
         | Some target =>
             if negb (PieceColor_eqb (color target) (color p))
             then [mkSq cr cc] else []
         end
       else []).
    change (slide (S (S m)) b p cr cc dr dc) with
      (if isInBounds (mkSq cr cc) then
         match cell b cr cc with
         | None => mkSq cr cc :: slide (S m) b p (cr + dr) (cc + dc) dr dc
         | Some target =>
             if negb (PieceColor_eqb (color target) (color p))
             then [mkSq cr cc] else []
         end
       else []).
    destruct (isInBounds (mkSq cr cc)); [|reflexivity].
    destruct (cell b cr cc); [reflexivity|].
    f_equal. apply IH; [lia|].
    replace (cr + dr + Z.of_nat m * dr) with (cr + Z.of_nat (S m) * dr) by lia.
    replace (cc + dc + Z.of_nat m * dc) with (cc + Z.of_nat (S m) * dc) by lia.
    assumption.
Qed.

(** From a square of the board and along a direction with steps of at
    most one rank and file, the sliding loop has left the board after
    eight iterations: more iterations give the same list. *)
Lemma slide_enough_fuel f b p from dr dc :
  inb from -> (8 <= f)%nat ->
  -1 <= dr <= 1 -> -1 <= dc <= 1 -> dr <> 0 \/ dc <> 0 ->
  slide f b p (row from + dr) (col from + dc) dr dc =
  slide 8 b p (row from + dr) (col from + dc) dr dc.
Proof.
  intros Hin Hf Hdr Hdc Hnz. apply inb_iff in Hin.
  apply (slide_fuel_gen 7); [lia|].
  apply isInBounds_false. simpl. lia.
Qed.

Lemma slideAll_inv b from dirs p to :
  at_sq b from = Some p ->
  In to (slideAll b from dirs) ->
  exists d (n : Z), In d dirs /\ 1 <= n <= 8 /\
    row to = row from + n * fst d /\ col to = col from + n * snd d /\
    inb to /\
    (forall i : Z, 1 <= i < n ->
       cell b (row from + i * fst d) (col from + i * snd d) = None) /\
    (at_sq b to = None \/
     exists t, at_sq b to = Some t /\ color t <> color p).
Proof.
  intros Hp H. unfold slideAll in H. rewrite Hp in H.
  apply in_flat_map in H as (d & Hd & H).
  apply slide_inv in H as (n & Hn & Hr & Hc & Hin & Hall & Hocc).
  exists d, (Z.of_nat n + 1). repeat split; try lia; try assumption.
  intros i Hi. specialize (Hall (Z.to_nat (i - 1)) ltac:(lia)).
  rewrite Z2Nat.id in Hall by lia.
  replace (row from + fst d + (i - 1) * fst d) with (row from + i * fst d) in Hall by lia.
  replace (col from + snd d + (i - 1) * snd d) with (col from + i * snd d) in Hall by lia.
  assumption.
Qed.

Lemma offsetMoves_inv b from offs p to :
  at_sq b from = Some p ->
  In to (offsetMoves b from offs) ->
  exists d, In d offs /\
    to = mkSq (row from + fst d) (col from + snd d) /\
    inb to /\ freeOrEnemy b p to = true.
Proof.
  intros Hp H. unfold offsetMoves in H. rewrite Hp in H.
  apply in_flat_map in H as (d & Hd & H).
  destruct (isInBounds _ && freeOrEnemy b p _) eqn:E; [|contradiction].
  destruct H as [<-|[]]. apply andb_true_iff in E as [E1 E2].
  exists d. repeat split; assumption.
Qed.

Lemma freeOrEnemy_inv b p to :
  freeOrEnemy b p to = true ->
  at_sq b to = None \/ exists t, at_sq b to = Some t /\ color t <> color p.
Proof.
  unfold freeOrEnemy. destruct (at_sq b to) as [t|]; [|now left].
  intros H. right. exists t. split; [reflexivity|].
  apply PieceColor_eqb_neq. now apply negb_true_iff.
Qed.

Lemma isNone_true {A} (o : option A) : isNone o = true -> o = None.
Proof. destruct o; [discriminate|reflexivity]. Qed.

Lemma getPawnMoves_inv b from ep p to :
  at_sq b from = Some p ->
  In to (getPawnMoves b from ep) -> pawnMove b from p ep to.
Proof.
  intros Hp H. unfold getPawnMoves in H. rewrite Hp in H.
  apply in_app_or in H as [H|H]; [|apply in_app_or in H as [H|H]].
  - destruct (isInBounds _ && isNone _) eqn:E; [|contradiction].
    apply andb_true_iff in E as [E1 E2].
    destruct H as [<-|H].
    + apply pm_one; [reflexivity|exact E1|now apply isNone_true].
    + destruct (row from =? startRow (color p)) eqn:Hs; [|contradiction].
      destruct (isInBounds _ && isNone (at_sq b (mkSq (row from + 2 * _) _))) eqn:E';
        [|contradiction].
      destruct H as [<-|[]]. apply andb_true_iff in E' as [E3 E4].
      apply pm_two; [now apply Z.eqb_eq|reflexivity|exact E3| |].
      * now apply isNone_true.
      * now apply isNone_true in E2.
  - apply in_flat_map in H as (off & Hoff & H).
    destruct (isInBounds _) eqn:E; [|contradiction].
    destruct (at_sq b (mkSq (row from + direction (color p)) (col from + off)))
      as [t|] eqn:Ht; [|contradiction].
    destruct (negb _) eqn:Hc; [|contradiction].
    destruct H as [<-|[]].
    apply (pm_capture _ _ _ _ _ off t); try assumption; try reflexivity.
    + simpl in Hoff. intuition.
    + apply PieceColor_eqb_neq. now apply negb_true_iff.
  - destruct ep as [t|]; [|contradiction].
    destruct ((Z.abs (col from - col t) =? 1) && _) eqn:E; [|contradiction].
    destruct H as [<-|[]]. apply andb_true_iff in E as [E1 E2].
    apply Z.eqb_eq in E1, E2.
    now apply (pm_enpassant _ _ _ _ _ t).
Qed.

Lemma getKingMoves_inv b from h p to :
  at_sq b from = Some p ->
  In to (getKingMoves b from h) -> kingMove b from p to.
Proof.
  intros Hp H. unfold getKingMoves in H. rewrite Hp in H.
  apply in_app_or in H as [H|H]; [now apply km_step|].
  destruct (negb (hasMoved p) && negb (isKingInCheck b (color p))) eqn:E;
    [|contradiction].
  apply andb_true_iff in E as [E1 E2]. apply negb_true_iff in E1, E2.
  apply in_app_or in H as [H|H].
  - destruct (isUnmovedRook (cell b (row from) 7)) eqn:Hr; [|contradiction].
    destruct (isNone _ && isNone _) eqn:He; [|contradiction].
    destruct (negb _) eqn:Ha; [|contradiction].
    destruct H as [<-|[]].
    apply andb_true_iff in He as [He1 He2]. apply isNone_true in He1, He2.
    apply negb_true_iff, orb_false_iff in Ha as [Ha1 Ha2].
    now apply km_kingside.
  - destruct (isUnmovedRook (cell b (row from) 0)) eqn:Hr; [|contradiction].
    destruct (isNone _ && isNone _ && isNone _) eqn:He; [|contradiction].
    destruct (negb _) eqn:Ha; [|contradiction].
    destruct H as [<-|[]].
    apply andb_true_iff in He as [He He3]. apply andb_true_iff in He as [He1 He2].
    apply isNone_true in He1, He2, He3.
    apply negb_true_iff, orb_false_iff in Ha as [Ha1 Ha2].
    now apply km_queenside.
Qed.

(** ** Attack patterns *)

Lemma sgn_unit_mul n d : 1 <= n -> -1 <= d <= 1 -> Z.sgn (n * d) = d.
Proof.
  intros Hn Hd. assert (d = -1 \/ d = 0 \/ d = 1) as [-> | [-> | ->]] by lia.
  - apply Z.sgn_neg. lia.
  - now rewrite Z.mul_0_r.
  - apply Z.sgn_pos. lia.
Qed.

(** Squares [1..n-1] along a unit direction are empty: the path from
    [from] to the [n]-th square is clear. *)
Lemma line_clear b from to dr dc n :
  -1 <= dr <= 1 -> -1 <= dc <= 1 -> 1 <= n <= 8 ->
  row to = row from + n * dr -> col to = col from + n * dc ->
  (forall i : Z, 1 <= i < n ->
     cell b (row from + i * dr) (col from + i * dc) = None) ->
  isPathClear b from to = true.
Proof.
  intros Hdr Hdc Hn Hr Hc Hall. apply isPathClear_spec.
  replace (row to - row from) with (n * dr) by lia.
  replace (col to - col from) with (n * dc) by lia.
  rewrite !sgn_unit_mul by lia.
  exists n. repeat split; try lia. assumption.
Qed.

Lemma isPathClear_transfer b1 b2 a k :
  (forall q, between a k q -> at_sq b1 q = None -> at_sq b2 q = None) ->
  isPathClear b1 a k = true -> isPathClear b2 a k = true.
Proof.
  intros Hb H. apply isPathClear_spec in H as (n & Hn & Hr & Hc & Hall).
  apply isPathClear_spec. exists n. repeat split; try assumption; try lia.
  intros i Hi.
  apply (Hb (mkSq (row a + i * Z.sgn (row k - row a))
                  (col a + i * Z.sgn (col k - col a)))).
  - exists n, i. simpl. repeat split; try lia; assumption.
  - apply Hall, Hi.
Qed.

Lemma canPieceAttackSquare_transfer b1 b2 a k p1 p2 :
  at_sq b1 a = Some p1 -> at_sq b2 a = Some p2 ->
  type p1 = type p2 -> color p1 = color p2 ->
  (forall q, between a k q -> at_sq b1 q = None -> at_sq b2 q = None) ->
  canPieceAttackSquare b1 a k = true -> canPieceAttackSquare b2 a k = true.
Proof.
  intros H1 H2 Ht Hc Hb. unfold canPieceAttackSquare.
  rewrite H1, H2, <- Ht, <- Hc.
  assert (Hpath : isPathClear b1 a k = true -> isPathClear b2 a k = true)
    by (apply isPathClear_transfer; exact Hb).
  assert (Hand : forall x : bool,
            x && isPathClear b1 a k = true -> x && isPathClear b2 a k = true).
  { intros x H. apply andb_true_iff in H as [Hx Hp].
    apply andb_true_iff. split; [exact Hx|apply Hpath, Hp]. }
  destruct (type p1).
  - intros H; exact H.
  - apply Hand.
  - apply Hand.
  - apply Hand.
  - intros H; exact H.
  - intros H; exact H.
Qed.

Lemma isSquareUnderAttack_iff b k c :
  isSquareUnderAttack b k c = true <->
  exists a p, inb a /\ at_sq b a = Some p /\ color p = c /\
              canPieceAttackSquare b a k = true.
Proof.
  unfold isSquareUnderAttack. rewrite existsb_exists. split.
  - intros (a & Ha & H). destruct (at_sq b a) as [p|] eqn:Hp; [|discriminate].
    apply andb_true_iff in H as [Hc Hat]. exists a, p.
    repeat split; try assumption.
    + now apply In_allSquares.
    + now apply PieceColor_eqb_eq.
  - intros (a & p & Ha & Hp & Hc & Hat). exists a. split.
    + now apply In_allSquares.
    + rewrite Hp. apply andb_true_iff. split; [now apply PieceColor_eqb_eq|exact Hat].
Qed.

(** ** Finding the king *)

Lemma find_first_sorted {A} (f : A -> bool) (key : A -> Z) (l : list A) :
  StronglySorted (fun x y => key x < key y) l ->
  forall k,
    List.find f l = Some k <->
    In k l /\ f k = true /\ forall q, In q l -> f q = true -> key k <= key q.
Proof.
  induction 1 as [|x l Hs IH Hx]; intros k; simpl.
  - split; [discriminate|tauto].
  - rewrite List.Forall_forall in Hx. destruct (f x) eqn:Hfx.
    + split.
      * intros [= <-]. repeat split; auto.
        intros q [<-|Hq] _; [lia|]. specialize (Hx q Hq). lia.
      * intros ([<-|Hk] & Hfk & Hmin); [reflexivity|].
        specialize (Hmin x (or_introl eq_refl) Hfx). specialize (Hx k Hk). lia.
    + rewrite IH. split.
      * intros (Hk & Hfk & Hmin). repeat split; auto.
        intros q [<-|Hq] Hfq; [congruence|auto].
      * intros ([<-|Hk] & Hfk & Hmin); [congruence|].
        repeat split; auto.
Qed.

Lemma allSquares_sorted :
  StronglySorted (fun x y => rowMajor x < rowMajor y) allSquares.
Proof.
  apply Sorted_StronglySorted.
  - intros x y z. lia.
  - unfold allSquares, range8, rowMajor. simpl.
    repeat (constructor; simpl; try reflexivity).
Qed.

Lemma kingPosition_first b c k :
  kingPosition b c = Some k <->
  inb k /\ isKingOf c (at_sq b k) = true /\
  forall q, inb q -> isKingOf c (at_sq b q) = true -> rowMajor k <= rowMajor q.
Proof.
  unfold kingPosition.
  rewrite (find_first_sorted _ rowMajor allSquares allSquares_sorted).
  rewrite In_allSquares. split; intros (H1 & H2 & H3); repeat split; auto.
  - intros q Hq. apply H3. now apply In_allSquares.
  - intros q Hq. apply H3. now apply In_allSquares.
Qed.

Lemma kingPosition_None b c :
  kingPosition b c = None <->
  forall q, inb q -> isKingOf c (at_sq b q) = false.
Proof.
  unfold kingPosition. split.
  - intros H q Hq. apply (find_none _ _ H). now apply In_allSquares.
  - intros H. destruct (List.find _ allSquares) as [k|] eqn:E; [|reflexivity].
    apply find_some in E as [Hin Hk]. apply In_allSquares in Hin.
    rewrite (H k Hin) in Hk. discriminate.
Qed.

Lemma kingPosition_unique b c k :
  onlyKingAt b c k -> kingPosition b c = Some k.
Proof.
  intros (Hin & Hk & Huniq). apply kingPosition_first. repeat split; auto.
  intros q Hq Hkq. rewrite (Huniq q Hq Hkq). lia.
Qed.

(** C8. On a board without a king of the queried colour, [isKingInCheck]
    answers [false] (it raises nothing).  On a board with such a king,
    [k] being the square of the first one in scan order (the only one,
    when there is one king), it answers [true] exactly when a piece of
    the opposing colour on the board has an attack pattern
    ([canPieceAttackSquare]) reaching [k]. *)
Theorem C8_isKingInCheck_spec (b : Board) (c : PieceColor) :
  ((forall q, inb q -> isKingOf c (at_sq b q) = false) ->
   isKingInCheck b c = false)
  /\
  (forall k,
     inb k -> isKingOf c (at_sq b k) = true ->
     (forall q, inb q -> isKingOf c (at_sq b q) = true ->
                rowMajor k <= rowMajor q) ->
     (isKingInCheck b c = true <->
      exists a p, inb a /\ at_sq b a = Some p /\ color p = opponent c /\
                  canPieceAttackSquare b a k = true)).
Proof.
  split.
  - intros Hno. unfold isKingInCheck.
    now rewrite (proj2 (kingPosition_None b c) Hno).
  - intros k Hin Hk Hfirst. unfold isKingInCheck.
    rewrite (proj2 (kingPosition_first b c k)) by auto.
    apply isSquareUnderAttack_iff.
Qed.

Lemma C8_isKingInCheck_spec_witness :
  isKingInCheck (board (stateAfter gameFoolsMate)) white = true <->
  exists a p, inb a /\ at_sq (board (stateAfter gameFoolsMate)) a = Some p /\
              color p = opponent white /\
              canPieceAttackSquare (board (stateAfter gameFoolsMate)) a (alg 4 1) = true.
Proof.
  apply (proj2 (C8_isKingInCheck_spec (board (stateAfter gameFoolsMate)) white)).
  - reflexivity.
  - vm_compute. reflexivity.
  - apply kingPosition_first. vm_compute. reflexivity.
Defined.

(** ** What [makeMove] writes *)

Lemma makeMove_fields s from to s' :
  makeMove s from to = Some s' ->
  exists p nb,
    at_sq (board s) from = Some p /\
    moveBoard (board s) (enPassantTarget s) from to = Some nb /\
    board s' = nb /\
    currentPlayer s' = opponent (currentPlayer s) /\
    enPassantTarget s' =
      (if PieceType_eqb (type p) pawn && (Z.abs (row to - row from) =? 2)
       then Some (mkSq ((row from + row to) / 2) (col from)) else None) /\
    gameStatus s' =
      (if isKingInCheck nb (opponent (currentPlayer s)) then
         if hasValidMoves nb (opponent (currentPlayer s)) (enPassantTarget s')
              (moveHistory s)
         then check else checkmate
       else
         if hasValidMoves nb (opponent (currentPlayer s)) (enPassantTarget s')
              (moveHistory s)
         then playing else stalemate) /\
    exists m,
      moveHistory s' = moveHistory s ++ [m] /\
      piece m = p /\
      capturedPiece m = at_sq (board s) to /\
      enPassant m =
        (PieceType_eqb (type p) pawn &&
         match enPassantTarget s with
         | Some t => (row to =? row t) && (col to =? col t)
         | None => false
         end) /\
      isCapture m = (negb (isNone (at_sq (board s) to)) || enPassant m) /\
      castling m =
        (if PieceType_eqb (type p) king && (Z.abs (col to - col from) =? 2)
         then Some (if col to >? col from then kingside else queenside)
         else None) /\
      notation m =
        generateAlgebraicNotation p from to (isCapture m) (isCheck m)
          (isCheckmate m) (castling m) (promotion m).
Proof.
  unfold makeMove. intros H.
  destruct (at_sq (board s) from) as [p|] eqn:Hp; [|discriminate].
  destruct (moveBoard (board s) (enPassantTarget s) from to) as [nb|] eqn:Hnb;
    [|discriminate].
  injection H as <-. exists p, nb. simpl.
  repeat split; try reflexivity.
  - destruct (isKingInCheck nb (opponent (currentPlayer s)));
      destruct (hasValidMoves nb _ _ _); reflexivity.
  - eexists. split; [reflexivity|]. simpl. repeat split; reflexivity.
Qed.

(** ** History is never read *)

Lemma getValidMoves_history b from c ep h1 h2 :
  getValidMoves b from c ep h1 = getValidMoves b from c ep h2.
Proof. unfold getValidMoves, pseudoMoves, getKingMoves. reflexivity. Qed.

Lemma existsb_sq_In to (l : list ChessSquare) :
  List.existsb (fun move => (row move =? row to) && (col move =? col to)) l = true
  <-> In to l.
Proof.
  rewrite existsb_exists. split.
  - intros (x & Hx & E). apply andb_true_iff in E as [E1 E2].
    apply Z.eqb_eq in E1, E2. now rewrite <- (sq_ext x to E1 E2).
  - intros H. exists to. split; [exact H|]. now rewrite !Z.eqb_refl.
Qed.

Lemma getValidMoves_owner b from c ep h :
  getValidMoves b from c ep h <> [] ->
  exists p, at_sq b from = Some p /\ color p = c.
Proof.
  unfold getValidMoves. destruct (at_sq b from) as [p|]; [|congruence].
  destruct (PieceColor_eqb (color p) c) eqn:E; simpl; [|congruence].
  intros _. exists p. split; [reflexivity|now apply PieceColor_eqb_eq].
Qed.

Lemma hasValidMoves_iff b c ep h h' :
  hasValidMoves b c ep h = true <-> hasLegalMove b c ep h'.
Proof.
  unfold hasValidMoves, hasLegalMove. rewrite existsb_exists. split.
  - intros (sq & Hsq & H). exists sq. split; [now apply In_allSquares|].
    destruct (at_sq b sq); [|discriminate].
    apply andb_true_iff in H as [_ H]. apply Z.ltb_lt in H.
    rewrite (getValidMoves_history b sq c ep h' h).
    destruct (getValidMoves b sq c ep h); [simpl in H; lia|discriminate].
  - intros (sq & Hsq & H). exists sq. split; [now apply In_allSquares|].
    rewrite (getValidMoves_history b sq c ep h' h) in H.
    destruct (getValidMoves_owner _ _ _ _ _ H) as (p & -> & Hc).
    apply andb_true_iff. split; [now apply PieceColor_eqb_eq|].
    apply Z.ltb_lt. destruct (getValidMoves b sq c ep h); [congruence|simpl; lia].
Qed.

(** C3. After an applied move the stored status is: checkmate when the
    new side to move is in check and has no legal move, stalemate when
    it is not in check and has no legal move, check when it is in check
    and has a legal move, playing otherwise. *)
Theorem C3_status_after_move (s : GameState) (from to : ChessSquare)
    (s' : GameState) :
  makeMove s from to = Some s' ->
  let inCheck := isKingInCheck (board s') (currentPlayer s') in
  let canMove := hasLegalMove (board s') (currentPlayer s')
                   (enPassantTarget s') (moveHistory s') in
  (inCheck = true /\ ~ canMove -> gameStatus s' = checkmate) /\
  (inCheck = false /\ ~ canMove -> gameStatus s' = stalemate) /\
  (inCheck = true /\ canMove -> gameStatus s' = check) /\
  (inCheck = false /\ canMove -> gameStatus s' = playing).
Proof.
  intros H inCheck canMove. subst inCheck canMove.
  apply makeMove_fields in H
    as (p & nb & _ & _ & Hb & Hc & _ & Hst & _).
  rewrite Hb, Hc, Hst.
  destruct (hasValidMoves nb (opponent (currentPlayer s)) (enPassantTarget s')
              (moveHistory s)) eqn:Hv.
  - apply (hasValidMoves_iff _ _ _ _ (moveHistory s')) in Hv.
    destruct (isKingInCheck nb (opponent (currentPlayer s)));
      repeat split; intros [? ?]; try reflexivity; try discriminate; tauto.
  - assert (Hn : ~ hasLegalMove nb (opponent (currentPlayer s))
                     (enPassantTarget s') (moveHistory s')).
    { intros Hl. apply (hasValidMoves_iff _ _ _ (moveHistory s)) in Hl. congruence. }
    destruct (isKingInCheck nb (opponent (currentPlayer s)));
      repeat split; intros [? ?]; try reflexivity; try discriminate; tauto.
Qed.

Lemma C3_status_after_move_witness :
  let s' := stateAfter gameFoolsMate in
  let inCheck := isKingInCheck (board s') (currentPlayer s') in
  let canMove := hasLegalMove (board s') (currentPlayer s')
                   (enPassantTarget s') (moveHistory s') in
  (inCheck = true /\ ~ canMove -> gameStatus s' = checkmate) /\
  (inCheck = false /\ ~ canMove -> gameStatus s' = stalemate) /\
  (inCheck = true /\ canMove -> gameStatus s' = check) /\
  (inCheck = false /\ canMove -> gameStatus s' = playing).
Proof.
  apply (C3_status_after_move
           (stateAfter [(alg 5 2, alg 5 3); (alg 4 7, alg 4 5); (alg 6 2, alg 6 4)])
           (alg 3 8) (alg 7 4)).
  vm_compute. reflexivity.
Defined.

(** C5. For a game state on the board and a [from] square of the board,
    [isValidMoveAttempt] answers [false] exactly when [from] is empty,
    or holds a piece of the side not to move, or [to] is not among the
    legal moves of the piece; and then [handlePieceMove] returns the
    state as it was (board, player, history, status and en passant
    target), without failing. *)
Theorem C5_rejected_iff (s : GameState) (from to : ChessSquare) :
  wfBoard (board s) -> inb from ->
  (isValidMoveAttempt (board s) from to (currentPlayer s)
     (enPassantTarget s) (moveHistory s) = false
   <->
   (at_sq (board s) from = None \/
    (exists p, at_sq (board s) from = Some p /\ color p <> currentPlayer s) \/
    ~ In to (getValidMoves (board s) from (currentPlayer s)
               (enPassantTarget s) (moveHistory s))))
  /\
  (isValidMoveAttempt (board s) from to (currentPlayer s)
     (enPassantTarget s) (moveHistory s) = false ->
   handlePieceMove s from to = Some s).
Proof.
  intros _ _. split.
  - unfold isValidMoveAttempt.
    destruct (at_sq (board s) from) as [p|] eqn:Hp.
    + destruct (PieceColor_eqb (color p) (currentPlayer s)) eqn:Hc; simpl.
      * rewrite <- not_true_iff_false, existsb_sq_In.
        apply PieceColor_eqb_eq in Hc. split.
        -- intros H. right. right. exact H.
        -- intros [H|[(q & [= <-] & Hq)|H]]; [discriminate|congruence|exact H].
      * apply PieceColor_eqb_neq in Hc. split; [|reflexivity].
        intros _. right. left. exists p. split; [reflexivity|exact Hc].
    + split; [|reflexivity]. intros _. now left.
  - intros H. unfold handlePieceMove. now rewrite H.
Qed.

Lemma C5_rejected_iff_witness :
  (isValidMoveAttempt (board initialState) (alg 4 2) (alg 4 5)
     (currentPlayer initialState) (enPassantTarget initialState)
     (moveHistory initialState) = false
   <->
   (at_sq (board initialState) (alg 4 2) = None \/
    (exists p, at_sq (board initialState) (alg 4 2) = Some p /\
               color p <> currentPlayer initialState) \/
    ~ In (alg 4 5)
        (getValidMoves (board initialState) (alg 4 2)
           (currentPlayer initialState) (enPassantTarget initialState)
           (moveHistory initialState))))
  /\
  (isValidMoveAttempt (board initialState) (alg 4 2) (alg 4 5)
     (currentPlayer initialState) (enPassantTarget initialState)
     (moveHistory initialState) = false ->
   handlePieceMove initialState (alg 4 2) (alg 4 5) = Some initialState).
Proof.
  apply (C5_rejected_iff initialState (alg 4 2) (alg 4 5)).
  - exact wfBoard_initial.
  - reflexivity.
Defined.

(** ** Notation *)

Lemma notation_castling p from to cap chk mate side promo :
  generateAlgebraicNotation p from to cap chk mate (Some side) promo =
  match side with kingside => "O-O"%string | queenside => "O-O-O"%string end.
Proof. reflexivity. Qed.

(** C7. Whenever the move record appended by [makeMove] has its
    [castling] field set, its notation is exactly [O-O] (kingside) or
    [O-O-O] (queenside): no [+] or [#] follows, whatever [isCheck] and
    [isCheckmate] are. *)
Theorem C7_castling_notation (s : GameState) (from to : ChessSquare)
    (s' : GameState) :
  makeMove s from to = Some s' ->
  exists m, moveHistory s' = moveHistory s ++ [m] /\
    forall side, castling m = Some side ->
      notation m =
      match side with kingside => "O-O"%string | queenside => "O-O-O"%string end.
Proof.
  intros H. apply makeMove_fields in H
    as (p & nb & _ & _ & _ & _ & _ & _ & m & Hh & _ & _ & _ & _ & _ & Hn).
  exists m. split; [exact Hh|]. intros side Hs.
  rewrite Hn, Hs. apply notation_castling.
Qed.

Lemma C7_castling_notation_witness :
  exists m,
    moveHistory (stateAfter (gameCastle ++ [(alg 4 1, alg 6 1)])) =
    moveHistory (stateAfter gameCastle) ++ [m] /\
    forall side, castling m = Some side ->
      notation m =
      match side with kingside => "O-O"%string | queenside => "O-O-O"%string end.
Proof.
  apply (C7_castling_notation (stateAfter gameCastle) (alg 4 1) (alg 6 1)).
  vm_compute. reflexivity.
Defined.

(** C6. The notation of the three reference moves, as the code renders
    them: the knight move g1-f3 comes out as [Kf3] (first letter of
    "knight"), not [Nf3]; the pawn capture e4xd5 as [exd5]; kingside
    castling as [O-O]. *)
Theorem C6_reference_notations :
  generateAlgebraicNotation (mkPiece knight white false) (alg 6 1) (alg 5 3)
    false false false None None = "Kf3"%string
  /\ generateAlgebraicNotation (mkPiece pawn white true) (alg 4 4) (alg 3 5)
       true false false None None = "exd5"%string
  /\ generateAlgebraicNotation (mkPiece king white false) (alg 4 1) (alg 6 1)
       false false false (Some kingside) None = "O-O"%string.
Proof.
  split; [vm_compute; reflexivity|]. split; vm_compute; reflexivity.
Qed.

(** C9. The legal moves of a piece and the verdict on a move attempt do
    not depend on the move history passed in. *)
Theorem C9_history_independent (b : Board) (from to : ChessSquare)
    (mover : PieceColor) (ep : option ChessSquare) (h1 h2 : list ChessMove) :
  getValidMoves b from mover ep h1 = getValidMoves b from mover ep h2
  /\ isValidMoveAttempt b from to mover ep h1
     = isValidMoveAttempt b from to mover ep h2
  /\ hasValidMoves b mover ep h1 = hasValidMoves b mover ep h2.
Proof.
  split; [apply getValidMoves_history|]. split.
  - unfold isValidMoveAttempt.
    now rewrite (getValidMoves_history b from mover ep h1 h2).
  - unfold hasValidMoves. f_equal.
Qed.

(** C4. From the initial position (standard setup, white to move, no en
    passant target) the legal moves of all white pieces number 20. *)
Theorem C4_initial_move_count :
  currentPlayer initialState = white
  /\ enPassantTarget initialState = None
  /\ totalMoves initialState = 20.
Proof.
  split; [reflexivity|]. split; [reflexivity|]. vm_compute. reflexivity.
Qed.

(** The en passant branch of [getPawnMoves] asks for
    [from.row === enPassantTarget.row + direction].  A pawn that stands
    beside the pawn which has just passed the (empty) target [t] has the
    target one row ahead, [row t = row from + direction]: for it the
    test fails, and [t] is never among its moves. *)
Lemma en_passant_never_for_capturer b from p t :
  at_sq b from = Some p -> at_sq b t = None ->
  row t = row from + direction (color p) ->
  Z.abs (col from - col t) = 1 ->
  ~ In t (getPawnMoves b from (Some t)).
Proof.
  intros Hp Hempty Hrow Hcol H.
  apply getPawnMoves_inv with (p := p) in H; [|exact Hp].
  assert (Hdir : direction (color p) = -1 \/ direction (color p) = 1)
    by (destruct (color p); simpl; lia).
  destruct H as [E _ _|_ E _ _ _|off t' _ _ _ Hs _|t' [= <-] _ Hrow' _].
  - rewrite E in Hcol. simpl in Hcol. lia.
  - rewrite E in Hrow. simpl in Hrow. lia.
  - congruence.
  - lia.
Qed.

(** The branch fires instead for a pawn one row beyond the target: after
    1. a4 h6 2. a5 h5 3. a6 h4 4. axb7 c5 the white pawn on b7 is offered
    c6, the square behind it. *)
Lemma en_passant_offered_backwards :
  enPassantTarget (stateAfter gameBackward) = Some (alg 2 6)
  /\ getValidMoves (board (stateAfter gameBackward)) (alg 1 7) white
       (enPassantTarget (stateAfter gameBackward))
       (moveHistory (stateAfter gameBackward))
     = [alg 0 8; alg 2 8; alg 2 6].
Proof. split; vm_compute; reflexivity. Qed.

(** C1. After 1. e4 a6 2. e5 d5 the white pawn on e5 stands beside the
    black pawn that has just passed over d6, the en passant target is d6
    and white is to move; the legal moves of the e5 pawn are then e6
    alone: d6 is not offered. *)
Theorem C1_en_passant_not_offered :
  exists s,
    playFrom initialState gameEnPassant = Some s
    /\ currentPlayer s = white
    /\ at_sq (board s) (alg 4 5) = Some (mkPiece pawn white true)
    /\ at_sq (board s) (alg 3 5) = Some (mkPiece pawn black true)
    /\ enPassantTarget s = Some (alg 3 6)
    /\ getValidMoves (board s) (alg 4 5) (currentPlayer s)
         (enPassantTarget s) (moveHistory s) = [alg 4 6].
Proof.
  exists (stateAfter gameEnPassant).
  split; [vm_compute; reflexivity|].
  split; [vm_compute; reflexivity|].
  split; [vm_compute; reflexivity|].
  split; [vm_compute; reflexivity|].
  split; vm_compute; reflexivity.
Qed.

(** ** Generated captures are attacks *)

Lemma canPieceAttackSquare_eq b from to p :
  at_sq b from = Some p ->
  canPieceAttackSquare b from to =
  match type p with
  | pawn =>
      (row to =? row from + direction (color p))
      && (Z.abs (col to - col from) =? 1)
  | rook =>
      ((row from =? row to) || (col from =? col to)) && isPathClear b from to
  | knight =>
      ((Z.abs (row from - row to) =? 2) && (Z.abs (col from - col to) =? 1))
      || ((Z.abs (row from - row to) =? 1) && (Z.abs (col from - col to) =? 2))
  | bishop =>
      (Z.abs (row from - row to) =? Z.abs (col from - col to))
      && isPathClear b from to
  | queen =>
      (((row from =? row to) || (col from =? col to))
       || (Z.abs (row from - row to) =? Z.abs (col from - col to)))
      && isPathClear b from to
  | king =>
      (Z.abs (row from - row to) <=? 1) && (Z.abs (col from - col to) <=? 1)
  end.
Proof. intros Hp. unfold canPieceAttackSquare. now rewrite Hp. Qed.

Lemma unit_directions d :
  In d (rookDirections ++ bishopDirections) ->
  -1 <= fst d <= 1 /\ -1 <= snd d <= 1 /\
  (In d rookDirections -> fst d = 0 \/ snd d = 0) /\
  (In d bishopDirections -> Z.abs (fst d) = 1 /\ Z.abs (snd d) = 1).
Proof.
  unfold rookDirections, bishopDirections. simpl. intros H.
  repeat (destruct H as [<-|H];
    [simpl; split; [lia|]; split; [lia|];
     split; intros Hin;
       first [lia
             | repeat (destruct Hin as [Hin|Hin]; [discriminate Hin|]);
               contradiction]|]).
  contradiction.
Qed.

(** A destination produced by the sliding loop is on a clear line from
    the origin. *)
Lemma slideAll_line b from dirs p to :
  at_sq b from = Some p ->
  (forall d, In d dirs -> In d (rookDirections ++ bishopDirections)) ->
  In to (slideAll b from dirs) ->
  inb to /\ isPathClear b from to = true /\
  (at_sq b to = None \/ exists t, at_sq b to = Some t /\ color t <> color p) /\
  exists d (n : Z), In d dirs /\ 1 <= n /\
    row to = row from + n * fst d /\ col to = col from + n * snd d.
Proof.
  intros Hp Hdirs H.
  destruct (slideAll_inv _ _ _ _ _ Hp H)
    as (d & n & Hd & Hn & Hr & Hc & Hin & Hall & Hocc).
  destruct (unit_directions d (Hdirs d Hd)) as (Hdr & Hdc & _).
  repeat split; try assumption.
  - apply (line_clear b from to (fst d) (snd d) n); assumption.
  - exists d, n. repeat split; try assumption; lia.
Qed.

Lemma offsets_attack_knight d from :
  In d knightOffsets ->
  ((Z.abs (row from - (row from + fst d)) =? 2)
   && (Z.abs (col from - (col from + snd d)) =? 1))
  || ((Z.abs (row from - (row from + fst d)) =? 1)
      && (Z.abs (col from - (col from + snd d)) =? 2)) = true.
Proof.
  intros H. apply orb_true_iff. rewrite !andb_true_iff, !Z.eqb_eq.
  unfold knightOffsets in H. simpl in H.
  repeat (destruct H as [<-|H]; [simpl; lia|]). contradiction.
Qed.

Lemma offsets_attack_king d from :
  In d kingOffsets ->
  (Z.abs (row from - (row from + fst d)) <=? 1)
  && (Z.abs (col from - (col from + snd d)) <=? 1) = true.
Proof.
  intros H. rewrite andb_true_iff, !Z.leb_le.
  unfold kingOffsets in H. simpl in H.
  repeat (destruct H as [<-|H]; [simpl; lia|]). contradiction.
Qed.

Lemma kingOffsets_col d : In d kingOffsets -> -1 <= snd d <= 1.
Proof.
  unfold kingOffsets. simpl. intros H.
  repeat (destruct H as [<-|H]; [simpl; lia|]). contradiction.
Qed.

(** Every pseudo-legal destination is a square of the board that is
    empty or holds a piece of the other colour which the moving piece
    attacks. *)
Lemma pseudoMoves_dest b from p ep h to :
  wfBoard b -> at_sq b from = Some p ->
  (forall t, ep = Some t -> inb t /\ at_sq b t = None) ->
  In to (pseudoMoves b from p ep h) ->
  inb to /\
  (at_sq b to = None \/
   exists t, at_sq b to = Some t /\ color t <> color p /\
             canPieceAttackSquare b from to = true).
Proof.
  intros Hwf Hp Hep H.
  assert (Hfrom : inb from).
  { apply inb_iff. apply (cell_Some_inb b _ _ p Hwf Hp). }
  rewrite (canPieceAttackSquare_eq b from to p Hp).
  unfold pseudoMoves in H. destruct (type p) eqn:Ht.
  - (* king *)
    apply getKingMoves_inv with (p := p) in H; [|exact Hp].
    destruct H as [H|? ? ? ? H6 ? ? ->|? ? ? ? H2 ? ? ? ->].
    + apply offsetMoves_inv with (p := p) in H as (d & Hd & -> & Hin & Hfe);
        [|exact Hp].
      split; [exact Hin|].
      apply freeOrEnemy_inv in Hfe as [Hn|(t & Hs & Hc)]; [now left|].
      right. exists t. repeat split; try assumption.
      apply (offsets_attack_king d from Hd).
    + split; [|left; exact H6].
      apply inb_iff in Hfrom. apply inb_iff. simpl. lia.
    + split; [|left; exact H2].
      apply inb_iff in Hfrom. apply inb_iff. simpl. lia.
  - (* queen *)
    unfold getQueenMoves in H. apply in_app_or in H as [H|H].
    + apply slideAll_line with (p := p) in H
        as (Hin & Hclear & Hocc & d & n & Hd & Hn & Hr & Hc);
        [|exact Hp|intros d Hd; apply in_or_app; now left].
      split; [exact Hin|]. destruct Hocc as [Hn'|(t & Hs & Hcol)]; [now left|].
      right. exists t. repeat split; try assumption.
      rewrite Hclear, andb_true_r.
      destruct (unit_directions d (in_or_app _ _ d (or_introl Hd)))
        as (_ & _ & Hrook & _).
      apply orb_true_iff. left. apply orb_true_iff.
      rewrite !Z.eqb_eq. destruct (Hrook Hd) as [E|E]; rewrite E in *; lia.
    + apply slideAll_line with (p := p) in H
        as (Hin & Hclear & Hocc & d & n & Hd & Hn & Hr & Hc);
        [|exact Hp|intros d Hd; apply in_or_app; now right].
      split; [exact Hin|]. destruct Hocc as [Hn'|(t & Hs & Hcol)]; [now left|].
      right. exists t. repeat split; try assumption.
      rewrite Hclear, andb_true_r.
      destruct (unit_directions d (in_or_app _ _ d (or_intror Hd)))
        as (Hdr & Hdc & _ & Hbis).
      apply orb_true_iff. right. rewrite Z.eqb_eq.
      destruct (Hbis Hd) as [E1 E2].
      assert (fst d = -1 \/ fst d = 1) as [F|F] by lia;
        assert (snd d = -1 \/ snd d = 1) as [G|G] by lia;
        rewrite F, G in *; lia.
  - (* rook *)
    apply slideAll_line with (p := p) in H
      as (Hin & Hclear & Hocc & d & n & Hd & Hn & Hr & Hc);
      [|exact Hp|intros d Hd; apply in_or_app; now left].
    split; [exact Hin|]. destruct Hocc as [Hn'|(t & Hs & Hcol)]; [now left|].
    right. exists t. repeat split; try assumption.
    rewrite Hclear, andb_true_r.
    destruct (unit_directions d (in_or_app _ _ d (or_introl Hd)))
      as (_ & _ & Hrook & _).
    apply orb_true_iff.
    rewrite !Z.eqb_eq. destruct (Hrook Hd) as [E|E]; rewrite E in *; lia.
  - (* bishop *)
    apply slideAll_line with (p := p) in H
      as (Hin & Hclear & Hocc & d & n & Hd & Hn & Hr & Hc);
      [|exact Hp|intros d Hd; apply in_or_app; now right].
    split; [exact Hin|]. destruct Hocc as [Hn'|(t & Hs & Hcol)]; [now left|].
    right. exists t. repeat split; try assumption.
    rewrite Hclear, andb_true_r.
    destruct (unit_directions d (in_or_app _ _ d (or_intror Hd)))
      as (Hdr & Hdc & _ & Hbis).
    rewrite Z.eqb_eq.
    destruct (Hbis Hd) as [E1 E2].
    assert (fst d = -1 \/ fst d = 1) as [F|F] by lia;
      assert (snd d = -1 \/ snd d = 1) as [G|G] by lia;
      rewrite F, G in *; lia.
  - (* knight *)
    apply offsetMoves_inv with (p := p) in H as (d & Hd & -> & Hin & Hfe);
      [|exact Hp].
    split; [exact Hin|].
    apply freeOrEnemy_inv in Hfe as [Hn|(t & Hs & Hc)]; [now left|].
    right. exists t. repeat split; try assumption.
    apply (offsets_attack_knight d from Hd).
  - (* pawn *)
    apply getPawnMoves_inv with (p := p) in H; [|exact Hp].
    destruct H as [-> Hin Hn| _ -> Hin Hn _|off t Hoff -> Hin Hs Hc|t Het _ _ ->].
    + split; [exact Hin|now left].
    + split; [exact Hin|now left].
    + split; [exact Hin|]. right. exists t. repeat split; try assumption.
      simpl. rewrite andb_true_iff, !Z.eqb_eq. lia.
    + destruct (Hep t Het) as [Hin Hn]. rewrite sq_eta. split; [exact Hin|now left].
Qed.

(** ** The boards of [simulateMove] and [makeMove], cell by cell *)

Ltac eqb_cases :=
  repeat match goal with
         | |- context [?a =? ?b] => destruct (Z.eqb_spec a b)
         end;
  simpl; try reflexivity; try lia; try congruence.

Lemma simulateMove_cell b from to r c :
  wfBoard b -> inb from -> inb to ->
  cell (simulateMove b from to) r c =
  if (row from =? r) && (col from =? c) then None
  else if (row to =? r) && (col to =? c) then at_sq b from
  else cell b r c.
Proof.
  intros Hwf Hf Ht. apply inb_iff in Hf, Ht. unfold simulateMove.
  rewrite cell_setCell by (try apply wfBoard_setCell; auto; lia).
  rewrite cell_setCell by (auto; lia). reflexivity.
Qed.

Lemma placedPiece_color p to : color (placedPiece p to) = color p.
Proof. unfold placedPiece. now destruct (_ && _). Qed.

Lemma placedPiece_not_pawn p to :
  type p <> pawn -> placedPiece p to = withMoved p.
Proof.
  intros H. unfold placedPiece.
  now rewrite (proj2 (PieceType_eqb_neq (type p) pawn) H).
Qed.

Lemma placedPiece_king p to :
  PieceType_eqb (type (placedPiece p to)) king = PieceType_eqb (type p) king.
Proof.
  unfold placedPiece, withMoved. destruct p as [t c m]. simpl.
  destruct t; simpl; try reflexivity. now destruct (_ || _).
Qed.

(** A move that is not a castling: the origin is cleared and the piece
    placed; the en passant removal, when it runs on a square that is
    empty or is the origin itself, leaves no other trace. *)
Lemma moveBoard_plain b ep from to p :
  wfBoard b -> inb from -> inb to -> at_sq b from = Some p ->
  PieceType_eqb (type p) king && (Z.abs (col to - col from) =? 2) = false ->
  (forall t, ep = Some t -> type p = pawn -> row to = row t -> col to = col t ->
     col to = col from \/ cell b (row from) (col to) = None) ->
  exists b',
    moveBoard b ep from to = Some b' /\ wfBoard b' /\
    forall r c,
      cell b' r c =
      if (row from =? r) && (col from =? c) then None
      else if (row to =? r) && (col to =? c) then Some (placedPiece p to)
      else cell b r c.
Proof.
  intros Hwf Hf Ht Hp Hnc Hep. apply inb_iff in Hf as Hf', Ht as Ht'.
  unfold moveBoard. rewrite Hp, Hnc.
  set (e := PieceType_eqb (type p) pawn &&
            match ep with
            | Some t => (row to =? row t) && (col to =? col t)
            | None => false
            end).
  assert (Hwf2 : wfBoard (if e then setCell b (row from) (col to) None else b)).
  { destruct e; [now apply wfBoard_setCell|exact Hwf]. }
  eexists. split; [reflexivity|]. split.
  - now repeat apply wfBoard_setCell.
  - intros r c.
    rewrite cell_setCell by (try apply wfBoard_setCell; auto; lia).
    rewrite cell_setCell by (auto; lia).
    destruct ((row from =? r) && (col from =? c)) eqn:E1; [reflexivity|].
    destruct ((row to =? r) && (col to =? c)) eqn:E2; [reflexivity|].
    destruct e eqn:E; [|reflexivity].
    rewrite cell_setCell by (auto; lia).
    destruct ((row from =? r) && (col to =? c)) eqn:E3; [|reflexivity].
    subst e. apply andb_true_iff in E as [Epawn E].
    apply PieceType_eqb_eq in Epawn.
    destruct ep as [t|]; [|discriminate].
    apply andb_true_iff in E as [Er Ec]. apply Z.eqb_eq in Er, Ec.
    apply andb_true_iff in E3 as [E3r E3c]. apply Z.eqb_eq in E3r, E3c.
    destruct (Hep t eq_refl Epawn Er Ec) as [Hsame|Hnone].
    + rewrite Hsame in E3c. rewrite <- E3r, <- E3c in E1.
      rewrite !Z.eqb_refl in E1. discriminate.
    + now rewrite <- E3r, <- E3c, Hnone.
Qed.

(** Kingside castling of a king on the e-file. *)
Lemma moveBoard_castle_kingside b ep from to p rk :
  wfBoard b -> inb from -> at_sq b from = Some p -> type p = king ->
  col from = 4 -> to = mkSq (row from) 6 ->
  cell b (row from) 7 = Some rk ->
  exists b',
    moveBoard b ep from to = Some b' /\ wfBoard b' /\
    forall r c,
      cell b' r c =
      if r =? row from then
        if c =? 4 then None
        else if c =? 5 then Some (withMoved rk)
        else if c =? 6 then Some (withMoved p)
        else if c =? 7 then None
        else cell b r c
      else cell b r c.
Proof.
  intros Hwf Hf Hp Ht Hc -> Hrk. apply inb_iff in Hf as Hf'.
  unfold moveBoard. rewrite Hp, Ht. simpl. rewrite Hc. simpl. rewrite Hrk.
  rewrite placedPiece_not_pawn by (rewrite Ht; discriminate).
  eexists. split; [reflexivity|]. split.
  - now repeat apply wfBoard_setCell.
  - intros r c.
    rewrite cell_setCell by (repeat apply wfBoard_setCell; auto; lia).
    rewrite cell_setCell by (repeat apply wfBoard_setCell; auto; lia).
    rewrite cell_setCell by (repeat apply wfBoard_setCell; auto; lia).
    rewrite cell_setCell by (repeat apply wfBoard_setCell; auto; lia).
    eqb_cases.
Qed.

(** Queenside castling of a king on the e-file. *)
Lemma moveBoard_castle_queenside b ep from to p rk :
  wfBoard b -> inb from -> at_sq b from = Some p -> type p = king ->
  col from = 4 -> to = mkSq (row from) 2 ->
  cell b (row from) 0 = Some rk ->
  exists b',
    moveBoard b ep from to = Some b' /\ wfBoard b' /\
    forall r c,
      cell b' r c =
      if r =? row from then
        if c =? 4 then None
        else if c =? 3 then Some (withMoved rk)
        else if c =? 2 then Some (withMoved p)
        else if c =? 0 then None
        else cell b r c
      else cell b r c.
Proof.
  intros Hwf Hf Hp Ht Hc -> Hrk. apply inb_iff in Hf as Hf'.
  unfold moveBoard. rewrite Hp, Ht. simpl. rewrite Hc. simpl. rewrite Hrk.
  rewrite placedPiece_not_pawn by (rewrite Ht; discriminate).
  eexists. split; [reflexivity|]. split.
  - now repeat apply wfBoard_setCell.
  - intros r c.
    rewrite cell_setCell by (repeat apply wfBoard_setCell; auto; lia).
    rewrite cell_setCell by (repeat apply wfBoard_setCell; auto; lia).
    rewrite cell_setCell by (repeat apply wfBoard_setCell; auto; lia).
    rewrite cell_setCell by (repeat apply wfBoard_setCell; auto; lia).
    eqb_cases.
Qed.

(** ** Check on the real board implies check on the simulated one *)

Lemma find_ext_in {A} (f g : A -> bool) (l : list A) :
  (forall x, In x l -> f x = g x) -> List.find f l = List.find g l.
Proof.
  induction l as [|x l IH]; intros H; simpl; [reflexivity|].
  rewrite <- (H x (or_introl eq_refl)).
  destruct (f x); [reflexivity|]. apply IH. intros y Hy. apply H. now right.
Qed.

Lemma kingPosition_ext b1 b2 c :
  (forall q, inb q -> isKingOf c (at_sq b1 q) = isKingOf c (at_sq b2 q)) ->
  kingPosition b1 c = kingPosition b2 c.
Proof.
  intros H. unfold kingPosition. apply find_ext_in.
  intros q Hq. apply H. now apply In_allSquares.
Qed.

Lemma isSquareUnderAttack_transfer b1 b2 k c :
  (forall a p1, inb a -> at_sq b1 a = Some p1 -> color p1 = c ->
     canPieceAttackSquare b1 a k = true ->
     (exists p2, at_sq b2 a = Some p2 /\ type p1 = type p2 /\
                 color p1 = color p2 /\
                 forall q, between a k q ->
                           at_sq b1 q = None -> at_sq b2 q = None)
     \/ isSquareUnderAttack b2 k c = true) ->
  isSquareUnderAttack b1 k c = true -> isSquareUnderAttack b2 k c = true.
Proof.
  intros H H1. apply isSquareUnderAttack_iff in H1 as (a & p1 & Ha & Hp1 & Hc & Hat).
  destruct (H a p1 Ha Hp1 Hc Hat) as [(p2 & Hp2 & Ht & Hcol & Hbt)|Hdone];
    [|exact Hdone].
  apply isSquareUnderAttack_iff. exists a, p2.
  split; [exact Ha|]. split; [exact Hp2|]. split; [congruence|].
  apply (canPieceAttackSquare_transfer b1 b2 a k p1 p2); assumption.
Qed.

(** A square on the edge file of the king's rank is never strictly
    between a square of the board and the king. *)
Lemma between_edge a k x :
  between a k x -> inb a -> row x = row k ->
  (col x = 7 /\ col k < 7) \/ (col x = 0 /\ 0 < col k) -> False.
Proof.
  intros (n & i & Hi & Hn & Hrk & Hck & Hrx & Hcx) Ha Hrow Hedge.
  apply inb_iff in Ha.
  destruct (sgn_cases (row k - row a)) as [[? Er]|[[? Er]|[? Er]]];
    destruct (sgn_cases (col k - col a)) as [[? Ec]|[[? Ec]|[? Ec]]];
    rewrite Er, Ec in *; lia.
Qed.

Lemma isKingOf_Some c p :
  isKingOf c (Some p) = PieceType_eqb (type p) king && PieceColor_eqb (color p) c.
Proof. reflexivity. Qed.

Lemma isKingOf_true c o :
  isKingOf c o = true <-> exists p, o = Some p /\ type p = king /\ color p = c.
Proof.
  destruct o as [p|]; simpl.
  - rewrite andb_true_iff, PieceType_eqb_eq, PieceColor_eqb_eq. split.
    + intros [? ?]. eauto.
    + intros (q & [= <-] & ? & ?). auto.
  - split; [discriminate|]. intros (q & ? & _). discriminate.
Qed.

Lemma isKingInCheck_plain b b' from to p c :
  wfBoard b -> inb from -> inb to ->
  at_sq b from = Some p -> color p = c ->
  (forall r c0,
     cell b' r c0 =
     if (row from =? r) && (col from =? c0) then None
     else if (row to =? r) && (col to =? c0) then Some (placedPiece p to)
     else cell b r c0) ->
  isKingInCheck b' c = true ->
  isKingInCheck (simulateMove b from to) c = true.
Proof.
  intros Hwf Hf Ht Hp Hc Hcells Hchk.
  assert (Hsim := fun r c0 => simulateMove_cell b from to r c0 Hwf Hf Ht).
  rewrite Hp in Hsim.
  assert (Hocc : forall q, at_sq b' q = None ->
                           at_sq (simulateMove b from to) q = None).
  { intros q. unfold at_sq. rewrite Hcells, Hsim.
    destruct (_ && _); [reflexivity|]. destruct (_ && _); [discriminate|auto]. }
  unfold isKingInCheck in *.
  rewrite <- (kingPosition_ext b' (simulateMove b from to) c).
  - destruct (kingPosition b' c) as [k|]; [|discriminate].
    revert Hchk. apply isSquareUnderAttack_transfer.
    intros a p1 Ha Hp1 Hc1 _. left. exists p1.
    split; [|split; [reflexivity|split; [reflexivity|intros q _; apply Hocc]]].
    revert Hp1. unfold at_sq. rewrite Hcells, Hsim.
    destruct (_ && _); [discriminate|]. destruct (_ && _); [|auto].
    intros [= <-]. rewrite placedPiece_color in Hc1.
    exfalso. apply (opponent_neq c). congruence.
  - intros q _. unfold at_sq. rewrite Hcells, Hsim.
    destruct (_ && _); [reflexivity|]. destruct (_ && _); [|reflexivity].
    rewrite !isKingOf_Some, placedPiece_king, placedPiece_color. reflexivity.
Qed.

Ltac simp_eqb :=
  repeat first
    [ rewrite Z.eqb_refl
    | match goal with
      | |- context [?a =? ?b] =>
          first [ rewrite (proj2 (Z.eqb_eq a b)) by lia
                | rewrite (proj2 (Z.eqb_neq a b)) by lia ]
      end ];
  cbv beta iota delta [andb orb negb].

Lemma onlyKingAt_from b c from p :
  uniqueKing b c -> inb from -> at_sq b from = Some p ->
  type p = king -> color p = c -> onlyKingAt b c from.
Proof.
  intros (k & Hk) Hf Hp Ht Hc.
  assert (from = k) as ->; [|exact Hk].
  destruct Hk as (_ & _ & Huniq). apply Huniq; [exact Hf|].
  apply isKingOf_true. exists p. auto.
Qed.

Lemma onlyKingAt_ext b b' c k :
  onlyKingAt b c k ->
  (forall q, inb q -> isKingOf c (at_sq b' q) = isKingOf c (at_sq b q)) ->
  onlyKingAt b' c k.
Proof.
  intros (Hin & Hk & Huniq) Hext. split; [exact Hin|]. split.
  - now rewrite Hext.
  - intros q Hq Hkq. apply Huniq; [exact Hq|]. now rewrite <- Hext.
Qed.

Lemma isKingOf_other_color c p :
  color p <> c -> isKingOf c (Some p) = false.
Proof.
  intros H. simpl. rewrite (proj2 (PieceColor_eqb_neq _ _) H).
  apply andb_false_r.
Qed.

Lemma isKingOf_not_king c p :
  type p <> king -> isKingOf c (Some p) = false.
Proof.
  intros H. simpl. now rewrite (proj2 (PieceType_eqb_neq _ _) H).
Qed.

(** *** Castling

    Both castlings at once: the king goes from the e-file to column
    [kd], the rook from the edge column [rf] to column [rt]; [b'] is the
    board [makeMove] builds. *)
Section Castling.

Variables (b b' : Board) (from : ChessSquare) (p rk : ChessPiece).
Variables (c : PieceColor) (rt kd rf : Z).

Hypothesis Hwf : wfBoard b.
Hypothesis Hf : inb from.
Hypothesis Hc4 : col from = 4.
Hypothesis Hp : at_sq b from = Some p.
Hypothesis Ht : type p = king.
Hypothesis Hc : color p = c.
Hypothesis Hrt : 0 <= rt < 8.
Hypothesis Hkd : 0 <= kd < 8.
Hypothesis N1 : rt <> 4.
Hypothesis N2 : kd <> 4.
Hypothesis N3 : rf <> 4.
Hypothesis N4 : rt <> kd.
Hypothesis N5 : rt <> rf.
Hypothesis N6 : kd <> rf.
Hypothesis Hrk : cell b (row from) rf = Some rk.
Hypothesis Htrk : type rk = rook.
Hypothesis Hcells :
  forall r0 c0,
    cell b' r0 c0 =
    if r0 =? row from then
      if c0 =? 4 then None
      else if c0 =? rt then Some (withMoved rk)
      else if c0 =? kd then Some (withMoved p)
      else if c0 =? rf then None
      else cell b r0 c0
    else cell b r0 c0.

Lemma castle_to_inb : inb (mkSq (row from) kd).
Proof using All.
  apply inb_iff in Hf. apply inb_iff. simpl. lia.
Qed.

Lemma castle_rook_not_king x :
  isKingOf x (Some (withMoved rk)) = false /\ isKingOf x (Some rk) = false.
Proof using All.
  split; apply isKingOf_not_king; simpl; rewrite Htrk; discriminate.
Qed.

(** After the castling the mover's only king stands on its destination. *)
Lemma castle_king_moved :
  uniqueKing b c -> onlyKingAt b' c (mkSq (row from) kd).
Proof using All.
  intros Hk.
  pose proof (onlyKingAt_from b c from p Hk Hf Hp Ht Hc) as (_ & _ & Huniq).
  apply inb_iff in Hf as Hf'.
  split; [exact castle_to_inb|]. split.
  - unfold at_sq. rewrite Hcells. simpl. simp_eqb.
    apply isKingOf_true. exists (withMoved p). auto.
  - intros q Hq. unfold at_sq. rewrite Hcells.
    destruct (Z.eq_dec (row q) (row from)) as [Er|Er].
    + destruct (Z.eq_dec (col q) 4); [simp_eqb; discriminate|].
      destruct (Z.eq_dec (col q) rt);
        [simp_eqb; rewrite (proj1 (castle_rook_not_king c)); discriminate|].
      destruct (Z.eq_dec (col q) kd);
        [intros _; apply sq_ext; simpl; lia|].
      destruct (Z.eq_dec (col q) rf); [simp_eqb; discriminate|].
      simp_eqb. intros Hkq. rewrite (Huniq q Hq Hkq) in *. lia.
    + simp_eqb. intros Hkq. rewrite (Huniq q Hq Hkq) in *. lia.
Qed.

(** The other side's king is where it was. *)
Lemma castle_other_king k' :
  cell b (row from) rt = None -> cell b (row from) kd = None ->
  onlyKingAt b (opponent c) k' -> onlyKingAt b' (opponent c) k'.
Proof using All.
  intros Hert Hekd Hk'.
  apply (onlyKingAt_ext b b' (opponent c) k' Hk'). intros q _.
  unfold at_sq. rewrite Hcells.
  destruct (Z.eq_dec (row q) (row from)) as [Er|Er].
  - destruct (Z.eq_dec (col q) 4) as [E|E].
    { simp_eqb. rewrite Er, E, <- Hc4. unfold at_sq in Hp. rewrite Hp.
      symmetry. apply isKingOf_other_color.
      rewrite Hc. intros E'. now apply (opponent_neq c). }
    destruct (Z.eq_dec (col q) rt) as [E1|E1].
    { simp_eqb. rewrite Er, E1, Hert. apply castle_rook_not_king. }
    destruct (Z.eq_dec (col q) kd) as [E2|E2].
    { simp_eqb. rewrite Er, E2, Hekd. apply isKingOf_other_color.
      simpl. rewrite Hc. intros E'. now apply (opponent_neq c). }
    destruct (Z.eq_dec (col q) rf) as [E3|E3].
    { simp_eqb. rewrite Er, E3, Hrk. symmetry. apply castle_rook_not_king. }
    simp_eqb. reflexivity.
  - simp_eqb. reflexivity.
Qed.

Lemma castle_move_kings :
  cell b (row from) rt = None -> cell b (row from) kd = None ->
  uniqueKing b c -> uniqueKing b (opponent c) ->
  uniqueKing b' c /\ uniqueKing b' (opponent c).
Proof using All.
  intros Hert Hekd Hk (k' & Hk'). split.
  - exists (mkSq (row from) kd). now apply castle_king_moved.
  - exists k'. now apply castle_other_king.
Qed.

(** If the castled king is in check on [b'], it is in check on the
    board of [simulateMove] too, where the rook still stands in its
    corner. *)
Lemma isKingInCheck_castle :
  uniqueKing b c ->
  (rf = 7 /\ kd < 7) \/ (rf = 0 /\ 0 < kd) ->
  (color rk = opponent c ->
   canPieceAttackSquare (simulateMove b from (mkSq (row from) kd))
     (mkSq (row from) rf) (mkSq (row from) kd) = true) ->
  isKingInCheck b' c = true ->
  isKingInCheck (simulateMove b from (mkSq (row from) kd)) c = true.
Proof using All.
  intros Hking Hedge Hrook Hchk.
  pose proof (castle_king_moved Hking) as Hmoved.
  set (to := mkSq (row from) kd) in *.
  apply inb_iff in Hf as Hf'.
  pose proof castle_to_inb as Hto.
  assert (Hsim := fun r c0 => simulateMove_cell b from to r c0 Hwf Hf Hto).
  rewrite Hp in Hsim. simpl in Hsim.
  pose proof (onlyKingAt_from b c from p Hking Hf Hp Ht Hc)
    as (_ & _ & Huniq).
  assert (K1 : kingPosition b' c = Some to).
  { apply kingPosition_unique. exact Hmoved. }
  assert (K2 : kingPosition (simulateMove b from to) c = Some to).
  { apply kingPosition_unique. split; [exact Hto|]. split.
    - unfold at_sq. rewrite Hsim. simpl. simp_eqb.
      apply isKingOf_true. exists p. auto.
    - intros q Hq. unfold at_sq. rewrite Hsim.
      destruct (Z.eq_dec (row q) (row from)) as [Er|Er].
      + destruct (Z.eq_dec (col q) 4); [simp_eqb; discriminate|].
        destruct (Z.eq_dec (col q) kd);
          [intros _; apply sq_ext; simpl; lia|].
        simp_eqb. intros Hk. rewrite (Huniq q Hq Hk) in *. lia.
      + simp_eqb. intros Hk. rewrite (Huniq q Hq Hk) in *. lia. }
  assert (Hocc : forall a q, inb a -> between a to q ->
                   at_sq b' q = None ->
                   at_sq (simulateMove b from to) q = None).
  { intros a q Ha Hbt. unfold at_sq. rewrite Hcells, Hsim.
    destruct (Z.eq_dec (row q) (row from)) as [Er|Er].
    - destruct (Z.eq_dec (col q) 4); [simp_eqb; reflexivity|].
      destruct (Z.eq_dec (col q) rt); [simp_eqb; discriminate|].
      destruct (Z.eq_dec (col q) kd); [simp_eqb; discriminate|].
      destruct (Z.eq_dec (col q) rf).
      + exfalso. apply (between_edge a to q Hbt Ha); simpl; lia.
      + simp_eqb. auto.
    - simp_eqb. auto. }
  unfold isKingInCheck in *. rewrite K1 in Hchk. rewrite K2.
  revert Hchk. apply isSquareUnderAttack_transfer.
  intros a p1 Ha Hp1 Hc1 _.
  assert (Hplain : at_sq (simulateMove b from to) a = at_sq b' a ->
            (exists p2, at_sq (simulateMove b from to) a = Some p2 /\
               type p1 = type p2 /\ color p1 = color p2 /\
               forall q, between a to q -> at_sq b' q = None ->
                         at_sq (simulateMove b from to) q = None)
            \/ isSquareUnderAttack (simulateMove b from to) to (opponent c)
               = true).
  { intros E. left. exists p1. rewrite E.
    split; [exact Hp1|]. split; [reflexivity|]. split; [reflexivity|].
    intros q. now apply Hocc. }
  revert Hp1 Hplain. unfold at_sq. rewrite Hcells, Hsim.
  destruct (Z.eq_dec (row a) (row from)) as [Er|Er].
  - destruct (Z.eq_dec (col a) 4); [simp_eqb; discriminate|].
    destruct (Z.eq_dec (col a) rt).
    { simp_eqb. intros [= <-] _. right.
      apply isSquareUnderAttack_iff. exists (mkSq (row from) rf), rk.
      split; [apply inb_iff; simpl; lia|].
      split; [unfold at_sq; rewrite Hsim; simpl; simp_eqb; exact Hrk|].
      split; [exact Hc1|]. apply Hrook. exact Hc1. }
    destruct (Z.eq_dec (col a) kd).
    { simp_eqb. intros [= <-] _. exfalso.
      apply (opponent_neq c). simpl in Hc1. congruence. }
    destruct (Z.eq_dec (col a) rf); [simp_eqb; discriminate|].
    simp_eqb. intros _ Hplain. now apply Hplain.
  - simp_eqb. intros _ Hplain. now apply Hplain.
Qed.

End Castling.
(** ** A legal move leaves the mover's king safe *)

Lemma getValidMoves_inv b from c ep h to :
  In to (getValidMoves b from c ep h) ->
  exists p, at_sq b from = Some p /\ color p = c /\
            In to (pseudoMoves b from p ep h) /\
            isKingInCheck (simulateMove b from to) c = false.
Proof.
  unfold getValidMoves. destruct (at_sq b from) as [p|]; [|contradiction].
  destruct (PieceColor_eqb (color p) c) eqn:E; simpl; [|contradiction].
  intros H. apply filter_In in H as [H1 H2].
  exists p. split; [reflexivity|]. split; [now apply PieceColor_eqb_eq|].
  split; [exact H1|]. now apply negb_true_iff.
Qed.

Lemma epOK_target b c ep :
  epOK b c ep -> forall t, ep = Some t -> inb t /\ at_sq b t = None.
Proof. intros H t ->. destruct H as (? & ? & ?). auto. Qed.

(** The removal [newBoard[from.row][to.col] = null] of an en passant
    move hits the origin square or an empty square. *)
Lemma enPassant_removal_harmless b from p ep h to :
  at_sq b from = Some p -> epOK b (color p) ep ->
  In to (pseudoMoves b from p ep h) ->
  forall t, ep = Some t -> type p = pawn ->
    row to = row t -> col to = col t ->
    col to = col from \/ cell b (row from) (col to) = None.
Proof.
  intros Hp Hep H t -> Htp Hr Hc. destruct Hep as (Hin & Hempty & Hbehind).
  unfold pseudoMoves in H. rewrite Htp in H.
  apply getPawnMoves_inv with (p := p) in H; [|exact Hp].
  destruct H as [-> _ _| _ -> _ _ _|off t' _ Hto _ Hs _|t' [= <-] _ Hrow Hto].
  - now left.
  - now left.
  - exfalso. unfold at_sq in Hs, Hempty. rewrite Hr, Hc in Hs. congruence.
  - right. rewrite Hc, Hrow. exact Hbehind.
Qed.

Lemma isUnmovedRook_inv o :
  isUnmovedRook o = true -> exists rk, o = Some rk /\ type rk = rook.
Proof.
  destruct o as [rk|]; [|discriminate]. simpl.
  intros H. apply andb_true_iff in H as [H _].
  exists rk. split; [reflexivity|now apply PieceType_eqb_eq].
Qed.

(** The castling shapes: a king move over two files starts on the
    e-file and is one of the two castlings. *)
Lemma king_two_files b from p h to :
  inb from -> at_sq b from = Some p -> type p = king ->
  In to (getKingMoves b from h) -> Z.abs (col to - col from) = 2 ->
  col from = 4 /\
  ((to = mkSq (row from) 6 /\ cell b (row from) 5 = None /\
    cell b (row from) 6 = None /\
    exists rk, cell b (row from) 7 = Some rk /\ type rk = rook)
   \/
   (to = mkSq (row from) 2 /\ cell b (row from) 1 = None /\
    cell b (row from) 2 = None /\ cell b (row from) 3 = None /\
    exists rk, cell b (row from) 0 = Some rk /\ type rk = rook)).
Proof.
  intros Hf Hp Ht H Habs. apply inb_iff in Hf.
  apply getKingMoves_inv with (p := p) in H; [|exact Hp].
  destruct H as [H|_ _ Hr H5 H6 _ _ ->|_ _ Hr H1 H2 H3 _ _ ->].
  - apply offsetMoves_inv with (p := p) in H as (d & Hd & -> & _ & _);
      [|exact Hp].
    apply kingOffsets_col in Hd. simpl in Habs. lia.
  - simpl in Habs. split; [lia|]. left.
    apply isUnmovedRook_inv in Hr. auto.
  - simpl in Habs.
    assert (col from = 4 \/ col from = 0) as [E|E] by lia.
    + split; [exact E|]. right. apply isUnmovedRook_inv in Hr. auto.
    + exfalso. unfold at_sq in Hp. rewrite E in Hp. rewrite Hp in Hr.
      simpl in Hr. rewrite Ht in Hr. discriminate.
Qed.

Theorem legal_move_safe b ep c from to h :
  wfBoard b -> epOK b c ep -> uniqueKing b c ->
  In to (getValidMoves b from c ep h) ->
  exists b', moveBoard b ep from to = Some b' /\ wfBoard b' /\
             isKingInCheck b' c = false.
Proof.
  intros Hwf Hep Hking H.
  apply getValidMoves_inv in H as (p & Hp & Hc & Hps & Hsafe).
  assert (Hf : inb from).
  { apply inb_iff. apply (cell_Some_inb b _ _ p Hwf Hp). }
  destruct (pseudoMoves_dest b from p ep h to Hwf Hp
              (epOK_target b c ep Hep) Hps) as [Hto _].
  destruct (PieceType_eqb (type p) king && (Z.abs (col to - col from) =? 2))
    eqn:Hcastle.
  - apply andb_true_iff in Hcastle as [Ht Habs].
    apply PieceType_eqb_eq in Ht. apply Z.eqb_eq in Habs.
    unfold pseudoMoves in Hps. rewrite Ht in Hps.
    pose proof (onlyKingAt_from b c from p Hking Hf Hp Ht Hc) as Honly.
    destruct (king_two_files b from p h to Hf Hp Ht Hps Habs)
      as [Hc4 [(-> & H5 & H6 & rk & Hrk & Htrk)
              |(-> & H1 & H2 & H3 & rk & Hrk & Htrk)]].
    + destruct (moveBoard_castle_kingside b ep from _ p rk Hwf Hf Hp Ht Hc4
                  eq_refl Hrk) as (b' & Hb' & Hwf' & Hcells).
      exists b'. split; [exact Hb'|]. split; [exact Hwf'|].
      destruct (isKingInCheck b' c) eqn:Hchk; [|reflexivity].
      rewrite <- Hsafe. symmetry.
      apply (isKingInCheck_castle b b' from p rk c 5 6 7); try assumption; try lia.
      intros _.
      assert (Hs7 : at_sq (simulateMove b from (mkSq (row from) 6))
                      (mkSq (row from) 7) = Some rk).
      { unfold at_sq. rewrite simulateMove_cell by assumption.
        simpl. simp_eqb. exact Hrk. }
      rewrite (canPieceAttackSquare_eq _ _ _ rk Hs7), Htrk.
      apply andb_true_iff. split; [simpl; now rewrite Z.eqb_refl|].
      apply (line_clear _ _ _ 0 (-1) 1); simpl; try lia.
    + destruct (moveBoard_castle_queenside b ep from _ p rk Hwf Hf Hp Ht Hc4
                  eq_refl Hrk) as (b' & Hb' & Hwf' & Hcells).
      exists b'. split; [exact Hb'|]. split; [exact Hwf'|].
      destruct (isKingInCheck b' c) eqn:Hchk; [|reflexivity].
      rewrite <- Hsafe. symmetry.
      apply (isKingInCheck_castle b b' from p rk c 3 2 0); try assumption; try lia.
      intros _.
      assert (Hs0 : at_sq (simulateMove b from (mkSq (row from) 2))
                      (mkSq (row from) 0) = Some rk).
      { unfold at_sq. rewrite simulateMove_cell by assumption.
        simpl. simp_eqb. exact Hrk. }
      rewrite (canPieceAttackSquare_eq _ _ _ rk Hs0), Htrk.
      apply andb_true_iff. split; [simpl; now rewrite Z.eqb_refl|].
      apply (line_clear _ _ _ 0 1 2); simpl; try lia.
      intros i Hi. assert (i = 1) as -> by lia.
      rewrite simulateMove_cell by assumption. simpl. simp_eqb.
      replace (row from + 1 * 0) with (row from) by lia.
      replace (0 + 1 * 1) with 1 by lia. exact H1.
  - destruct (moveBoard_plain b ep from to p Hwf Hf Hto Hp Hcastle)
      as (b' & Hb' & Hwf' & Hcells).
    { apply (enPassant_removal_harmless b from p ep h to Hp); [|exact Hps].
      now rewrite Hc. }
    exists b'. split; [exact Hb'|]. split; [exact Hwf'|].
    destruct (isKingInCheck b' c) eqn:Hchk; [|reflexivity].
    rewrite <- Hsafe. symmetry.
    now apply (isKingInCheck_plain b b' from to p c).
Qed.

(** ** Kings are neither captured nor duplicated *)

(** While the side not to move is out of check, no generated capture
    takes its king. *)
Lemma no_king_capture b c from p to t :
  uniqueKing b (opponent c) -> isKingInCheck b (opponent c) = false ->
  inb from -> at_sq b from = Some p -> color p = c ->
  inb to -> at_sq b to = Some t -> color t <> c ->
  canPieceAttackSquare b from to = true ->
  type t <> king.
Proof.
  intros (k & Hk) Hsafe Hf Hp Hc Hto Ht Hcol Hatt Hking.
  assert (Hkt : isKingOf (opponent c) (at_sq b to) = true).
  { rewrite Ht. apply isKingOf_true. exists t.
    split; [reflexivity|]. split; [exact Hking|]. now apply neq_opponent. }
  assert (to = k) as <-.
  { destruct Hk as (_ & _ & Huniq). now apply Huniq. }
  unfold isKingInCheck in Hsafe. rewrite (kingPosition_unique _ _ _ Hk) in Hsafe.
  rewrite opponent_involutive in Hsafe.
  assert (isSquareUnderAttack b to c = true); [|congruence].
  apply isSquareUnderAttack_iff. exists from, p. auto.
Qed.

Lemma plain_move_kings b b' c from to p :
  inb from -> inb to -> at_sq b from = Some p -> color p = c ->
  (forall x, isKingOf x (at_sq b to) = false) ->
  (forall r c0,
     cell b' r c0 =
     if (row from =? r) && (col from =? c0) then None
     else if (row to =? r) && (col to =? c0) then Some (placedPiece p to)
     else cell b r c0) ->
  uniqueKing b c -> uniqueKing b (opponent c) ->
  uniqueKing b' c /\ uniqueKing b' (opponent c).
Proof.
  intros Hf Hto Hp Hc Hdest Hcells Hk (k' & Hk').
  assert (Hcase : forall q,
            (row q = row from /\ col q = col from /\ at_sq b' q = None) \/
            (~ (row q = row from /\ col q = col from) /\
             row q = row to /\ col q = col to /\
             at_sq b' q = Some (placedPiece p to)) \/
            (~ (row q = row from /\ col q = col from) /\
             ~ (row q = row to /\ col q = col to) /\
             at_sq b' q = at_sq b q)).
  { intros q. unfold at_sq. rewrite Hcells.
    destruct (Z.eq_dec (row from) (row q)) as [E1|E1];
      destruct (Z.eq_dec (col from) (col q)) as [E2|E2];
      destruct (Z.eq_dec (row to) (row q)) as [E3|E3];
      destruct (Z.eq_dec (col to) (col q)) as [E4|E4];
      simp_eqb; first [left; repeat split; (lia || reflexivity)
                      | right; left; repeat split; (lia || reflexivity)
                      | right; right; repeat split; (lia || reflexivity)]. }
  assert (Hatfrom : forall q, row q = row from -> col q = col from ->
                              at_sq b q = Some p).
  { intros q E1 E2. unfold at_sq. rewrite E1, E2. exact Hp. }
  assert (Hatto : forall q, row q = row to -> col q = col to ->
                            at_sq b q = at_sq b to).
  { intros q E1 E2. unfold at_sq. now rewrite E1, E2. }
  split.
  - destruct (PieceType_eqb (type p) king) eqn:Hty.
    + apply PieceType_eqb_eq in Hty.
      pose proof (onlyKingAt_from b c from p Hk Hf Hp Hty Hc)
        as (_ & _ & Huniq).
      exists to. split; [exact Hto|]. split.
      * destruct (Hcase to) as [(E1 & E2 & _)|[(_ & _ & _ & ->)|(_ & N & _)]].
        -- exfalso.
           assert (E : at_sq b to = Some p) by now apply Hatfrom.
           pose proof (Hdest c) as Hd. rewrite E in Hd.
           assert (isKingOf c (Some p) = true); [|congruence].
           apply isKingOf_true. eauto.
        -- rewrite isKingOf_Some, placedPiece_king, placedPiece_color.
           rewrite (proj2 (PieceType_eqb_eq _ _) Hty).
           now rewrite (proj2 (PieceColor_eqb_eq _ _) Hc).
        -- exfalso. apply N. auto.
      * intros q Hq.
        destruct (Hcase q) as [(_ & _ & ->)|[(_ & E1 & E2 & _)|(N1 & _ & ->)]].
        -- discriminate.
        -- intros _. now apply sq_ext.
        -- intros Hkq. exfalso. apply N1.
           rewrite (Huniq q Hq Hkq). auto.
    + apply PieceType_eqb_neq in Hty. destruct Hk as (k & Hk).
      exists k. apply (onlyKingAt_ext b b' c k Hk). intros q _.
      destruct (Hcase q) as [(E1 & E2 & ->)|[(_ & E1 & E2 & ->)|(_ & _ & ->)]].
      * rewrite (Hatfrom q E1 E2). symmetry. now apply isKingOf_not_king.
      * rewrite (Hatto q E1 E2), Hdest.
        apply isKingOf_not_king.
        intros E. apply Hty.
        pose proof (placedPiece_king p to) as Hpk.
        rewrite (proj2 (PieceType_eqb_eq _ _) E) in Hpk.
        symmetry in Hpk. now apply PieceType_eqb_eq in Hpk.
      * reflexivity.
  - exists k'. apply (onlyKingAt_ext b b' (opponent c) k' Hk'). intros q _.
    destruct (Hcase q) as [(E1 & E2 & ->)|[(_ & E1 & E2 & ->)|(_ & _ & ->)]].
    + rewrite (Hatfrom q E1 E2). symmetry. apply isKingOf_other_color.
      rewrite Hc. intros E. now apply (opponent_neq c).
    + rewrite (Hatto q E1 E2), Hdest. apply isKingOf_other_color.
      rewrite placedPiece_color, Hc. intros E. now apply (opponent_neq c).
    + reflexivity.
Qed.

Lemma pseudo_dest_not_king b c from p ep h to :
  wfBoard b -> epOK b c ep -> at_sq b from = Some p -> color p = c ->
  In to (pseudoMoves b from p ep h) ->
  uniqueKing b (opponent c) -> isKingInCheck b (opponent c) = false ->
  forall x, isKingOf x (at_sq b to) = false.
Proof.
  intros Hwf Hep Hp Hc Hps Hk Hsafe x.
  assert (Hf : inb from).
  { apply inb_iff. apply (cell_Some_inb b _ _ p Hwf Hp). }
  destruct (pseudoMoves_dest b from p ep h to Hwf Hp
              (epOK_target b c ep Hep) Hps) as [Hto [->|(t & Ht & Hcol & Hatt)]];
    [reflexivity|].
  rewrite Ht. apply isKingOf_not_king.
  apply (no_king_capture b c from p to t); try assumption. congruence.
Qed.

Lemma moveBoard_kings b ep c from to h p b' :
  wfBoard b -> epOK b c ep -> at_sq b from = Some p -> color p = c ->
  In to (pseudoMoves b from p ep h) ->
  uniqueKing b c -> uniqueKing b (opponent c) ->
  isKingInCheck b (opponent c) = false ->
  moveBoard b ep from to = Some b' ->
  uniqueKing b' c /\ uniqueKing b' (opponent c).
Proof.
  intros Hwf Hep Hp Hc Hps Hk Hk' Hsafe Hb'.
  assert (Hf : inb from).
  { apply inb_iff. apply (cell_Some_inb b _ _ p Hwf Hp). }
  destruct (pseudoMoves_dest b from p ep h to Hwf Hp
              (epOK_target b c ep Hep) Hps) as [Hto _].
  destruct (PieceType_eqb (type p) king && (Z.abs (col to - col from) =? 2))
    eqn:Hcastle.
  - apply andb_true_iff in Hcastle as [Ht Habs].
    apply PieceType_eqb_eq in Ht. apply Z.eqb_eq in Habs.
    pose proof Hps as Hps'. unfold pseudoMoves in Hps'. rewrite Ht in Hps'.
    destruct (king_two_files b from p h to Hf Hp Ht Hps' Habs)
      as [Hc4 [(E & H5 & H6 & rk & Hrk & Htrk)
              |(E & H1 & H2 & H3 & rk & Hrk & Htrk)]].
    + destruct (moveBoard_castle_kingside b ep from to p rk Hwf Hf Hp Ht Hc4
                  E Hrk) as (b'' & Hb'' & _ & Hcells).
      assert (b'' = b') as -> by congruence.
      apply inb_iff in Hto. rewrite E in Hto. simpl in Hto.
      apply (castle_move_kings b b' from p rk c 5 6 7); try assumption; lia.
    + destruct (moveBoard_castle_queenside b ep from to p rk Hwf Hf Hp Ht Hc4
                  E Hrk) as (b'' & Hb'' & _ & Hcells).
      assert (b'' = b') as -> by congruence.
      apply (castle_move_kings b b' from p rk c 3 2 0); try assumption; lia.
  - destruct (moveBoard_plain b ep from to p Hwf Hf Hto Hp Hcastle)
      as (b'' & Hb'' & _ & Hcells).
    { apply (enPassant_removal_harmless b from p ep h to Hp); [|exact Hps].
      now rewrite Hc. }
    assert (b'' = b') as -> by congruence.
    apply (plain_move_kings b b' c from to p); try assumption.
    now apply (pseudo_dest_not_king b c from p ep h to).
Qed.

Lemma direction_unit c : direction c = -1 \/ direction c = 1.
Proof. destruct c; simpl; lia. Qed.

(** The target written after a double step is empty, and so is the
    square the pawn left. *)
Lemma moveBoard_epOK b ep c from to h p b' :
  wfBoard b -> epOK b c ep -> at_sq b from = Some p -> color p = c ->
  In to (pseudoMoves b from p ep h) ->
  moveBoard b ep from to = Some b' ->
  epOK b' (opponent c)
    (if PieceType_eqb (type p) pawn && (Z.abs (row to - row from) =? 2)
     then Some (mkSq ((row from + row to) / 2) (col from)) else None).
Proof.
  intros Hwf Hep Hp Hc Hps Hb'.
  destruct (PieceType_eqb (type p) pawn && (Z.abs (row to - row from) =? 2))
    eqn:E; [|exact I].
  apply andb_true_iff in E as [Ht Habs].
  apply PieceType_eqb_eq in Ht. apply Z.eqb_eq in Habs.
  assert (Hf : inb from).
  { apply inb_iff. apply (cell_Some_inb b _ _ p Hwf Hp). }
  destruct (pseudoMoves_dest b from p ep h to Hwf Hp
              (epOK_target b c ep Hep) Hps) as [Hto _].
  destruct (moveBoard_plain b ep from to p Hwf Hf Hto Hp)
    as (b'' & Hb'' & _ & Hcells).
  { rewrite Ht. reflexivity. }
  { apply (enPassant_removal_harmless b from p ep h to Hp); [|exact Hps].
    now rewrite Hc. }
  assert (b'' = b') as -> by congruence.
  pose proof (direction_unit (color p)) as Hdir.
  unfold pseudoMoves in Hps. rewrite Ht in Hps.
  apply getPawnMoves_inv with (p := p) in Hps; [|exact Hp].
  apply inb_iff in Hf as Hf', Hto as Hto'.
  destruct Hps as [-> _ _| _ E _ _ Hmid|off t _ -> _ _ _|t _ _ Hrow ->];
    simpl in Habs; try lia.
  rewrite E in *. simpl in *.
  replace (row from + (row from + 2 * direction (color p)))
    with ((row from + direction (color p)) * 2) by lia.
  rewrite Z.div_mul by lia.
  split; [apply inb_iff; simpl; lia|]. split.
  - unfold at_sq. simpl. rewrite Hcells. simp_eqb. exact Hmid.
  - simpl. rewrite <- Hc, direction_opponent, Hcells.
    replace (row from + direction (color p) + - direction (color p))
      with (row from) by lia.
    simp_eqb. reflexivity.
Qed.

(** ** The invariant of reachable states *)

Lemma isValidMoveAttempt_true b from to c ep h :
  isValidMoveAttempt b from to c ep h = true ->
  In to (getValidMoves b from c ep h).
Proof.
  unfold isValidMoveAttempt. destruct (at_sq b from) as [p|]; [|discriminate].
  destruct (negb _); [discriminate|]. apply existsb_sq_In.
Qed.

Lemma onlyKingAt_check b c k :
  isInBounds k = true ->
  isKingOf c (at_sq b k) = true ->
  forallb (fun q => negb (isKingOf c (at_sq b q)) || sq_eqb q k) allSquares = true ->
  onlyKingAt b c k.
Proof.
  intros Hin Hk Hall. split; [exact Hin|]. split; [exact Hk|].
  intros q Hq Hkq. rewrite forallb_forall in Hall.
  specialize (Hall q (proj2 (In_allSquares q) Hq)).
  rewrite Hkq in Hall. simpl in Hall. unfold sq_eqb in Hall.
  apply andb_true_iff in Hall as [E1 E2]. apply Z.eqb_eq in E1, E2.
  now apply sq_ext.
Qed.

Lemma Inv_initial : Inv initialState.
Proof.
  split.
  - exact wfBoard_initial.
  - exact I.
  - exists (alg 4 1). apply onlyKingAt_check; vm_compute; reflexivity.
  - exists (alg 4 8). apply onlyKingAt_check; vm_compute; reflexivity.
  - vm_compute. reflexivity.
Qed.

Lemma Inv_step s from to s' :
  Inv s ->
  isValidMoveAttempt (board s) from to (currentPlayer s)
    (enPassantTarget s) (moveHistory s) = true ->
  makeMove s from to = Some s' ->
  Inv s'.
Proof.
  intros [Hwf Hep Hkw Hkb Hsafe] Hok Hmv.
  apply isValidMoveAttempt_true in Hok.
  destruct (legal_move_safe _ _ _ _ _ _ Hwf Hep
              ltac:(destruct (currentPlayer s); assumption) Hok)
    as (b' & Hb' & Hwf' & Hchk).
  apply getValidMoves_inv in Hok as (p & Hp & Hc & Hps & _).
  apply makeMove_fields in Hmv
    as (p0 & nb & Hp0 & Hnb & Hbd & Hpl & Hept & _).
  assert (p0 = p) as -> by congruence.
  assert (nb = b') as -> by congruence.
  assert (Hkings : uniqueKing b' (currentPlayer s) /\
                   uniqueKing b' (opponent (currentPlayer s))).
  { apply (moveBoard_kings (board s) (enPassantTarget s) (currentPlayer s)
             from to (moveHistory s) p b'); try assumption;
      destruct (currentPlayer s); assumption. }
  split.
  - now rewrite Hbd.
  - rewrite Hbd, Hpl, Hept.
    now apply (moveBoard_epOK (board s) (enPassantTarget s) (currentPlayer s)
                 from to (moveHistory s) p b').
  - rewrite Hbd. destruct (currentPlayer s); tauto.
  - rewrite Hbd. destruct (currentPlayer s); tauto.
  - now rewrite Hbd, Hpl, opponent_involutive.
Qed.

Lemma reachable_Inv s : reachable s -> Inv s.
Proof.
  induction 1 as [|s from to s' _ IH Hok Hmv]; [exact Inv_initial|].
  exact (Inv_step s from to s' IH Hok Hmv).
Qed.

Lemma playFrom_reachable ms : forall s s',
  reachable s -> playFrom s ms = Some s' -> reachable s'.
Proof.
  induction ms as [|[from to] ms IH]; intros s s' Hs H; simpl in H.
  - now injection H as <-.
  - destruct (isValidMoveAttempt _ _ _ _ _ _) eqn:Hok; [|discriminate].
    destruct (makeMove s from to) as [s1|] eqn:Hmv; [|discriminate].
    apply (IH s1 s'); [|exact H].
    exact (reach_move s from to s1 Hs Hok Hmv).
Qed.

Lemma stateAfter_reachable ms :
  playFrom initialState ms <> None -> reachable (stateAfter ms).
Proof.
  unfold stateAfter. destruct (playFrom initialState ms) as [s|] eqn:E;
    [|congruence].
  intros _. exact (playFrom_reachable ms initialState s reach_init E).
Qed.

(** An accepted move is applied: [makeMove] does not fail on it. *)
Lemma makeMove_total s from to :
  reachable s ->
  isValidMoveAttempt (board s) from to (currentPlayer s)
    (enPassantTarget s) (moveHistory s) = true ->
  exists s', makeMove s from to = Some s'.
Proof.
  intros Hr Hok. destruct (reachable_Inv s Hr) as [Hwf Hep Hkw Hkb _].
  apply isValidMoveAttempt_true in Hok.
  destruct (legal_move_safe _ _ _ _ _ _ Hwf Hep
              ltac:(destruct (currentPlayer s); assumption) Hok)
    as (b' & Hb' & _).
  apply getValidMoves_inv in Hok as (p & Hp & _).
  unfold makeMove. rewrite Hp, Hb'. eauto.
Qed.

(** C2. In every reachable state, each square returned by
    [getValidMoves] for a piece of the side to move is a move that
    [makeMove] applies, and on the resulting board (after the rook
    relocation of a castling and the pawn removal of an en passant move)
    the mover's king is not in check. *)
Theorem C2_legal_move_keeps_own_king_safe (s : GameState)
    (from to : ChessSquare) :
  reachable s ->
  In to (getValidMoves (board s) from (currentPlayer s)
           (enPassantTarget s) (moveHistory s)) ->
  exists s', makeMove s from to = Some s' /\
             isKingInCheck (board s') (currentPlayer s) = false.
Proof.
  intros Hr Hok. destruct (reachable_Inv s Hr) as [Hwf Hep Hkw Hkb _].
  destruct (legal_move_safe _ _ _ _ _ _ Hwf Hep
              ltac:(destruct (currentPlayer s); assumption) Hok)
    as (b' & Hb' & _ & Hchk).
  apply getValidMoves_inv in Hok as (p & Hp & _).
  unfold makeMove. rewrite Hp, Hb'.
  eexists. split; [reflexivity|]. exact Hchk.
Qed.

Lemma C2_legal_move_keeps_own_king_safe_witness :
  exists s', makeMove (stateAfter gameCastle) (alg 4 1) (alg 6 1) = Some s' /\
             isKingInCheck (board s') (currentPlayer (stateAfter gameCastle))
             = false.
Proof.
  apply (C2_legal_move_keeps_own_king_safe (stateAfter gameCastle)
           (alg 4 1) (alg 6 1)).
  - apply stateAfter_reachable. vm_compute. discriminate.
  - apply (proj1 (existsb_sq_In (alg 6 1) _)). vm_compute. reflexivity.
Defined.

Lemma capturedPieces_snoc h m :
  capturedPiece m = None -> capturedPieces (h ++ [m]) = capturedPieces h.
Proof.
  intros H. unfold capturedPieces. rewrite flat_map_app. simpl.
  now rewrite H, !app_nil_r.
Qed.

(** C10. In every reachable state, when an accepted move is executed as
    an en passant capture, the move record appended to the history has
    [enPassant] and [isCapture] true and no [capturedPiece]; the tally
    [capturedPieces] of the new history equals that of the old one, so
    it does not count the move. *)
Theorem C10_en_passant_record (s : GameState) (from to : ChessSquare)
    (s' : GameState) :
  reachable s ->
  isValidMoveAttempt (board s) from to (currentPlayer s)
    (enPassantTarget s) (moveHistory s) = true ->
  makeMove s from to = Some s' ->
  exists m, moveHistory s' = moveHistory s ++ [m] /\
    (enPassant m = true ->
     isCapture m = true /\ capturedPiece m = None /\
     capturedPieces (moveHistory s') = capturedPieces (moveHistory s)).
Proof.
  intros Hr _ Hmv. destruct (reachable_Inv s Hr) as [_ Hep _ _ _].
  apply makeMove_fields in Hmv
    as (p & nb & _ & _ & _ & _ & _ & _ & m & Hh & _ & Hcap & Hen & Hic & _).
  exists m. split; [exact Hh|]. intros Htrue.
  assert (Hnone : capturedPiece m = None).
  { rewrite Hcap. rewrite Hen in Htrue.
    apply andb_true_iff in Htrue as [_ Ht].
    destruct (enPassantTarget s) as [t|]; [|discriminate].
    apply andb_true_iff in Ht as [E1 E2]. apply Z.eqb_eq in E1, E2.
    destruct Hep as (_ & Hempty & _).
    unfold at_sq in *. now rewrite E1, E2. }
  split; [rewrite Hic, Htrue; apply orb_true_r|].
  split; [exact Hnone|].
  rewrite Hh. now apply capturedPieces_snoc.
Qed.

Lemma C10_en_passant_record_witness :
  exists m,
    moveHistory (stateAfter (gameBackward ++ [(alg 1 7, alg 2 6)])) =
    moveHistory (stateAfter gameBackward) ++ [m] /\
    (enPassant m = true ->
     isCapture m = true /\ capturedPiece m = None /\
     capturedPieces (moveHistory (stateAfter (gameBackward ++ [(alg 1 7, alg 2 6)])))
     = capturedPieces (moveHistory (stateAfter gameBackward))).
Proof.
  apply (C10_en_passant_record (stateAfter gameBackward) (alg 1 7) (alg 2 6)).
  - apply stateAfter_reachable. vm_compute. discriminate.
  - vm_compute. reflexivity.
  - vm_compute. reflexivity.
Defined.


(** * Further properties of the engine and of the components *)

(** ** The effect of an accepted move *)

Lemma isUnmovedRook_unmoved o :
  isUnmovedRook o = true ->
  exists rk, o = Some rk /\ type rk = rook /\ hasMoved rk = false.
Proof.
  destruct o as [rk|]; [|discriminate]. simpl.
  intros H. apply andb_true_iff in H as [H1 H2].
  exists rk. split; [reflexivity|].
  split; [now apply PieceType_eqb_eq|now apply negb_true_iff].
Qed.

Lemma moveBoard_effect b ep c from to h p b' :
  wfBoard b -> epOK b c ep -> at_sq b from = Some p -> color p = c ->
  In to (pseudoMoves b from p ep h) ->
  moveBoard b ep from to = Some b' ->
  moveEffect b b' from to p.
Proof.
  intros Hwf Hep Hp Hc Hps Hb'.
  assert (Hf : inb from).
  { apply inb_iff. apply (cell_Some_inb b _ _ p Hwf Hp). }
  destruct (pseudoMoves_dest b from p ep h to Hwf Hp
              (epOK_target b c ep Hep) Hps) as [Hto _].
  destruct (PieceType_eqb (type p) king && (Z.abs (col to - col from) =? 2))
    eqn:Hcastle.
  - apply andb_true_iff in Hcastle as [Ht Habs].
    apply PieceType_eqb_eq in Ht. apply Z.eqb_eq in Habs.
    pose proof Hps as Hps'. unfold pseudoMoves in Hps'. rewrite Ht in Hps'.
    apply inb_iff in Hf as Hf'.
    apply getKingMoves_inv with (p := p) in Hps'; [|exact Hp].
    destruct Hps' as [H|Hm _ Hr H5 H6 _ _ E|Hm _ Hr H1 H2 H3 _ _ E].
    + apply offsetMoves_inv with (p := p) in H as (d & Hd & -> & _ & _);
        [|exact Hp].
      apply kingOffsets_col in Hd. simpl in Habs. lia.
    + rewrite E in Habs. simpl in Habs.
      assert (Hc4 : col from = 4) by lia.
      apply isUnmovedRook_unmoved in Hr as (rk & Hrk & Htrk & Hmrk).
      destruct (moveBoard_castle_kingside b ep from to p rk Hwf Hf Hp Ht Hc4
                  E Hrk) as (b'' & Hb'' & _ & Hcells).
      assert (b'' = b') as -> by congruence.
      apply (eff_castle b b' from to p 5 6 7 rk); auto.
    + rewrite E in Habs. simpl in Habs.
      assert (col from = 4 \/ col from = 0) as [Hc4|Hc0] by lia.
      * apply isUnmovedRook_unmoved in Hr as (rk & Hrk & Htrk & Hmrk).
        destruct (moveBoard_castle_queenside b ep from to p rk Hwf Hf Hp Ht
                    Hc4 E Hrk) as (b'' & Hb'' & _ & Hcells).
        assert (b'' = b') as -> by congruence.
        apply (eff_castle b b' from to p 3 2 0 rk); auto.
      * exfalso. unfold at_sq in Hp. rewrite Hc0 in Hp. rewrite Hp in Hr.
        simpl in Hr. rewrite Ht in Hr. discriminate.
  - destruct (moveBoard_plain b ep from to p Hwf Hf Hto Hp Hcastle)
      as (b'' & Hb'' & _ & Hcells).
    { apply (enPassant_removal_harmless b from p ep h to Hp); [|exact Hps].
      now rewrite Hc. }
    assert (b'' = b') as -> by congruence.
    now apply eff_plain.
Qed.

Lemma accepted_step s from to s' :
  Inv s ->
  isValidMoveAttempt (board s) from to (currentPlayer s)
    (enPassantTarget s) (moveHistory s) = true ->
  makeMove s from to = Some s' ->
  exists p, AcceptedStep s from to s' p.
Proof.
  intros HI Hok Hmv. pose proof (Inv_step s from to s' HI Hok Hmv) as HI'.
  destruct HI as [Hwf Hep Hkw Hkb Hsafe].
  apply isValidMoveAttempt_true in Hok.
  apply getValidMoves_inv in Hok as (p & Hp & Hc & Hps & _).
  apply makeMove_fields in Hmv
    as (p0 & nb & Hp0 & Hnb & Hbd & Hpl & _).
  assert (p0 = p) as -> by congruence.
  assert (Hf : inb from).
  { apply inb_iff. apply (cell_Some_inb _ _ _ p Hwf Hp). }
  assert (Hko : uniqueKing (board s) (opponent (currentPlayer s)))
    by (destruct (currentPlayer s); assumption).
  destruct (pseudoMoves_dest _ from p _ _ to Hwf Hp
              (epOK_target _ _ _ Hep) Hps) as [Hto Hdest].
  exists p. split; try assumption.
  - destruct Hdest as [Hn|(t & Ht & Hcol & Hatt)]; [now left|].
    right. exists t. split; [exact Ht|]. split.
    + apply neq_opponent. congruence.
    + apply (no_king_capture (board s) (currentPlayer s) from p to t);
        try assumption. congruence.
  - rewrite Hbd.
    now apply (moveBoard_effect (board s) (enPassantTarget s)
                 (currentPlayer s) from to (moveHistory s) p nb).
  - apply (inv_wf s' HI').
Qed.

(** Induction over the reachable states, with the facts of the last
    move at hand. *)
Lemma reachable_step_ind (P : GameState -> Prop) :
  P initialState ->
  (forall s from to s' p,
     reachable s -> P s ->
     isValidMoveAttempt (board s) from to (currentPlayer s)
       (enPassantTarget s) (moveHistory s) = true ->
     makeMove s from to = Some s' ->
     AcceptedStep s from to s' p -> P s') ->
  forall s, reachable s -> P s.
Proof.
  intros H0 Hstep s Hr.
  induction Hr as [|s from to s' Hr IH Hok Hmv]; [exact H0|].
  destruct (accepted_step s from to s' (reachable_Inv s Hr) Hok Hmv) as [p Hp].
  exact (Hstep s from to s' p Hr IH Hok Hmv Hp).
Qed.

Lemma plain_cell_cases b b' from to p :
  (forall r c,
     cell b' r c =
     if (row from =? r) && (col from =? c) then None
     else if (row to =? r) && (col to =? c) then Some (placedPiece p to)
     else cell b r c) ->
  forall q,
    (row q = row from /\ col q = col from /\ at_sq b' q = None) \/
    (~ (row q = row from /\ col q = col from) /\
     row q = row to /\ col q = col to /\
     at_sq b' q = Some (placedPiece p to)) \/
    (~ (row q = row from /\ col q = col from) /\
     ~ (row q = row to /\ col q = col to) /\
     at_sq b' q = at_sq b q).
Proof.
  intros Hcells q. unfold at_sq. rewrite Hcells.
  destruct (Z.eq_dec (row from) (row q)) as [E1|E1];
    destruct (Z.eq_dec (col from) (col q)) as [E2|E2];
    destruct (Z.eq_dec (row to) (row q)) as [E3|E3];
    destruct (Z.eq_dec (col to) (col q)) as [E4|E4];
    simp_eqb; first [left; repeat split; (lia || reflexivity)
                    | right; left; repeat split; (lia || reflexivity)
                    | right; right; repeat split; (lia || reflexivity)].
Qed.

Lemma castle_cell_cases b b' from p rk rt kd rf :
  rt <> 4 -> kd <> 4 -> rf <> 4 -> rt <> kd -> rt <> rf -> kd <> rf ->
  (forall r0 c0,
     cell b' r0 c0 =
     if r0 =? row from then
       if c0 =? 4 then None
       else if c0 =? rt then Some (withMoved rk)
       else if c0 =? kd then Some (withMoved p)
       else if c0 =? rf then None
       else cell b r0 c0
     else cell b r0 c0) ->
  forall q,
    (row q = row from /\ col q = 4 /\ at_sq b' q = None) \/
    (row q = row from /\ col q = rt /\ at_sq b' q = Some (withMoved rk)) \/
    (row q = row from /\ col q = kd /\ at_sq b' q = Some (withMoved p)) \/
    (row q = row from /\ col q = rf /\ at_sq b' q = None) \/
    (~ (row q = row from /\
        (col q = 4 \/ col q = rt \/ col q = kd \/ col q = rf)) /\
     at_sq b' q = at_sq b q).
Proof.
  intros N1 N2 N3 N4 N5 N6 Hcells q. unfold at_sq. rewrite Hcells.
  destruct (Z.eq_dec (row q) (row from)) as [Er|Er].
  - destruct (Z.eq_dec (col q) 4); [simp_eqb; tauto|].
    destruct (Z.eq_dec (col q) rt); [simp_eqb; tauto|].
    destruct (Z.eq_dec (col q) kd); [simp_eqb; tauto|].
    destruct (Z.eq_dec (col q) rf); [simp_eqb; tauto|].
    simp_eqb. right. right. right. right. split; [lia|reflexivity].
  - simp_eqb. right. right. right. right. split; [lia|reflexivity].
Qed.

Lemma castle_columns rt kd rf :
  (rt = 5 /\ kd = 6 /\ rf = 7) \/ (rt = 3 /\ kd = 2 /\ rf = 0) ->
  rt <> 4 /\ kd <> 4 /\ rf <> 4 /\ rt <> kd /\ rt <> rf /\ kd <> rf /\
  0 <= rt < 8 /\ 0 <= kd < 8 /\ 0 <= rf < 8.
Proof. lia. Qed.

Lemma placedPiece_moved p to : hasMoved (placedPiece p to) = true.
Proof. unfold placedPiece. now destruct (_ && _). Qed.

Lemma squares_check (f : ChessSquare -> bool) :
  forallb f allSquares = true -> forall q, inb q -> f q = true.
Proof.
  intros H q Hq. rewrite forallb_forall in H. apply H. now apply In_allSquares.
Qed.

(** ** Invariants of the reachable positions *)

(** In every reachable state each colour has exactly one king on the
    board. *)
Theorem reachable_exactly_one_king (s : GameState) (c : PieceColor) :
  reachable s ->
  exists k, inb k /\ isKingOf c (at_sq (board s) k) = true /\
            forall q, inb q -> isKingOf c (at_sq (board s) q) = true -> q = k.
Proof.
  intros Hr. destruct (reachable_Inv s Hr) as [_ _ Hw Hb _].
  destruct c; [exact Hw|exact Hb].
Qed.

Lemma reachable_exactly_one_king_witness :
  exists k, inb k /\
    isKingOf black (at_sq (board (stateAfter gameCastle)) k) = true /\
    forall q, inb q ->
      isKingOf black (at_sq (board (stateAfter gameCastle)) q) = true -> q = k.
Proof.
  apply (reachable_exactly_one_king (stateAfter gameCastle) black).
  apply stateAfter_reachable. vm_compute. discriminate.
Defined.

Lemma legal_destination_inv (s : GameState) (from to : ChessSquare) :
  reachable s ->
  In to (getValidMoves (board s) from (currentPlayer s)
           (enPassantTarget s) (moveHistory s)) ->
  inb to /\ to <> from /\
  (at_sq (board s) to = None \/
   exists t, at_sq (board s) to = Some t /\
             color t = opponent (currentPlayer s) /\ type t <> king).
Proof.
  intros Hr Hin. destruct (reachable_Inv s Hr) as [Hwf Hep Hkw Hkb Hsafe].
  apply getValidMoves_inv in Hin as (p & Hp & Hc & Hps & _).
  assert (Hf : inb from).
  { apply inb_iff. apply (cell_Some_inb _ _ _ p Hwf Hp). }
  assert (Hko : uniqueKing (board s) (opponent (currentPlayer s)))
    by (destruct (currentPlayer s); assumption).
  destruct (pseudoMoves_dest _ from p _ _ to Hwf Hp
              (epOK_target _ _ _ Hep) Hps) as [Hto Hdest].
  split; [exact Hto|].
  destruct Hdest as [Hn|(t & Ht & Hcol & Hatt)].
  - split; [intros ->; congruence|now left].
  - split; [intros ->; congruence|].
    right. exists t. split; [exact Ht|]. split.
    + apply neq_opponent. congruence.
    + apply (no_king_capture (board s) (currentPlayer s) from p to t);
        try assumption. congruence.
Qed.

(** In every reachable state a legal destination is a square of the
    board other than the origin, and it is empty or holds a piece of the
    side not to move that is not a king. *)
Theorem legal_destination_shape (s : GameState) (from to : ChessSquare) :
  reachable s ->
  In to (getValidMoves (board s) from (currentPlayer s)
           (enPassantTarget s) (moveHistory s)) ->
  inb to /\ to <> from /\
  (at_sq (board s) to = None \/
   exists t, at_sq (board s) to = Some t /\
             color t = opponent (currentPlayer s) /\ type t <> king).
Proof. exact (legal_destination_inv s from to). Qed.

Lemma legal_destination_shape_witness :
  inb (alg 1 7) /\ alg 1 7 <> alg 0 6 /\
  (at_sq (board (stateAfter [(alg 0 2, alg 0 4); (alg 7 7, alg 7 6);
                             (alg 0 4, alg 0 5); (alg 7 6, alg 7 5);
                             (alg 0 5, alg 0 6); (alg 7 5, alg 7 4)]))
     (alg 1 7) = None \/
   exists t,
     at_sq (board (stateAfter [(alg 0 2, alg 0 4); (alg 7 7, alg 7 6);
                               (alg 0 4, alg 0 5); (alg 7 6, alg 7 5);
                               (alg 0 5, alg 0 6); (alg 7 5, alg 7 4)]))
       (alg 1 7) = Some t /\
     color t = opponent
       (currentPlayer (stateAfter [(alg 0 2, alg 0 4); (alg 7 7, alg 7 6);
                                   (alg 0 4, alg 0 5); (alg 7 6, alg 7 5);
                                   (alg 0 5, alg 0 6); (alg 7 5, alg 7 4)])) /\
     type t <> king).
Proof.
  apply (legal_destination_shape
           (stateAfter [(alg 0 2, alg 0 4); (alg 7 7, alg 7 6);
                        (alg 0 4, alg 0 5); (alg 7 6, alg 7 5);
                        (alg 0 5, alg 0 6); (alg 7 5, alg 7 4)])
           (alg 0 6) (alg 1 7)).
  - apply stateAfter_reachable. vm_compute. discriminate.
  - apply (proj1 (existsb_sq_In (alg 1 7) _)). vm_compute. reflexivity.
Defined.

(** In every reachable state the pawns stand on rows 1 to 6: none is
    left on a row where it would have been promoted. *)
Theorem reachable_pawns_off_back_rows (s : GameState) :
  reachable s ->
  forall q p, at_sq (board s) q = Some p -> type p = pawn -> 1 <= row q <= 6.
Proof.
  intros Hr. pattern s. revert s Hr. apply reachable_step_ind.
  - intros q p Hq Ht.
    assert (Hin : inb q).
    { apply inb_iff. apply (cell_Some_inb _ _ _ p wfBoard_initial Hq). }
    pose proof (squares_check
      (fun q => match at_sq createInitialBoard q with
                | Some p => negb (PieceType_eqb (type p) pawn)
                            || ((1 <=? row q) && (row q <=? 6))
                | None => true
                end) eq_refl q Hin) as H.
    simpl in H. change (board initialState) with createInitialBoard in Hq.
    rewrite Hq, Ht in H. simpl in H. apply andb_true_iff in H. lia.
  - intros s from to s' p0 Hr IH _ _ [Hp Hc Hf Hto _ _ Heff _ _] q p Hq Ht.
    destruct Heff as [_ Hcells|rt kd rf rk Hk _ _ _ Hcols _ Hrk _ _ _ Hcells].
    + destruct (plain_cell_cases _ _ _ _ _ Hcells q)
        as [(_ & _ & E)|[(_ & E1 & E2 & E)|(_ & _ & E)]].
      * congruence.
      * rewrite E in Hq. injection Hq as <-.
        unfold placedPiece in Ht.
        destruct (PieceType_eqb (type p0) pawn) eqn:Hpawn; simpl in Ht;
          [|apply PieceType_eqb_neq in Hpawn; congruence].
        destruct ((row to =? 0) || (row to =? 7)) eqn:Hrow;
          [simpl in Ht; discriminate|].
        apply orb_false_iff in Hrow as [R0 R7].
        apply Z.eqb_neq in R0, R7. apply inb_iff in Hto. lia.
      * rewrite E in Hq. exact (IH q p Hq Ht).
    + destruct (castle_columns _ _ _ Hcols) as (N1 & N2 & N3 & N4 & N5 & N6 & _).
      destruct (castle_cell_cases _ _ _ _ _ _ _ _ N1 N2 N3 N4 N5 N6 Hcells q)
        as [(_ & _ & E)|[(_ & _ & E)|[(_ & _ & E)|[(_ & _ & E)|(_ & E)]]]];
        rewrite E in Hq.
      * discriminate.
      * injection Hq as <-. simpl in Ht. congruence.
      * injection Hq as <-. simpl in Ht. congruence.
      * discriminate.
      * exact (IH q p Hq Ht).
Qed.

Lemma reachable_pawns_off_back_rows_witness :
  1 <= row (alg 1 7) <= 6.
Proof.
  apply (reachable_pawns_off_back_rows (stateAfter gameBackward)
           ltac:(apply stateAfter_reachable; vm_compute; discriminate)
           (alg 1 7) (mkPiece pawn white true)).
  - vm_compute. reflexivity.
  - reflexivity.
Defined.

Lemma unmoved_at_home_inv (s : GameState) :
  reachable s ->
  forall q p, at_sq (board s) q = Some p -> hasMoved p = false ->
              at_sq createInitialBoard q = Some p.
Proof.
  intros Hr. pattern s. revert s Hr. apply reachable_step_ind.
  - intros q p Hq _. exact Hq.
  - intros s from to s' p0 Hr IH _ _ [Hp Hc Hf Hto _ _ Heff _ _] q p Hq Hm.
    destruct Heff as [_ Hcells|rt kd rf rk Hk _ _ _ Hcols _ Hrk _ _ _ Hcells].
    + destruct (plain_cell_cases _ _ _ _ _ Hcells q)
        as [(_ & _ & E)|[(_ & E1 & E2 & E)|(_ & _ & E)]]; rewrite E in Hq.
      * discriminate.
      * injection Hq as <-. rewrite placedPiece_moved in Hm. discriminate.
      * exact (IH q p Hq Hm).
    + destruct (castle_columns _ _ _ Hcols) as (N1 & N2 & N3 & N4 & N5 & N6 & _).
      destruct (castle_cell_cases _ _ _ _ _ _ _ _ N1 N2 N3 N4 N5 N6 Hcells q)
        as [(_ & _ & E)|[(_ & _ & E)|[(_ & _ & E)|[(_ & _ & E)|(_ & E)]]]];
        rewrite E in Hq.
      * discriminate.
      * injection Hq as <-. discriminate.
      * injection Hq as <-. discriminate.
      * discriminate.
      * exact (IH q p Hq Hm).
Qed.

(** In every reachable state a piece whose [hasMoved] flag is unset
    stands where [createInitialBoard] put it. *)
Theorem reachable_unmoved_at_home (s : GameState) :
  reachable s ->
  forall q p, at_sq (board s) q = Some p -> hasMoved p = false ->
              at_sq createInitialBoard q = Some p.
Proof. exact (unmoved_at_home_inv s). Qed.

Lemma reachable_unmoved_at_home_witness :
  at_sq createInitialBoard (alg 7 1) = Some (mkPiece rook white false).
Proof.
  apply (reachable_unmoved_at_home (stateAfter gameCastle)
           ltac:(apply stateAfter_reachable; vm_compute; discriminate)
           (alg 7 1) (mkPiece rook white false)).
  - vm_compute. reflexivity.
  - reflexivity.
Defined.

(** The en passant target of a reachable state is never stale: when it
    is set, the side to move sees it on row 2 (white to move) or row 5
    (black to move); it is empty, the square the pawn came from is empty,
    and the square before it holds the opposing pawn that has just made
    its double step. *)
Theorem reachable_enPassantTarget_shape (s : GameState) (t : ChessSquare) :
  reachable s -> enPassantTarget s = Some t ->
  row t = (match currentPlayer s with white => 2 | black => 5 end)
  /\ inb t
  /\ at_sq (board s) t = None
  /\ cell (board s) (row t + direction (currentPlayer s)) (col t) = None
  /\ cell (board s) (row t - direction (currentPlayer s)) (col t)
     = Some (mkPiece pawn (opponent (currentPlayer s)) true).
Proof.
  intros Hr. revert t. pattern s. revert s Hr. apply reachable_step_ind.
  - intros t Ht. discriminate.
  - intros s from to s' p Hr _ _ Hmv [Hp Hc Hf Hto Hps _ Heff _ Hpl] t Ht.
    apply makeMove_fields in Hmv as (p1 & nb & Hp1 & _ & _ & _ & Hept & _).
    assert (p1 = p) as -> by congruence.
    rewrite Hept in Ht.
    destruct (PieceType_eqb (type p) pawn && (Z.abs (row to - row from) =? 2))
      eqn:E; [|discriminate].
    injection Ht as <-.
    apply andb_true_iff in E as [Hty Habs].
    apply PieceType_eqb_eq in Hty. apply Z.eqb_eq in Habs.
    unfold pseudoMoves in Hps. rewrite Hty in Hps.
    apply getPawnMoves_inv with (p := p) in Hps; [|exact Hp].
    pose proof (direction_unit (color p)) as Hdir.
    apply inb_iff in Hf as Hf', Hto as Hto'.
    destruct Hps as [-> _ _|Hstart E _ _ Hmid|off t _ -> _ _ _|t _ _ Hrow ->];
      simpl in Habs; try lia.
    destruct Heff as [_ Hcells|rt kd rf rk Hk _ _ _ _ _ _ _ _ _ _];
      [|congruence].
    rewrite E in *. simpl in *.
    replace (row from + (row from + 2 * direction (color p)))
      with ((row from + direction (color p)) * 2) by lia.
    rewrite Z.div_mul by lia. rewrite Hpl, <- Hc, direction_opponent.
    rewrite opponent_involutive.
    split.
    { rewrite Hstart. destruct (color p); reflexivity. }
    split; [apply inb_iff; simpl; lia|].
    split; [unfold at_sq; simpl; rewrite Hcells; simp_eqb; exact Hmid|].
    split.
    { rewrite Hcells.
      replace (row from + direction (color p) + - direction (color p))
        with (row from) by lia.
      simp_eqb. reflexivity. }
    rewrite Hcells.
    replace (row from + direction (color p) - - direction (color p))
      with (row from + 2 * direction (color p)) by lia.
    simp_eqb. f_equal.
    unfold placedPiece. rewrite Hty. simpl.
    replace ((row from + 2 * direction (color p) =? 0)
             || (row from + 2 * direction (color p) =? 7)) with false.
    + unfold withMoved. now rewrite Hty.
    + symmetry. apply orb_false_iff. rewrite !Z.eqb_neq.
      rewrite Hstart. destruct (color p); simpl; lia.
Qed.

Lemma reachable_enPassantTarget_shape_witness :
  row (alg 3 6) =
    (match currentPlayer (stateAfter gameEnPassant) with
     | white => 2 | black => 5 end)
  /\ inb (alg 3 6)
  /\ at_sq (board (stateAfter gameEnPassant)) (alg 3 6) = None
  /\ cell (board (stateAfter gameEnPassant))
       (row (alg 3 6) + direction (currentPlayer (stateAfter gameEnPassant)))
       (col (alg 3 6)) = None
  /\ cell (board (stateAfter gameEnPassant))
       (row (alg 3 6) - direction (currentPlayer (stateAfter gameEnPassant)))
       (col (alg 3 6))
     = Some (mkPiece pawn
               (opponent (currentPlayer (stateAfter gameEnPassant))) true).
Proof.
  apply (reachable_enPassantTarget_shape (stateAfter gameEnPassant) (alg 3 6)).
  - apply stateAfter_reachable. vm_compute. discriminate.
  - vm_compute. reflexivity.
Defined.

(** A move that [makeMove] flags as en passant takes no piece off the
    board: its destination was empty, and every square other than the
    origin and the destination is as before. *)
Theorem enPassant_removes_no_piece (s : GameState) (from to : ChessSquare)
    (s' : GameState) :
  reachable s ->
  isValidMoveAttempt (board s) from to (currentPlayer s)
    (enPassantTarget s) (moveHistory s) = true ->
  makeMove s from to = Some s' ->
  forall m, last (moveHistory s') = Some m -> enPassant m = true ->
    isCapture m = true
    /\ at_sq (board s) to = None
    /\ forall q, q <> from -> q <> to ->
                 at_sq (board s') q = at_sq (board s) q.
Proof.
  intros Hr Hok Hmv m Hlast Hen.
  pose proof (reachable_Inv s Hr) as HI.
  destruct (accepted_step s from to s' HI Hok Hmv)
    as [p [Hp Hc Hf Hto Hps _ Heff _ _]].
  destruct HI as [_ Hep _ _ _].
  apply makeMove_fields in Hmv
    as (p1 & nb & Hp1 & _ & _ & _ & _ & _ & m1 & Hh & _ & _ & Hen1 & Hic & _).
  assert (p1 = p) as -> by congruence.
  rewrite Hh, last_snoc in Hlast. injection Hlast as ->.
  rewrite Hen in Hic. rewrite Hen1 in Hen.
  apply andb_true_iff in Hen as [Hty Ht].
  apply PieceType_eqb_eq in Hty.
  destruct (enPassantTarget s) as [t|]; [|discriminate].
  apply andb_true_iff in Ht as [E1 E2]. apply Z.eqb_eq in E1, E2.
  destruct Hep as (_ & Hempty & _).
  split; [rewrite Hic; apply orb_true_r|].
  split; [unfold at_sq in *; now rewrite E1, E2|].
  intros q N1 N2.
  destruct Heff as [_ Hcells|rt kd rf rk Hk _ _ _ _ _ _ _ _ _ _];
    [|congruence].
  destruct (plain_cell_cases _ _ _ _ _ Hcells q)
    as [(A & B & _)|[(_ & A & B & _)|(_ & _ & E)]].
  - exfalso. apply N1. now apply sq_ext.
  - exfalso. apply N2. now apply sq_ext.
  - exact E.
Qed.

Lemma enPassant_removes_no_piece_witness :
  exists m,
    last (moveHistory (stateAfter (gameBackward ++ [(alg 1 7, alg 2 6)])))
      = Some m
    /\ enPassant m = true
    /\ isCapture m = true
    /\ at_sq (board (stateAfter gameBackward)) (alg 2 6) = None
    /\ forall q, q <> alg 1 7 -> q <> alg 2 6 ->
         at_sq (board (stateAfter (gameBackward ++ [(alg 1 7, alg 2 6)]))) q
         = at_sq (board (stateAfter gameBackward)) q.
Proof.
  eexists. split; [vm_compute; reflexivity|]. split; [reflexivity|].
  apply (enPassant_removes_no_piece (stateAfter gameBackward)
           (alg 1 7) (alg 2 6)).
  - apply stateAfter_reachable. vm_compute. discriminate.
  - vm_compute. reflexivity.
  - vm_compute. reflexivity.
  - vm_compute. reflexivity.
  - reflexivity.
Defined.

(** A castling in a reachable state starts from the king's home square
    (e1 for white, e8 for black) with the mover's own rook in the corner;
    afterwards the king stands two files nearer the rook, the rook on the
    square the king passed, both with [hasMoved] set, the e-file square
    and the corner are empty, and nothing else has changed. *)
Theorem castling_effect (s : GameState) (from to : ChessSquare)
    (s' : GameState) (p : ChessPiece) :
  reachable s ->
  isValidMoveAttempt (board s) from to (currentPlayer s)
    (enPassantTarget s) (moveHistory s) = true ->
  makeMove s from to = Some s' ->
  at_sq (board s) from = Some p -> type p = king ->
  Z.abs (col to - col from) = 2 ->
  from = mkSq (match currentPlayer s with white => 7 | black => 0 end) 4
  /\ exists rt rf,
       ((col to = 6 /\ rt = 5 /\ rf = 7) \/ (col to = 2 /\ rt = 3 /\ rf = 0))
       /\ row to = row from
       /\ cell (board s) (row from) rf
          = Some (mkPiece rook (currentPlayer s) false)
       /\ at_sq (board s') from = None
       /\ cell (board s') (row from) rf = None
       /\ at_sq (board s') to = Some (mkPiece king (currentPlayer s) true)
       /\ cell (board s') (row from) rt
          = Some (mkPiece rook (currentPlayer s) true)
       /\ forall q, row q <> row from \/
                    (col q <> 4 /\ col q <> rt /\ col q <> col to /\ col q <> rf) ->
                    at_sq (board s') q = at_sq (board s) q.
Proof.
  intros Hr Hok Hmv Hp Hk Habs.
  pose proof (reachable_Inv s Hr) as HI.
  destruct (accepted_step s from to s' HI Hok Hmv)
    as [p1 [Hp1 Hc Hf Hto _ _ Heff _ _]].
  assert (p1 = p) as -> by congruence.
  destruct Heff as [Hnc _|rt kd rf rk _ Hm Hc4 -> Hcols Hrk Htrk Hmrk _ _ Hcells].
  { rewrite Hk in Hnc. simpl in Hnc. apply Z.eqb_neq in Hnc. contradiction. }
  pose proof (unmoved_at_home_inv s Hr from p Hp Hm) as Hhome.
  pose proof (unmoved_at_home_inv s Hr (mkSq (row from) rf) rk Hrk Hmrk)
    as Hrhome.
  apply inb_iff in Hf as Hf'.
  assert (Hfrom : from = mkSq (match currentPlayer s with
                               | white => 7 | black => 0 end) 4
                  /\ rk = mkPiece rook (currentPlayer s) false
                  /\ p = mkPiece king (currentPlayer s) false).
  { destruct from as [r c]. simpl in *. subst c.
    assert (r = 0 \/ r = 1 \/ r = 2 \/ r = 3 \/ r = 4 \/ r = 5 \/ r = 6 \/ r = 7)
      as Hrow by lia.
    destruct Hcols as [(-> & -> & ->)|(-> & -> & ->)];
      destruct Hrow as [->|[->|[->|[->|[->|[->|[->| ->]]]]]]];
      vm_compute in Hhome, Hrhome;
      try discriminate Hhome;
      injection Hhome as <-; injection Hrhome as <-;
      try discriminate Hk;
      simpl in Hc; rewrite <- Hc; auto. }
  destruct Hfrom as (Efrom & -> & ->).
  split; [exact Efrom|].
  exists rt, rf.
  destruct (castle_columns _ _ _ Hcols) as (N1 & N2 & N3 & N4 & N5 & N6 & _).
  split; [simpl; lia|]. split; [reflexivity|]. split; [exact Hrk|].
  unfold at_sq. simpl. rewrite !Hcells. rewrite Hc4.
  split; [simp_eqb; reflexivity|].
  split; [simp_eqb; reflexivity|].
  split; [simp_eqb; reflexivity|].
  split; [simp_eqb; reflexivity|].
  intros q Hq. rewrite Hcells.
  destruct (Z.eq_dec (row q) (row from)); simp_eqb; reflexivity.
Qed.

Lemma castling_effect_witness :
  alg 4 1 = mkSq (match currentPlayer (stateAfter gameCastle) with
                  | white => 7 | black => 0 end) 4
  /\ exists rt rf,
       ((col (alg 6 1) = 6 /\ rt = 5 /\ rf = 7)
        \/ (col (alg 6 1) = 2 /\ rt = 3 /\ rf = 0))
       /\ row (alg 6 1) = row (alg 4 1)
       /\ cell (board (stateAfter gameCastle)) (row (alg 4 1)) rf
          = Some (mkPiece rook (currentPlayer (stateAfter gameCastle)) false)
       /\ at_sq (board (stateAfter (gameCastle ++ [(alg 4 1, alg 6 1)])))
            (alg 4 1) = None
       /\ cell (board (stateAfter (gameCastle ++ [(alg 4 1, alg 6 1)])))
            (row (alg 4 1)) rf = None
       /\ at_sq (board (stateAfter (gameCastle ++ [(alg 4 1, alg 6 1)])))
            (alg 6 1)
          = Some (mkPiece king (currentPlayer (stateAfter gameCastle)) true)
       /\ cell (board (stateAfter (gameCastle ++ [(alg 4 1, alg 6 1)])))
            (row (alg 4 1)) rt
          = Some (mkPiece rook (currentPlayer (stateAfter gameCastle)) true)
       /\ forall q, row q <> row (alg 4 1) \/
                    (col q <> 4 /\ col q <> rt /\ col q <> col (alg 6 1)
                     /\ col q <> rf) ->
            at_sq (board (stateAfter (gameCastle ++ [(alg 4 1, alg 6 1)]))) q
            = at_sq (board (stateAfter gameCastle)) q.
Proof.
  apply (castling_effect (stateAfter gameCastle) (alg 4 1) (alg 6 1)
           (stateAfter (gameCastle ++ [(alg 4 1, alg 6 1)]))
           (mkPiece king white false)).
  - apply stateAfter_reachable. vm_compute. discriminate.
  - vm_compute. reflexivity.
  - vm_compute. reflexivity.
  - vm_compute. reflexivity.
  - reflexivity.
  - reflexivity.
Defined.

(** ** Turn order and the move history *)

(** The record [makeMove] appends, field by field. *)
Lemma makeMove_record s from to s' :
  makeMove s from to = Some s' ->
  exists p m,
    at_sq (board s) from = Some p /\
    moveHistory s' = moveHistory s ++ [m] /\
    mfrom m = from /\ mto m = to /\ piece m = p /\
    isCheck m = isKingInCheck (board s') (currentPlayer s') /\
    isCheckmate m =
      (isCheck m && negb (hasValidMoves (board s') (currentPlayer s')
                            (enPassantTarget s') (moveHistory s))) /\
    gameStatus s' =
      (if isCheckmate m then checkmate
       else if negb (isCheck m)
               && negb (hasValidMoves (board s') (currentPlayer s')
                          (enPassantTarget s') (moveHistory s))
       then stalemate
       else if isCheck m then check else playing) /\
    promotion m =
      (if PieceType_eqb (type p) pawn && ((row to =? 0) || (row to =? 7))
       then Some queen else None).
Proof.
  unfold makeMove. intros H.
  destruct (at_sq (board s) from) as [p|] eqn:Hp; [|discriminate].
  destruct (moveBoard (board s) (enPassantTarget s) from to) as [nb|] eqn:Hnb;
    [|discriminate].
  injection H as <-. exists p. eexists. simpl.
  split; [reflexivity|]. split; [reflexivity|]. simpl.
  split; [reflexivity|]. split; [reflexivity|]. split; [reflexivity|].
  split; [reflexivity|]. split; [reflexivity|]. split; reflexivity.
Qed.

Lemma turn_parity_inv (s : GameState) :
  reachable s ->
  currentPlayer s = (if Nat.even (length (moveHistory s)) then white else black)
  /\ forall i m, moveHistory s !! i = Some m ->
       color (piece m) = (if Nat.even i then white else black).
Proof.
  intros Hr. pattern s. revert s Hr. apply reachable_step_ind.
  - split; [reflexivity|]. intros i m H. destruct i; discriminate.
  - intros s from to s' p Hr [IHp IHh] _ Hmv [Hp Hc _ _ _ _ _ _ Hpl].
    apply makeMove_record in Hmv as (p1 & m & Hp1 & Hh & _ & _ & Hpm & _).
    assert (p1 = p) as -> by congruence.
    split.
    + rewrite Hpl, IHp, Hh, length_app. simpl.
      rewrite Nat.add_1_r, Nat.even_succ, <- Nat.negb_even.
      now destruct (Nat.even (length (moveHistory s))).
    + intros i m' Hi. rewrite Hh in Hi.
      apply lookup_app_Some in Hi as [Hi|[Hge Hi]]; [now apply IHh|].
      destruct (i - length (moveHistory s))%nat as [|k] eqn:Ek;
        [|destruct k; discriminate].
      injection Hi as <-.
      assert (i = length (moveHistory s)) as -> by lia.
      now rewrite Hpm, Hc, IHp.
Qed.

(** White moves on even history lengths, black on odd ones, and the
    [i]-th record of the history is a move of a white piece exactly when
    [i] is even. *)
Theorem reachable_turn_parity (s : GameState) :
  reachable s ->
  currentPlayer s = (if Nat.even (length (moveHistory s)) then white else black)
  /\ forall i m, moveHistory s !! i = Some m ->
       color (piece m) = (if Nat.even i then white else black).
Proof. exact (turn_parity_inv s). Qed.

Lemma reachable_turn_parity_witness :
  currentPlayer (stateAfter gameFoolsMate) =
    (if Nat.even (length (moveHistory (stateAfter gameFoolsMate)))
     then white else black)
  /\ forall i m, moveHistory (stateAfter gameFoolsMate) !! i = Some m ->
       color (piece m) = (if Nat.even i then white else black).
Proof.
  apply (reachable_turn_parity (stateAfter gameFoolsMate)).
  apply stateAfter_reachable. vm_compute. discriminate.
Defined.

(** ** The stored status *)

Lemma hasValidMoves_history b c ep h1 h2 :
  hasValidMoves b c ep h1 = hasValidMoves b c ep h2.
Proof.
  unfold hasValidMoves. f_equal.
Qed.

(** The status stored in a reachable state is the one its own position
    gives. *)
Lemma reachable_status s :
  reachable s ->
  gameStatus s =
    (if isKingInCheck (board s) (currentPlayer s) then
       if hasValidMoves (board s) (currentPlayer s) (enPassantTarget s)
            (moveHistory s)
       then check else checkmate
     else
       if hasValidMoves (board s) (currentPlayer s) (enPassantTarget s)
            (moveHistory s)
       then playing else stalemate).
Proof.
  intros Hr. destruct Hr as [|s from to s' Hr Hok Hmv].
  - vm_compute. reflexivity.
  - apply makeMove_fields in Hmv
      as (p & nb & _ & _ & Hbd & Hpl & _ & Hst & m & Hh & _).
    rewrite Hbd, Hpl.
    rewrite (hasValidMoves_history nb (opponent (currentPlayer s))
               (enPassantTarget s') (moveHistory s') (moveHistory s)).
    exact Hst.
Qed.

(** No reachable state has the status [draw]. *)
Theorem reachable_never_draw (s : GameState) :
  reachable s -> gameStatus s <> draw.
Proof.
  intros Hr. rewrite (reachable_status s Hr).
  destruct (isKingInCheck _ _); destruct (hasValidMoves _ _ _ _); discriminate.
Qed.

Lemma reachable_never_draw_witness :
  gameStatus (stateAfter gameFoolsMate) <> draw.
Proof.
  apply (reachable_never_draw (stateAfter gameFoolsMate)).
  apply stateAfter_reachable. vm_compute. discriminate.
Defined.




(** On checkmate [getStatusInfo] names as winner the colour of the piece
    that made the last move, and that move is recorded as checkmate. *)
Theorem checkmate_winner_is_last_mover (s : GameState) :
  reachable s -> gameStatus s = checkmate ->
  exists m,
    last (moveHistory s) = Some m
    /\ isCheckmate m = true
    /\ text (getStatusInfo (gameStatus s) (currentPlayer s))
       = (playerName (color (piece m)) ++ " Wins!")%string.
Proof.
  intros Hr Hst. destruct Hr as [|s0 from to s Hr Hok Hmv];
    [discriminate|].
  destruct (accepted_step s0 from to s (reachable_Inv s0 Hr) Hok Hmv)
    as [p [Hp Hc _ _ _ _ _ _ Hpl]].
  apply makeMove_record in Hmv
    as (p1 & m & Hp1 & Hh & _ & _ & Hpm & _ & _ & Hstat & _).
  assert (p1 = p) as -> by congruence.
  exists m. rewrite Hh, last_snoc. split; [reflexivity|].
  rewrite Hst in Hstat.
  destruct (isCheckmate m) eqn:Hcm.
  - split; [reflexivity|]. rewrite Hst, Hpm, Hc, Hpl.
    now destruct (currentPlayer s0).
  - exfalso. destruct (negb (isCheck m) && _); [discriminate|].
    destruct (isCheck m); discriminate.
Qed.

Lemma checkmate_winner_is_last_mover_witness :
  exists m,
    last (moveHistory (stateAfter gameFoolsMate)) = Some m
    /\ isCheckmate m = true
    /\ text (getStatusInfo (gameStatus (stateAfter gameFoolsMate))
               (currentPlayer (stateAfter gameFoolsMate)))
       = (playerName (color (piece m)) ++ " Wins!")%string.
Proof.
  apply (checkmate_winner_is_last_mover (stateAfter gameFoolsMate)).
  - apply stateAfter_reachable. vm_compute. discriminate.
  - vm_compute. reflexivity.
Defined.

(** ** Material accounting *)

Lemma filter_length_ext_in {A} (f g : A -> bool) (l : list A) :
  (forall x, In x l -> f x = g x) ->
  length (List.filter f l) = length (List.filter g l).
Proof.
  induction l as [|x l IH]; intros H; simpl; [reflexivity|].
  rewrite <- (H x (or_introl eq_refl)).
  destruct (f x); simpl; rewrite IH; auto; intros y Hy; apply H; now right.
Qed.

Lemma count_change {A} (key : A -> Z) (l : list A) (f g : A -> bool) (q0 : A) :
  StronglySorted (fun x y => key x < key y) l ->
  In q0 l ->
  (forall q, In q l -> key q <> key q0 -> f q = g q) ->
  (length (List.filter g l) + Nat.b2n (f q0)
   = length (List.filter f l) + Nat.b2n (g q0))%nat.
Proof.
  induction 1 as [|x l Hs IH Hx]; intros Hin Hext; [contradiction|].
  rewrite List.Forall_forall in Hx. simpl.
  destruct Hin as [->|Hin].
  - assert (E : length (List.filter f l) = length (List.filter g l)).
    { apply filter_length_ext_in. intros y Hy. apply Hext; [now right|].
      specialize (Hx y Hy). lia. }
    destruct (f q0), (g q0); simpl; lia.
  - assert (Efg : f x = g x).
    { apply Hext; [now left|]. specialize (Hx q0 Hin). lia. }
    specialize (IH Hin (fun q Hq => Hext q (or_intror Hq))).
    rewrite Efg. destruct (g x); simpl; lia.
Qed.

(** Two boards that differ on one square: the counts differ by what
    stands on that square. *)
Lemma countPieces_change b b' q0 c :
  inb q0 ->
  (forall q, inb q -> q <> q0 -> at_sq b' q = at_sq b q) ->
  (countPieces b' c + Nat.b2n (isColor c (at_sq b q0))
   = countPieces b c + Nat.b2n (isColor c (at_sq b' q0)))%nat.
Proof.
  intros Hq0 Hsame. unfold countPieces.
  apply (count_change rowMajor allSquares
           (fun q => isColor c (at_sq b q))
           (fun q => isColor c (at_sq b' q)) q0 allSquares_sorted).
  - now apply In_allSquares.
  - intros q Hq Hne. rewrite Hsame; [reflexivity|now apply In_allSquares|].
    intros ->. now apply Hne.
Qed.

Lemma countPieces_setCell b r c0 v c :
  wfBoard b -> 0 <= r < 8 -> 0 <= c0 < 8 ->
  (countPieces (setCell b r c0 v) c + Nat.b2n (isColor c (cell b r c0))
   = countPieces b c + Nat.b2n (isColor c v))%nat.
Proof.
  intros Hwf Hr Hc.
  pose proof (countPieces_change b (setCell b r c0 v) (mkSq r c0) c) as H.
  unfold at_sq in H. simpl in H.
  rewrite cell_setCell_same in H by assumption.
  apply H; [apply inb_iff; simpl; lia|].
  intros q _ Hne. apply cell_setCell_other.
  destruct (Z.eq_dec r (row q)); [|now left].
  destruct (Z.eq_dec c0 (col q)); [|now right].
  exfalso. apply Hne. now apply sq_ext.
Qed.

Lemma capturedOf_snoc c h m :
  capturedOf c (h ++ [m]) =
  capturedOf c h ++
  match capturedPiece m with
  | Some t => if PieceColor_eqb (color t) c then [t] else []
  | None => []
  end.
Proof.
  unfold capturedOf, capturedPieces. rewrite flat_map_app. simpl.
  rewrite app_nil_r.
  destruct c; simpl; rewrite List.filter_app; f_equal;
    destruct (capturedPiece m) as [t|]; reflexivity.
Qed.

Lemma isColor_Some c p : isColor c (Some p) = PieceColor_eqb (color p) c.
Proof. reflexivity. Qed.

(** The board count of one colour after an accepted move: the piece on
    the destination, if any, is the only one that leaves. *)
Lemma accepted_step_count s from to s' p c :
  wfBoard (board s) ->
  AcceptedStep s from to s' p ->
  (countPieces (board s') c + Nat.b2n (isColor c (at_sq (board s) to))
   = countPieces (board s) c)%nat.
Proof.
  intros Hwf [Hp Hc Hf Hto _ Hdest Heff _ _].
  apply inb_iff in Hf as Hf', Hto as Hto'.
  destruct Heff as [_ Hcells
                   |rt kd rf rk Hk _ Hc4 Eto Hcols Hrk _ _ Hert Hekd Hcells].
  - (* origin and destination *)
    assert (Hne : to <> from).
    { intros ->. destruct Hdest as [E|(t & E & Hcol & _)]; [congruence|].
      assert (t = p) by congruence. subst t.
      apply (opponent_neq (currentPlayer s)). congruence. }
    set (b1 := setCell (board s) (row to) (col to) (Some (placedPiece p to))).
    assert (Hwf1 : wfBoard b1) by now apply wfBoard_setCell.
    pose proof (countPieces_setCell (board s) (row to) (col to)
                  (Some (placedPiece p to)) c Hwf (proj1 Hto') (proj2 Hto'))
      as H1. fold b1 in H1.
    pose proof (countPieces_change b1 (board s') from c Hf) as H2.
    assert (Hb1from : at_sq b1 from = Some p).
    { unfold at_sq, b1. rewrite cell_setCell_other; [exact Hp|].
      destruct (Z.eq_dec (row to) (row from)); [|now left].
      destruct (Z.eq_dec (col to) (col from)); [|now right].
      exfalso. apply Hne. now apply sq_ext. }
    assert (Hs'from : at_sq (board s') from = None).
    { unfold at_sq. rewrite Hcells. now rewrite !Z.eqb_refl. }
    rewrite Hb1from, Hs'from in H2.
    assert (H2' : (countPieces (board s') c + Nat.b2n (isColor c (Some p))
                   = countPieces b1 c + Nat.b2n (isColor c None))%nat).
    { apply H2. intros q _ Hq. unfold at_sq, b1.
      rewrite Hcells, cell_setCell by (auto; lia).
      destruct ((row from =? row q) && (col from =? col q)) eqn:E;
        [|reflexivity].
      exfalso. apply Hq. apply andb_true_iff in E as [E1 E2].
      apply Z.eqb_eq in E1, E2. now apply sq_ext. }
    fold (at_sq (board s) to) in H1.
    rewrite !isColor_Some, placedPiece_color in *. simpl in H2'. lia.
  - (* castling *)
    destruct (castle_columns _ _ _ Hcols)
      as (N1 & N2 & N3 & N4 & N5 & N6 & Rrt & Rkd & Rrf).
    set (r := row from) in *.
    set (b1 := setCell (board s) r rt (Some (withMoved rk))).
    set (b2 := setCell b1 r kd (Some (withMoved p))).
    set (b3 := setCell b2 r rf None).
    assert (Hwf1 : wfBoard b1) by now apply wfBoard_setCell.
    assert (Hwf2 : wfBoard b2) by now apply wfBoard_setCell.
    assert (Hwf3 : wfBoard b3) by now apply wfBoard_setCell.
    pose proof (countPieces_setCell (board s) r rt (Some (withMoved rk)) c
                  Hwf (proj1 Hf') Rrt) as H1. fold b1 in H1.
    pose proof (countPieces_setCell b1 r kd (Some (withMoved p)) c
                  Hwf1 (proj1 Hf') Rkd) as H2. fold b2 in H2.
    pose proof (countPieces_setCell b2 r rf None c
                  Hwf2 (proj1 Hf') Rrf) as H3. fold b3 in H3.
    assert (C1 : cell b1 r kd = None).
    { unfold b1. rewrite cell_setCell_other; [exact Hekd|now right]. }
    assert (C2 : cell b2 r rf = Some rk).
    { unfold b2, b1. rewrite !cell_setCell_other; auto. }
    assert (C3 : at_sq b3 from = Some p).
    { unfold at_sq, b3, b2, b1. fold r. rewrite Hc4.
      rewrite !cell_setCell_other; auto.
      unfold at_sq in Hp. fold r in Hp. now rewrite Hc4 in Hp. }
    pose proof (countPieces_change b3 (board s') from c Hf) as H4.
    assert (Hs'from : at_sq (board s') from = None).
    { unfold at_sq. rewrite Hcells. fold r. rewrite Hc4. now simp_eqb. }
    rewrite C3, Hs'from in H4.
    assert (H4' : (countPieces (board s') c + Nat.b2n (isColor c (Some p))
                   = countPieces b3 c + Nat.b2n (isColor c None))%nat).
    { apply H4. intros q _ Hq. unfold at_sq, b3, b2, b1.
      rewrite Hcells. fold r.
      rewrite !cell_setCell by (repeat apply wfBoard_setCell; auto; lia).
      destruct (Z.eq_dec (row q) r) as [Er|Er].
      - destruct (Z.eq_dec (col q) 4) as [E4|E4].
        { exfalso. apply Hq. apply sq_ext; [exact Er|lia]. }
        destruct (Z.eq_dec (col q) rt); [simp_eqb; reflexivity|].
        destruct (Z.eq_dec (col q) kd); [simp_eqb; reflexivity|].
        destruct (Z.eq_dec (col q) rf); [simp_eqb; reflexivity|].
        simp_eqb. reflexivity.
      - simp_eqb. reflexivity. }
    rewrite Hert in H1. rewrite C1 in H2. rewrite C2 in H3.
    assert (Edest : at_sq (board s) to = None).
    { rewrite Eto. unfold at_sq. simpl. exact Hekd. }
    rewrite Edest. rewrite !isColor_Some in *. simpl in *. lia.
Qed.

(** For each colour, the pieces on the board and the pieces in the
    captured tally together number 16 in every reachable state. *)
Theorem reachable_material_accounted (s : GameState) (c : PieceColor) :
  reachable s ->
  (countPieces (board s) c + length (capturedOf c (moveHistory s)) = 16)%nat.
Proof.
  intros Hr. revert c. pattern s. revert s Hr. apply reachable_step_ind.
  - intros c. destruct c; vm_compute; reflexivity.
  - intros s from to s' p Hr IH _ Hmv Hstep c.
    pose proof (accepted_step_count s from to s' p c
                  (inv_wf s (reachable_Inv s Hr)) Hstep) as Hcount.
    apply makeMove_fields in Hmv
      as (p1 & nb & _ & _ & _ & _ & _ & _ & m & Hh & _ & Hcap & _).
    rewrite Hh, capturedOf_snoc, length_app, Hcap.
    specialize (IH c).
    destruct (at_sq (board s) to) as [t|]; simpl in *.
    + destruct (PieceColor_eqb (color t) c); simpl in *; lia.
    + lia.
Qed.

Lemma reachable_material_accounted_witness :
  (countPieces (board (stateAfter gameBackward)) black
   + length (capturedOf black (moveHistory (stateAfter gameBackward))) = 16)%nat.
Proof.
  apply (reachable_material_accounted (stateAfter gameBackward) black).
  apply stateAfter_reachable. vm_compute. discriminate.
Defined.

Lemma PIECE_VALUES_pos t : t <> king -> 1 <= PIECE_VALUES t.
Proof. destruct t; simpl; intros H; try lia. congruence. Qed.

Lemma materialValue_acc l : forall a,
  fold_left (fun total p => total + PIECE_VALUES (type p)) l a
  = a + materialValue l.
Proof.
  unfold materialValue.
  induction l as [|p l IH]; intros a; simpl; [lia|].
  rewrite (IH (a + _)), (IH (0 + _)). lia.
Qed.

Lemma materialValue_cons p l :
  materialValue (p :: l) = PIECE_VALUES (type p) + materialValue l.
Proof. unfold materialValue at 1. simpl. apply materialValue_acc. Qed.

Lemma materialValue_lower l :
  Forall (fun t => type t <> king) l -> Z.of_nat (length l) <= materialValue l.
Proof.
  induction 1 as [|p l Hp _ IH]; [reflexivity|].
  rewrite materialValue_cons. apply PIECE_VALUES_pos in Hp.
  simpl length. lia.
Qed.

Lemma captured_no_king_inv s :
  reachable s ->
  forall c, Forall (fun t => type t <> king) (capturedOf c (moveHistory s)).
Proof.
  intros Hr. pattern s. revert s Hr. apply reachable_step_ind.
  - intros c. destruct c; constructor.
  - intros s from to s' p Hr IH _ Hmv [_ _ _ _ _ Hdest _ _ _] c.
    apply makeMove_fields in Hmv
      as (p1 & nb & _ & _ & _ & _ & _ & _ & m & Hh & _ & Hcap & _).
    rewrite Hh, capturedOf_snoc, Hcap. apply Forall_app. split; [apply IH|].
    destruct Hdest as [->|(t & -> & _ & Hk)]; [constructor|].
    destruct (PieceColor_eqb (color t) c); repeat constructor. exact Hk.
Qed.

(** No king ever enters the captured tally of a reachable game. *)
Theorem reachable_no_king_captured (s : GameState) (c : PieceColor) :
  reachable s ->
  forall t, In t (capturedOf c (moveHistory s)) -> type t <> king.
Proof.
  intros Hr t Ht. pose proof (captured_no_king_inv s Hr c) as H.
  rewrite Forall_forall in H. apply H. now apply list_elem_of_In.
Qed.

Lemma reachable_no_king_captured_witness :
  type (mkPiece pawn black false) <> king.
Proof.
  apply (reachable_no_king_captured (stateAfter gameBackward) black
           ltac:(apply stateAfter_reachable; vm_compute; discriminate)).
  vm_compute. left. reflexivity.
Defined.

(** [PlayerInfo] shows the material line ([materialValue > 0]) exactly
    when the tally it is given is not empty: the pieces of a reachable
    tally all have a positive value. *)
Theorem material_shown_iff_captures (s : GameState) (c : PieceColor) :
  reachable s ->
  (0 < materialValue (capturedOf c (moveHistory s))
   <-> capturedOf c (moveHistory s) <> []).
Proof.
  intros Hr. pose proof (captured_no_king_inv s Hr c) as H.
  apply materialValue_lower in H.
  destruct (capturedOf c (moveHistory s)) as [|t l].
  - split; [intros H0; vm_compute in H0; discriminate|congruence].
  - split; [discriminate|]. intros _. simpl length in H. lia.
Qed.

Lemma material_shown_iff_captures_witness :
  0 < materialValue (capturedOf black (moveHistory (stateAfter gameBackward)))
  <-> capturedOf black (moveHistory (stateAfter gameBackward)) <> [].
Proof.
  apply (material_shown_iff_captures (stateAfter gameBackward) black).
  apply stateAfter_reachable. vm_compute. discriminate.
Defined.

(** ** Notation of recorded moves *)

Lemma append_assoc (a b c : string) :
  ((a ++ b) ++ c = a ++ (b ++ c))%string.
Proof. induction a as [|x a IH]; simpl; [reflexivity|now rewrite IH]. Qed.

Lemma includes_app (a s pat : string) :
  includes s pat = true -> includes (a ++ s) pat = true.
Proof.
  intros H. induction a as [|x a IH]; simpl; [exact H|].
  rewrite IH. apply orb_true_r.
Qed.

Lemma includes_x (r : string) : includes ("x" ++ r) "x" = true.
Proof.
  simpl. apply orb_true_iff. left. apply String.prefix_correct.
  simpl. now destruct r.
Qed.

Lemma notation_capture_has_x p from to chk mate promo :
  includes (generateAlgebraicNotation p from to true chk mate None promo) "x"
  = true.
Proof.
  unfold generateAlgebraicNotation. rewrite andb_true_r.
  destruct (PieceType_eqb (type p) pawn); apply includes_app, includes_x.
Qed.

Lemma capture_mark_inv s :
  reachable s -> Forall (fun m => showsCaptureMark m = false) (moveHistory s).
Proof.
  intros Hr. pattern s. revert s Hr. apply reachable_step_ind.
  - constructor.
  - intros s from to s' p Hr IH _ Hmv [Hp _ _ _ _ _ Heff _ _].
    apply makeMove_fields in Hmv
      as (p1 & nb & Hp1 & _ & _ & _ & _ & _ & m & Hh & _ & Hcap & Hen & Hic
          & Hcas & Hnot).
    assert (p1 = p) as -> by congruence.
    rewrite Hh. apply Forall_app. split; [exact IH|].
    repeat constructor. unfold showsCaptureMark.
    destruct (isCapture m) eqn:Hcapt; [|reflexivity].
    simpl. apply negb_false_iff.
    destruct Heff as [Hnc _|rt kd rf rk Hk _ _ Eto _ _ _ _ _ Hekd _].
    + rewrite Hnc in Hcas. rewrite Hnot, Hcas.
      apply notation_capture_has_x.
    + exfalso. rewrite Hen, Hk, Eto in Hic. unfold at_sq in Hic.
      simpl in Hic. rewrite Hekd in Hic. discriminate.
Qed.

(** Every capture recorded in a reachable game has an [x] in its
    notation, so the extra capture mark of [MoveItem]
    ([isCapture && !notation.includes('x')]) is never shown. *)
Theorem reachable_capture_mark_never_shown (s : GameState) :
  reachable s ->
  forall m, In m (moveHistory s) -> showsCaptureMark m = false.
Proof.
  intros Hr m Hm. pose proof (capture_mark_inv s Hr) as H.
  rewrite Forall_forall in H. apply H. now apply list_elem_of_In.
Qed.

Lemma reachable_capture_mark_never_shown_witness :
  exists m, last (moveHistory (stateAfter gameBackward)) = Some m
            /\ showsCaptureMark m = false.
Proof.
  eexists. split; [vm_compute; reflexivity|].
  apply (reachable_capture_mark_never_shown (stateAfter gameBackward)
           ltac:(apply stateAfter_reachable; vm_compute; discriminate)).
  vm_compute. repeat (first [left; reflexivity|right]).
Defined.

(** The suffix of a notation agrees with the status: the record of a
    move that is not a castling is the notation of the bare move
    followed by [#] when the new status is checkmate, by [+] when it is
    check, and by nothing when it is playing or stalemate. *)
Theorem notation_suffix_matches_status (s : GameState)
    (from to : ChessSquare) (s' : GameState) :
  makeMove s from to = Some s' ->
  exists m, last (moveHistory s') = Some m /\
    (castling m = None ->
     notation m =
       (generateAlgebraicNotation (piece m) from to (isCapture m) false false
          None (promotion m)
        ++ match gameStatus s' with
           | checkmate => "#" | check => "+" | _ => ""
           end)%string).
Proof.
  intros Hmv. pose proof Hmv as Hmv2.
  apply makeMove_fields in Hmv
    as (p & nb & Hp & _ & _ & _ & _ & _ & m & Hh & Hpm & _ & _ & _ & _ & Hnot).
  apply makeMove_record in Hmv2
    as (p2 & m2 & _ & Hh2 & _ & _ & _ & _ & _ & Hst & _).
  assert (m2 = m) as ->.
  { rewrite Hh in Hh2. apply app_inj_tail in Hh2 as [_ E]. now symmetry. }
  exists m. rewrite Hh, last_snoc. split; [reflexivity|].
  intros Hcas. rewrite Hnot, Hcas, Hpm, Hst.
  unfold generateAlgebraicNotation.
  assert (E : (if isCheckmate m then "#" else if isCheck m then "+" else "")%string
              = match (if isCheckmate m then checkmate
                       else if negb (isCheck m) &&
                               negb (hasValidMoves (board s') (currentPlayer s')
                                       (enPassantTarget s') (moveHistory s))
                            then stalemate
                            else if isCheck m then check else playing) with
                | checkmate => "#" | check => "+" | _ => ""
                end%string).
  { destruct (isCheckmate m); [reflexivity|].
    destruct (isCheck m); simpl; [reflexivity|].
    destruct (hasValidMoves _ _ _ _); reflexivity. }
  rewrite <- E.
  destruct (PieceType_eqb (type p) pawn && isCapture m);
    rewrite !append_assoc; reflexivity.
Qed.

Lemma notation_suffix_matches_status_witness :
  exists m,
    last (moveHistory (stateAfter gameFoolsMate)) = Some m /\
    (castling m = None ->
     notation m =
       (generateAlgebraicNotation (piece m) (alg 3 8) (alg 7 4) (isCapture m)
          false false None (promotion m)
        ++ match gameStatus (stateAfter gameFoolsMate) with
           | checkmate => "#" | check => "+" | _ => ""
           end)%string).
Proof.
  apply (notation_suffix_matches_status
           (stateAfter [(alg 5 2, alg 5 3); (alg 4 7, alg 4 5); (alg 6 2, alg 6 4)])
           (alg 3 8) (alg 7 4)).
  vm_compute. reflexivity.
Defined.

(** Distinct squares of the board have distinct names. *)
Theorem squareName_injective (a b : ChessSquare) :
  inb a -> inb b -> squareName a = squareName b -> a = b.
Proof.
  intros Ha Hb H. apply inb_iff in Ha, Hb.
  destruct a as [ra ca], b as [rb cb]. simpl in *.
  unfold squareName, fromCharCode in H. simpl in H.
  injection H as Hc Hr.
  assert (Ecol : ca = cb).
  { assert (ca = 0 \/ ca = 1 \/ ca = 2 \/ ca = 3 \/ ca = 4 \/ ca = 5
            \/ ca = 6 \/ ca = 7) as Hca by lia.
    assert (cb = 0 \/ cb = 1 \/ cb = 2 \/ cb = 3 \/ cb = 4 \/ cb = 5
            \/ cb = 6 \/ cb = 7) as Hcb by lia.
    destruct Hca as [->|[->|[->|[->|[->|[->|[->| ->]]]]]]];
      destruct Hcb as [->|[->|[->|[->|[->|[->|[->| ->]]]]]]];
      first [reflexivity | vm_compute in Hc; discriminate Hc]. }
  assert (Erow : ra = rb).
  { assert (ra = 0 \/ ra = 1 \/ ra = 2 \/ ra = 3 \/ ra = 4 \/ ra = 5
            \/ ra = 6 \/ ra = 7) as Hra by lia.
    assert (rb = 0 \/ rb = 1 \/ rb = 2 \/ rb = 3 \/ rb = 4 \/ rb = 5
            \/ rb = 6 \/ rb = 7) as Hrb by lia.
    destruct Hra as [->|[->|[->|[->|[->|[->|[->| ->]]]]]]];
      destruct Hrb as [->|[->|[->|[->|[->|[->|[->| ->]]]]]]];
      first [reflexivity | vm_compute in Hr; discriminate Hr]. }
  now subst.
Qed.

Lemma squareName_injective_witness : alg 4 4 = alg 4 4.
Proof.
  apply (squareName_injective (alg 4 4) (alg 4 4)); reflexivity.
Defined.

(** ** Castling is only offered under its conditions *)

(** On any board, a legal king move over two files is a castling: the
    king is on the e-file and has not moved, it is not in check, the
    corner on the side of the move holds a rook that has not moved, the
    squares between king and rook are empty, and neither the square the
    king crosses nor the one it lands on is attacked. *)
Theorem castling_requirements (b : Board) (from to : ChessSquare)
    (c : PieceColor) (ep : option ChessSquare) (h : list ChessMove)
    (p : ChessPiece) :
  wfBoard b -> at_sq b from = Some p -> type p = king ->
  In to (getValidMoves b from c ep h) ->
  Z.abs (col to - col from) = 2 ->
  color p = c /\ hasMoved p = false /\ col from = 4 /\ row to = row from
  /\ isKingInCheck b c = false
  /\ exists rf rk,
       ((col to = 6 /\ rf = 7) \/ (col to = 2 /\ rf = 0))
       /\ cell b (row from) rf = Some rk /\ type rk = rook
       /\ hasMoved rk = false
       /\ (forall j, Z.min 4 rf < j < Z.max 4 rf -> cell b (row from) j = None)
       /\ (forall j, Z.min 4 (col to) <= j <= Z.max 4 (col to) -> j <> 4 ->
             isSquareUnderAttack b (mkSq (row from) j) (opponent c) = false).
Proof.
  intros Hwf Hp Hk Hin Habs.
  apply getValidMoves_inv in Hin as (p1 & Hp1 & Hc & Hps & _).
  assert (p1 = p) as -> by congruence.
  assert (Hf : 0 <= row from < 8 /\ 0 <= col from < 8)
    by apply (cell_Some_inb b _ _ p Hwf Hp).
  unfold pseudoMoves in Hps. rewrite Hk in Hps.
  apply getKingMoves_inv with (p := p) in Hps; [|exact Hp].
  destruct Hps as [H|Hm Hchk Hr H5 H6 A5 A6 E|Hm Hchk Hr H1 H2 H3 A2 A3 E].
  - apply offsetMoves_inv with (p := p) in H as (d & Hd & -> & _ & _);
      [|exact Hp].
    apply kingOffsets_col in Hd. simpl in Habs. lia.
  - rewrite E in *. simpl in *.
    apply isUnmovedRook_unmoved in Hr as (rk & Hrk & Htrk & Hmrk).
    rewrite Hc in *.
    split; [reflexivity|]. split; [exact Hm|]. split; [lia|].
    split; [reflexivity|]. split; [exact Hchk|].
    exists 7, rk. split; [left; auto|]. split; [exact Hrk|].
    split; [exact Htrk|]. split; [exact Hmrk|]. split.
    + intros j Hj. assert (j = 5 \/ j = 6) as [->| ->] by lia; assumption.
    + intros j Hj Hj4. assert (j = 5 \/ j = 6) as [->| ->] by lia; assumption.
  - rewrite E in *. simpl in *.
    assert (col from = 4 \/ col from = 0) as [Hc4|Hc0] by lia.
    + apply isUnmovedRook_unmoved in Hr as (rk & Hrk & Htrk & Hmrk).
      rewrite Hc in *.
      split; [reflexivity|]. split; [exact Hm|]. split; [exact Hc4|].
      split; [reflexivity|]. split; [exact Hchk|].
      exists 0, rk. split; [right; auto|]. split; [exact Hrk|].
      split; [exact Htrk|]. split; [exact Hmrk|]. split.
      * intros j Hj.
        assert (j = 1 \/ j = 2 \/ j = 3) as [->|[->| ->]] by lia; assumption.
      * intros j Hj Hj4.
        assert (j = 2 \/ j = 3) as [->| ->] by lia; assumption.
    + exfalso. unfold at_sq in Hp. rewrite Hc0 in Hp. rewrite Hp in Hr.
      simpl in Hr. rewrite Hk in Hr. discriminate.
Qed.

Lemma castling_requirements_witness :
  color (mkPiece king white false) = white
  /\ hasMoved (mkPiece king white false) = false
  /\ col (alg 4 1) = 4 /\ row (alg 6 1) = row (alg 4 1)
  /\ isKingInCheck (board (stateAfter gameCastle)) white = false
  /\ exists rf rk,
       ((col (alg 6 1) = 6 /\ rf = 7) \/ (col (alg 6 1) = 2 /\ rf = 0))
       /\ cell (board (stateAfter gameCastle)) (row (alg 4 1)) rf = Some rk
       /\ type rk = rook /\ hasMoved rk = false
       /\ (forall j, Z.min 4 rf < j < Z.max 4 rf ->
             cell (board (stateAfter gameCastle)) (row (alg 4 1)) j = None)
       /\ (forall j, Z.min 4 (col (alg 6 1)) <= j <= Z.max 4 (col (alg 6 1)) ->
             j <> 4 ->
             isSquareUnderAttack (board (stateAfter gameCastle))
               (mkSq (row (alg 4 1)) j) (opponent white) = false).
Proof.
  apply (castling_requirements (board (stateAfter gameCastle))
           (alg 4 1) (alg 6 1) white None [] (mkPiece king white false)).
  - apply (inv_wf (stateAfter gameCastle)). apply reachable_Inv.
    apply stateAfter_reachable. vm_compute. discriminate.
  - vm_compute. reflexivity.
  - reflexivity.
  - apply (proj1 (existsb_sq_In (alg 6 1) _)). vm_compute. reflexivity.
  - reflexivity.
Defined.

(** ** The interface state *)

Lemma engine_inv e :
  reachableE e ->
  reachable (game e) /\
  forall sq, selectedSquare e = Some sq ->
             inb sq /\ ownPiece (game e) sq = true.
Proof.
  induction 1 as [|e sq e' He IH Hsq Hclick|e from to e' He IH Hf Ht Hdrop
                 |e He IH].
  - split; [exact reach_init|]. intros sq H. discriminate.
  - destruct IH as [Hr Hsel]. unfold handleSquareClick in Hclick.
    destruct (selectedSquare e) as [sel|] eqn:Esel.
    + destruct (isValidMoveAttempt _ sel sq _ _ _) eqn:Hok.
      * destruct (makeMove (game e) sel sq) as [g'|] eqn:Hmv; [|discriminate].
        injection Hclick as <-. simpl. split.
        -- exact (reach_move _ _ _ _ Hr Hok Hmv).
        -- intros q H. discriminate.
      * destruct (ownPiece (game e) sq) eqn:Hown; injection Hclick as <-;
          simpl; (split; [exact Hr|]); intros q H; [|discriminate].
        injection H as <-. auto.
    + destruct (ownPiece (game e) sq) eqn:Hown; injection Hclick as <-.
      * simpl. split; [exact Hr|]. intros q H. injection H as <-. auto.
      * split; [exact Hr|]. rewrite Esel. intros q H. discriminate.
  - destruct IH as [Hr Hsel]. unfold handlePieceMoveSel in Hdrop.
    destruct (isValidMoveAttempt _ from to _ _ _) eqn:Hok.
    + destruct (makeMove (game e) from to) as [g'|] eqn:Hmv; [|discriminate].
      injection Hdrop as <-. simpl. split.
      * exact (reach_move _ _ _ _ Hr Hok Hmv).
      * intros q H. discriminate.
    + injection Hdrop as <-. auto.
  - split; [exact reach_init|]. intros sq H. discriminate.
Qed.

(** Whatever the user clicks, drops or resets, the game behind the
    interface is a reachable game and the selected square, when there is
    one, is a square of the board holding a piece of the side to move. *)
Theorem selection_is_own_piece (e : EngineState) :
  reachableE e ->
  reachable (game e) /\
  forall sq, selectedSquare e = Some sq ->
    inb sq /\
    exists p, at_sq (board (game e)) sq = Some p
              /\ color p = currentPlayer (game e).
Proof.
  intros He. destruct (engine_inv e He) as [Hr Hsel]. split; [exact Hr|].
  intros sq Hsq. destruct (Hsel sq Hsq) as [Hin Hown]. split; [exact Hin|].
  unfold ownPiece in Hown.
  destruct (at_sq (board (game e)) sq) as [p|]; [|discriminate].
  exists p. split; [reflexivity|now apply PieceColor_eqb_eq].
Qed.

Lemma selection_is_own_piece_witness :
  reachable (game (mkEngine initialState (Some (alg 4 2)))) /\
  forall sq, selectedSquare (mkEngine initialState (Some (alg 4 2))) = Some sq ->
    inb sq /\
    exists p, at_sq (board (game (mkEngine initialState (Some (alg 4 2))))) sq
              = Some p
              /\ color p = currentPlayer
                             (game (mkEngine initialState (Some (alg 4 2)))).
Proof.
  apply (selection_is_own_piece (mkEngine initialState (Some (alg 4 2)))).
  apply (reachE_click initialEngine (alg 4 2)).
  - exact reachE_init.
  - reflexivity.
  - vm_compute. reflexivity.
Defined.

Lemma isValidMoveAttempt_existsb b from to c ep h :
  isValidMoveAttempt b from to c ep h =
  List.existsb (fun move => (row move =? row to) && (col move =? col to))
    (getValidMoves b from c ep h).
Proof.
  unfold isValidMoveAttempt, getValidMoves.
  destruct (at_sq b from) as [p|]; [|reflexivity].
  destruct (negb (PieceColor_eqb (color p) c)); reflexivity.
Qed.

Lemma legal_move_not_origin s from :
  reachable s ->
  isValidMoveAttempt (board s) from from (currentPlayer s)
    (enPassantTarget s) (moveHistory s) = false.
Proof.
  intros Hr.
  destruct (isValidMoveAttempt _ from from _ _ _) eqn:Hok; [|reflexivity].
  exfalso. destruct (reachable_Inv s Hr) as [Hwf Hep _ _ _].
  apply isValidMoveAttempt_true in Hok.
  apply getValidMoves_inv in Hok as (p & Hp & Hc & Hps & _).
  destruct (pseudoMoves_dest _ from p _ _ from Hwf Hp
              (epOK_target _ _ _ Hep) Hps) as [_ [Hn|(t & Ht & Hcol & _)]];
    congruence.
Qed.

(** A click never fails, and it changes the game exactly when the
    clicked square is highlighted as a valid move ([getSquareColor]
    answers [valid]); the move then applied is the one from the selected
    square. *)
Theorem click_moves_iff_valid (e : EngineState) (sq : ChessSquare) :
  reachableE e -> inb sq ->
  exists e', handleSquareClick e sq = Some e' /\
    (game e' <> game e <-> getSquareColor e sq = hl_valid) /\
    (getSquareColor e sq = hl_valid ->
     exists sel, selectedSquare e = Some sel
                 /\ makeMove (game e) sel sq = Some (game e')
                 /\ selectedSquare e' = None).
Proof.
  intros He Hsq. destruct (engine_inv e He) as [Hr Hsel].
  unfold handleSquareClick, getSquareColor, validMoves.
  destruct (selectedSquare e) as [sel|] eqn:Esel.
  - rewrite <- isValidMoveAttempt_existsb.
    destruct ((row sq =? row sel) && (col sq =? col sel)) eqn:Esame.
    + apply andb_true_iff in Esame as [E1 E2]. apply Z.eqb_eq in E1, E2.
      assert (sq = sel) as -> by now apply sq_ext.
      rewrite (legal_move_not_origin (game e) sel Hr).
      destruct (ownPiece (game e) sel); eexists; (split; [reflexivity|]);
        simpl; (split; [split; [congruence|discriminate]|discriminate]).
    + destruct (isValidMoveAttempt _ sel sq _ _ _) eqn:Hok.
      * destruct (makeMove_total (game e) sel sq Hr Hok) as [g' Hg'].
        rewrite Hg'. eexists. split; [reflexivity|]. simpl. split.
        -- split; [reflexivity|]. intros _ E.
           apply makeMove_fields in Hg' as (_ & _ & _ & _ & _ & Hpl & _).
           rewrite E in Hpl. now apply (opponent_neq (currentPlayer (game e))).
        -- intros _. exists sel. auto.
      * destruct (ownPiece (game e) sq); eexists; (split; [reflexivity|]);
          simpl; (split; [split; [congruence|]|]);
          destruct (isInCheck e && _); discriminate.
  - simpl.
    destruct (ownPiece (game e) sq); eexists; (split; [reflexivity|]);
      simpl; (split; [split; [congruence|]|]);
      destruct (isInCheck e && _); discriminate.
Qed.

Lemma click_moves_iff_valid_witness :
  exists e',
    handleSquareClick (mkEngine initialState (Some (alg 4 2))) (alg 4 4)
    = Some e' /\
    (game e' <> game (mkEngine initialState (Some (alg 4 2)))
     <-> getSquareColor (mkEngine initialState (Some (alg 4 2))) (alg 4 4)
         = hl_valid) /\
    (getSquareColor (mkEngine initialState (Some (alg 4 2))) (alg 4 4)
     = hl_valid ->
     exists sel,
       selectedSquare (mkEngine initialState (Some (alg 4 2))) = Some sel
       /\ makeMove (game (mkEngine initialState (Some (alg 4 2)))) sel (alg 4 4)
          = Some (game e')
       /\ selectedSquare e' = None).
Proof.
  apply (click_moves_iff_valid (mkEngine initialState (Some (alg 4 2)))
           (alg 4 4)).
  - apply (reachE_click initialEngine (alg 4 2)).
    + exact reachE_init.
    + reflexivity.
    + vm_compute. reflexivity.
  - reflexivity.
Defined.

(** Every reachable game can be brought about through the interface,
    by drops alone. *)
Lemma reachable_reachableE g : reachable g -> reachableE (mkEngine g None).
Proof.
  induction 1 as [|s from to s' Hs IH Hok Hmv]; [exact reachE_init|].
  destruct (reachable_Inv s Hs) as [Hwf _ _ _ _].
  pose proof (isValidMoveAttempt_true _ _ _ _ _ _ Hok) as Hin.
  destruct (legal_destination_inv s from to Hs Hin) as (Hto & _ & _).
  apply getValidMoves_inv in Hin as (p & Hp & _).
  assert (Hfrom : inb from).
  { apply inb_iff. apply (cell_Some_inb _ _ _ p Hwf Hp). }
  apply (reachE_drop (mkEngine s None) from to (mkEngine s' None) IH Hfrom Hto).
  unfold handlePieceMoveSel. cbn [game]. rewrite Hok, Hmv. reflexivity.
Qed.

(** A square is highlighted as [check] exactly when the side to move is
    in check, the square holds that side's king and it is not the
    selected square: no legal destination of the selected piece hides
    the mark. *)
Theorem check_highlight (e : EngineState) (sq : ChessSquare) :
  reachableE e -> inb sq ->
  (getSquareColor e sq = hl_check <->
   isInCheck e = true
   /\ isKingOf (currentPlayer (game e)) (at_sq (board (game e)) sq) = true
   /\ selectedSquare e <> Some sq).
Proof.
  intros He Hsq. destruct (engine_inv e He) as [Hr Hsel].
  assert (Hlast :
    (if isInCheck e
        && isKingOf (currentPlayer (game e)) (at_sq (board (game e)) sq)
     then hl_check else hl_normal) = hl_check <->
    isInCheck e = true
    /\ isKingOf (currentPlayer (game e)) (at_sq (board (game e)) sq) = true).
  { destruct (isInCheck e); destruct (isKingOf _ _); cbn [andb];
      (split; [intros H|intros [H1 H2]]);
      first [discriminate | split; reflexivity | reflexivity]. }
  unfold getSquareColor, validMoves.
  destruct (selectedSquare e) as [sel|] eqn:Esel.
  - rewrite <- isValidMoveAttempt_existsb.
    destruct ((row sq =? row sel) && (col sq =? col sel)) eqn:Esame.
    + apply andb_true_iff in Esame as [E1 E2]. apply Z.eqb_eq in E1, E2.
      split; [discriminate|]. intros (_ & _ & Hne). exfalso. apply Hne.
      f_equal. apply sq_ext; congruence.
    + destruct (isValidMoveAttempt _ sel sq _ _ _) eqn:Hok.
      * split; [discriminate|]. intros (_ & Hking & _). exfalso.
        apply isValidMoveAttempt_true in Hok.
        destruct (legal_destination_inv (game e) sel sq Hr Hok)
          as (_ & _ & [Hn|(t & Ht & Hc & Hty)]).
        -- rewrite Hn in Hking. discriminate.
        -- rewrite Ht in Hking. unfold isKingOf in Hking.
           apply andb_true_iff in Hking as [Hk1 Hk2].
           apply PieceType_eqb_eq in Hk1. contradiction.
      * split.
        -- intros H. apply (proj1 Hlast) in H as [H1 H2].
           split; [exact H1|]. split; [exact H2|].
           intros Heq. injection Heq as ->.
           rewrite !Z.eqb_refl in Esame. discriminate.
        -- intros (H1 & H2 & _). apply (proj2 Hlast). split; assumption.
  - cbn [List.existsb]. split.
    + intros H. apply (proj1 Hlast) in H as [H1 H2].
      split; [exact H1|]. split; [exact H2|]. discriminate.
    + intros (H1 & H2 & _). apply (proj2 Hlast). split; assumption.
Qed.

Lemma check_highlight_witness :
  getSquareColor (mkEngine (stateAfter gameFoolsMate) None) (alg 4 1)
  = hl_check <->
  isInCheck (mkEngine (stateAfter gameFoolsMate) None) = true
  /\ isKingOf (currentPlayer (game (mkEngine (stateAfter gameFoolsMate) None)))
       (at_sq (board (game (mkEngine (stateAfter gameFoolsMate) None)))
          (alg 4 1)) = true
  /\ selectedSquare (mkEngine (stateAfter gameFoolsMate) None)
     <> Some (alg 4 1).
Proof.
  apply (check_highlight (mkEngine (stateAfter gameFoolsMate) None) (alg 4 1)).
  - apply (reachable_reachableE (stateAfter gameFoolsMate)).
    apply stateAfter_reachable. vm_compute. discriminate.
  - reflexivity.
Defined.

(** ** The rows of the move list *)

Lemma movePairsLoop_lookup f : forall (moves : list ChessMove) (i k : nat),
  (length moves <= i + 2 * f)%nat ->
  movePairsLoop f moves i !! k =
  if (i + 2 * k <? length moves)%nat then
    Some (mkPair (moves !! (i + 2 * k)%nat) (moves !! (i + 2 * k + 1)%nat)
            (Z.of_nat (i + 2 * k) / 2 + 1))
  else None.
Proof.
  induction f as [|f IH]; intros moves i k Hlen; cbn [movePairsLoop].
  - replace (i + 2 * k <? length moves)%nat with false; [reflexivity|].
    symmetry. apply Nat.ltb_ge. lia.
  - destruct (i <? length moves)%nat eqn:Ei.
    + destruct k as [|k].
      * replace (i + 2 * 0)%nat with i by lia. rewrite Ei. reflexivity.
      * change ((?x :: ?l) !! S k) with (l !! k).
        rewrite IH by lia.
        replace (i + 2 + 2 * k)%nat with (i + 2 * S k)%nat by lia.
        reflexivity.
    + apply Nat.ltb_ge in Ei.
      replace (i + 2 * k <? length moves)%nat with false; [reflexivity|].
      symmetry. apply Nat.ltb_ge. lia.
Qed.

(** More iterations than [length moves] change nothing. *)
Lemma movePairsLoop_fuel f (moves : list ChessMove) :
  (length moves <= f)%nat ->
  movePairsLoop f moves 0 = movePairs moves.
Proof.
  intros H. unfold movePairs. apply list_eq. intros k.
  rewrite !movePairsLoop_lookup by lia. reflexivity.
Qed.

Lemma movePairs_lookup (moves : list ChessMove) (k : nat) :
  movePairs moves !! k =
  if (2 * k <? length moves)%nat then
    Some (mkPair (moves !! (2 * k)%nat) (moves !! (2 * k + 1)%nat)
            (Z.of_nat k + 1))
  else None.
Proof.
  unfold movePairs. rewrite movePairsLoop_lookup by lia.
  replace (0 + 2 * k)%nat with (2 * k)%nat by lia.
  destruct (2 * k <? length moves)%nat; [|reflexivity].
  do 2 f_equal. rewrite Nat2Z.inj_mul, Z.mul_comm. simpl Z.of_nat.
  now rewrite Z.div_mul by lia.
Qed.

Lemma movePairsLoop_flatten f : forall (moves : list ChessMove) (i : nat),
  (length moves <= i + 2 * f)%nat ->
  List.flat_map pairMoves (movePairsLoop f moves i) = drop i moves.
Proof.
  induction f as [|f IH]; intros moves i Hlen; cbn [movePairsLoop].
  - symmetry. apply drop_ge. lia.
  - destruct (i <? length moves)%nat eqn:Ei.
    + apply Nat.ltb_lt in Ei. simpl. rewrite IH by lia.
      destruct (lookup_lt_is_Some_2 moves i Ei) as [m Hm].
      unfold pairMoves. simpl. rewrite Hm.
      rewrite (drop_S moves m i Hm). simpl. f_equal.
      destruct (moves !! (i + 1)%nat) as [m'|] eqn:Hm'.
      * replace (i + 1)%nat with (S i) in Hm' by lia.
        rewrite (drop_S moves m' (S i) Hm'). simpl.
        now replace (i + 2)%nat with (S (S i)) by lia.
      * apply lookup_ge_None in Hm'. simpl.
        rewrite !drop_ge by lia. reflexivity.
    + apply Nat.ltb_ge in Ei. symmetry. apply drop_ge. lia.
Qed.

(** Reading the rows of the move list in order, white entry then black
    entry, gives back the history: no move is dropped or repeated. *)
Theorem movePairs_flatten (moves : list ChessMove) :
  List.flat_map pairMoves (movePairs moves) = moves.
Proof.
  unfold movePairs. rewrite movePairsLoop_flatten by lia. apply drop_0.
Qed.

(** Row [k] of the move list exists exactly when the history has a move
    of index [2k]; it is numbered [k + 1], its white entry is move [2k]
    and its black entry is move [2k + 1], absent when the history ends
    on white's move. *)
Theorem movePairs_rows (moves : list ChessMove) (k : nat) :
  movePairs moves !! k =
  if (2 * k <? length moves)%nat then
    Some (mkPair (moves !! (2 * k)%nat) (moves !! (2 * k + 1)%nat)
            (Z.of_nat k + 1))
  else None.
Proof. exact (movePairs_lookup moves k). Qed.

(** In the move list of a reachable game every row has a white entry,
    which is a move of a white piece, and its black entry, when there is
    one, is a move of a black piece. *)
Theorem move_list_columns (s : GameState) (k : nat) (pr : MovePair) :
  reachable s ->
  movePairs (moveHistory s) !! k = Some pr ->
  (exists m, pairWhite pr = Some m /\ color (piece m) = white)
  /\ (forall m, pairBlack pr = Some m -> color (piece m) = black).
Proof.
  intros Hr Hk. destruct (turn_parity_inv s Hr) as [_ Hcol].
  rewrite movePairs_lookup in Hk.
  destruct (2 * k <? length (moveHistory s))%nat eqn:E; [|discriminate].
  apply Nat.ltb_lt in E. injection Hk as <-.
  assert (E0 : Nat.even (2 * k) = true)
    by (rewrite Nat.even_mul; reflexivity).
  assert (E1 : Nat.even (2 * k + 1) = false)
    by (rewrite Nat.add_1_r, Nat.even_succ, <- Nat.negb_even, E0;
        reflexivity).
  cbn [pairWhite pairBlack]. split.
  - destruct (lookup_lt_is_Some_2 (moveHistory s) (2 * k) E) as [m Hm].
    exists m. split; [exact Hm|].
    rewrite (Hcol _ _ Hm), E0. reflexivity.
  - intros m Hm. rewrite (Hcol (2 * k + 1)%nat m Hm), E1. reflexivity.
Qed.

Lemma move_list_columns_witness :
  exists pr,
    movePairs (moveHistory (stateAfter gameFoolsMate)) !! 1%nat = Some pr
    /\ (exists m, pairWhite pr = Some m /\ color (piece m) = white)
    /\ (forall m, pairBlack pr = Some m -> color (piece m) = black).
Proof.
  eexists. split; [vm_compute; reflexivity|].
  apply (move_list_columns (stateAfter gameFoolsMate) 1).
  - apply stateAfter_reachable. vm_compute. discriminate.
  - vm_compute. reflexivity.
Defined.

(** ** The loops end on the board *)

Lemma slide_enough_fuel_witness :
  slide 20 createInitialBoard (mkPiece rook white false)
    (row (alg 0 1) + -1) (col (alg 0 1) + 0) (-1) 0
  = slide 8 createInitialBoard (mkPiece rook white false)
      (row (alg 0 1) + -1) (col (alg 0 1) + 0) (-1) 0.
Proof.
  apply (slide_enough_fuel 20 createInitialBoard (mkPiece rook white false)
           (alg 0 1) (-1) 0).
  - reflexivity.
  - lia.
  - lia.
  - lia.
  - left. lia.
Defined.

Lemma isPathClear_returns_witness :
  let a := alg 0 1 in
  let k := alg 0 8 in
  let dr := if row k =? row a then 0
            else (row k - row a) / Z.abs (row k - row a) in
  let dc := if col k =? col a then 0
            else (col k - col a) / Z.abs (col k - col a) in
  exists r, pathLoop 8 createInitialBoard (row a + dr) (col a + dc)
              (row k) (col k) dr dc = Some r.
Proof.
  apply (isPathClear_returns createInitialBoard (alg 0 1) (alg 0 8)).
  - reflexivity.
  - reflexivity.
  - right. left. reflexivity.
Defined.

(** ** The move generators and the attack test agree *)

Lemma freeOrEnemy_intro b p to :
  (at_sq b to = None \/ exists t, at_sq b to = Some t /\ color t <> color p) ->
  freeOrEnemy b p to = true.
Proof.
  unfold freeOrEnemy. intros [->|(t & -> & Hc)]; [reflexivity|].
  apply negb_true_iff. apply PieceColor_eqb_neq. exact Hc.
Qed.

Lemma freeOrEnemy_not_self b p from :
  at_sq b from = Some p -> freeOrEnemy b p from = false.
Proof.
  intros Hp. unfold freeOrEnemy. rewrite Hp. apply negb_false_iff.
  apply PieceColor_eqb_eq. reflexivity.
Qed.

Lemma freeOrEnemy_moves b p from to :
  at_sq b from = Some p -> freeOrEnemy b p to = true ->
  row to - row from <> 0 \/ col to - col from <> 0.
Proof.
  intros Hp Hfe.
  destruct (Z.eq_dec (row to) (row from)) as [Er|Er]; [|left; lia].
  destruct (Z.eq_dec (col to) (col from)) as [Ec|Ec]; [|right; lia].
  exfalso. rewrite (sq_ext to from Er Ec) in Hfe.
  rewrite (freeOrEnemy_not_self b p from Hp) in Hfe. discriminate.
Qed.

Lemma rook_line_aligned d n from to :
  In d rookDirections ->
  row to = row from + n * fst d -> col to = col from + n * snd d ->
  (row from =? row to) || (col from =? col to) = true.
Proof.
  intros Hd Hr Hc. apply orb_true_iff. rewrite !Z.eqb_eq.
  unfold rookDirections in Hd. simpl in Hd.
  destruct Hd as [<-|[<-|[<-|[<-|[]]]]]; simpl in *; lia.
Qed.

Lemma bishop_line_aligned d n from to :
  In d bishopDirections ->
  row to = row from + n * fst d -> col to = col from + n * snd d ->
  (Z.abs (row from - row to) =? Z.abs (col from - col to)) = true.
Proof.
  intros Hd Hr Hc. rewrite Z.eqb_eq.
  unfold bishopDirections in Hd. simpl in Hd.
  destruct Hd as [<-|[<-|[<-|[<-|[]]]]]; simpl in *; lia.
Qed.

Lemma sign_rook_direction x y :
  x = 0 \/ y = 0 -> x <> 0 \/ y <> 0 ->
  In (Z.sgn x, Z.sgn y) rookDirections.
Proof.
  intros Hal Hnz. unfold rookDirections.
  destruct (sgn_cases x) as [[? ->]|[[? ->]|[? ->]]];
    destruct (sgn_cases y) as [[? ->]|[[? ->]|[? ->]]];
    first [lia | simpl; repeat (first [left; reflexivity | right])].
Qed.

Lemma sign_bishop_direction x y :
  Z.abs x = Z.abs y -> x <> 0 \/ y <> 0 ->
  In (Z.sgn x, Z.sgn y) bishopDirections.
Proof.
  intros Hal Hnz. unfold bishopDirections.
  destruct (sgn_cases x) as [[? ->]|[[? ->]|[? ->]]];
    destruct (sgn_cases y) as [[? ->]|[[? ->]|[? ->]]];
    first [lia | simpl; repeat (first [left; reflexivity | right])].
Qed.

(** The sliding loop reaches every square that lies behind empty squares
    of the board. *)
Lemma slide_complete (n : nat) : forall f b p cr cc dr dc,
  (n < f)%nat ->
  (forall i : nat, (i < n)%nat ->
     isInBounds (mkSq (cr + Z.of_nat i * dr) (cc + Z.of_nat i * dc)) = true /\
     cell b (cr + Z.of_nat i * dr) (cc + Z.of_nat i * dc) = None) ->
  isInBounds (mkSq (cr + Z.of_nat n * dr) (cc + Z.of_nat n * dc)) = true ->
  freeOrEnemy b p (mkSq (cr + Z.of_nat n * dr) (cc + Z.of_nat n * dc)) = true ->
  In (mkSq (cr + Z.of_nat n * dr) (cc + Z.of_nat n * dc))
     (slide f b p cr cc dr dc).
Proof.
  induction n as [|n IH]; intros f b p cr cc dr dc Hf Hall Hin Hfe;
    (destruct f as [|f]; [lia|]).
  - replace (cr + Z.of_nat 0 * dr) with cr in * by lia.
    replace (cc + Z.of_nat 0 * dc) with cc in * by lia.
    cbn [slide]. rewrite Hin. unfold freeOrEnemy, at_sq in Hfe.
    cbn [row col] in Hfe.
    destruct (cell b cr cc) as [t|]; [rewrite Hfe|]; left; reflexivity.
  - destruct (Hall 0%nat ltac:(lia)) as [H0 H0'].
    replace (cr + Z.of_nat 0 * dr) with cr in H0, H0' by lia.
    replace (cc + Z.of_nat 0 * dc) with cc in H0, H0' by lia.
    cbn [slide]. rewrite H0, H0'. right.
    replace (cr + Z.of_nat (S n) * dr) with (cr + dr + Z.of_nat n * dr)
      in * by lia.
    replace (cc + Z.of_nat (S n) * dc) with (cc + dc + Z.of_nat n * dc)
      in * by lia.
    apply IH; [lia| |exact Hin|exact Hfe].
    intros i Hi. specialize (Hall (S i) ltac:(lia)).
    replace (cr + Z.of_nat (S i) * dr) with (cr + dr + Z.of_nat i * dr)
      in Hall by lia.
    replace (cc + Z.of_nat (S i) * dc) with (cc + dc + Z.of_nat i * dc)
      in Hall by lia.
    exact Hall.
Qed.

Lemma slideAll_complete b from to p dirs d n :
  at_sq b from = Some p -> inb from -> inb to ->
  In d dirs -> -1 <= fst d <= 1 -> -1 <= snd d <= 1 ->
  fst d <> 0 \/ snd d <> 0 ->
  1 <= n ->
  row to = row from + n * fst d -> col to = col from + n * snd d ->
  (forall i, 1 <= i < n ->
     cell b (row from + i * fst d) (col from + i * snd d) = None) ->
  freeOrEnemy b p to = true ->
  In to (slideAll b from dirs).
Proof.
  intros Hp Hf Ht Hd Hdr Hdc Hnz Hn Hr Hc Hall Hfe.
  unfold slideAll. rewrite Hp. apply in_flat_map. exists d.
  split; [exact Hd|].
  pose proof (proj1 (inb_iff from) Hf) as Bf.
  pose proof (proj1 (inb_iff to) Ht) as Bt.
  destruct d as [dr dc]. cbn [fst snd] in *.
  assert (Eto : to = mkSq (row from + dr + Z.of_nat (Z.to_nat (n - 1)) * dr)
                          (col from + dc + Z.of_nat (Z.to_nat (n - 1)) * dc)).
  { apply sq_ext; cbn [row col]; rewrite Z2Nat.id by lia; lia. }
  assert (Hn7 : n <= 7).
  { assert (dr = -1 \/ dr = 0 \/ dr = 1) as [-> | [-> | ->]] by lia;
      assert (dc = -1 \/ dc = 0 \/ dc = 1) as [-> | [-> | ->]] by lia; lia. }
  rewrite Eto at 1.
  apply slide_complete.
  - lia.
  - intros i Hi. split.
    + apply inb_iff. cbn [row col].
      assert (dr = -1 \/ dr = 0 \/ dr = 1) as [-> | [-> | ->]] by lia;
        assert (dc = -1 \/ dc = 0 \/ dc = 1) as [-> | [-> | ->]] by lia; lia.
    + specialize (Hall (Z.of_nat i + 1) ltac:(lia)).
      replace (row from + (Z.of_nat i + 1) * dr)
        with (row from + dr + Z.of_nat i * dr) in Hall by lia.
      replace (col from + (Z.of_nat i + 1) * dc)
        with (col from + dc + Z.of_nat i * dc) in Hall by lia.
      exact Hall.
  - rewrite <- Eto. exact Ht.
  - rewrite <- Eto. exact Hfe.
Qed.

Lemma slider_attacked_generated b from to p dirs :
  at_sq b from = Some p -> inb from -> inb to ->
  In (Z.sgn (row to - row from), Z.sgn (col to - col from)) dirs ->
  isPathClear b from to = true -> freeOrEnemy b p to = true ->
  In to (slideAll b from dirs).
Proof.
  intros Hp Hf Ht Hd Hclear Hfe.
  apply isPathClear_spec in Hclear as (n & Hn & Hr & Hc & Hall).
  pose proof (freeOrEnemy_moves b p from to Hp Hfe) as Hnz.
  apply (slideAll_complete b from to p dirs
           (Z.sgn (row to - row from), Z.sgn (col to - col from)) n);
    cbn [fst snd]; try assumption.
  - pose proof (sgn_cases (row to - row from)). lia.
  - pose proof (sgn_cases (col to - col from)). lia.
  - pose proof (sgn_cases (row to - row from)).
    pose proof (sgn_cases (col to - col from)). lia.
  - lia.
Qed.

Lemma offsetMoves_intro b from to p offs :
  at_sq b from = Some p -> inb to -> freeOrEnemy b p to = true ->
  In (row to - row from, col to - col from) offs ->
  In to (offsetMoves b from offs).
Proof.
  intros Hp Ht Hfe Hd. unfold offsetMoves. rewrite Hp.
  apply in_flat_map. exists (row to - row from, col to - col from).
  split; [exact Hd|]. cbv beta zeta. cbn [fst snd].
  replace (mkSq (row from + (row to - row from))
                (col from + (col to - col from))) with to
    by (apply sq_ext; cbn [row col]; lia).
  unfold inb in Ht. rewrite Ht, Hfe. left. reflexivity.
Qed.

Lemma knight_offset from to :
  ((Z.abs (row from - row to) =? 2) && (Z.abs (col from - col to) =? 1))
  || ((Z.abs (row from - row to) =? 1) && (Z.abs (col from - col to) =? 2))
  = true ->
  In (row to - row from, col to - col from) knightOffsets.
Proof.
  intros H. apply orb_true_iff in H.
  rewrite !andb_true_iff, !Z.eqb_eq in H. unfold knightOffsets.
  destruct H as [[H1 H2]|[H1 H2]].
  - assert (row to - row from = -2 \/ row to - row from = 2)
      as [->| ->] by lia;
      assert (col to - col from = -1 \/ col to - col from = 1)
        as [->| ->] by lia;
      simpl; repeat (first [left; reflexivity | right]).
  - assert (row to - row from = -1 \/ row to - row from = 1)
      as [->| ->] by lia;
      assert (col to - col from = -2 \/ col to - col from = 2)
        as [->| ->] by lia;
      simpl; repeat (first [left; reflexivity | right]).
Qed.

Lemma king_offset from to :
  (Z.abs (row from - row to) <=? 1) && (Z.abs (col from - col to) <=? 1)
  = true ->
  row to - row from <> 0 \/ col to - col from <> 0 ->
  In (row to - row from, col to - col from) kingOffsets.
Proof.
  intros H Hnz. apply andb_true_iff in H as [H1 H2].
  apply Z.leb_le in H1, H2. unfold kingOffsets.
  assert (row to - row from = -1 \/ row to - row from = 0
          \/ row to - row from = 1) as [E1|[E1|E1]] by lia;
    assert (col to - col from = -1 \/ col to - col from = 0
            \/ col to - col from = 1) as [E2|[E2|E2]] by lia;
    rewrite E1, E2 in *;
    first [lia | simpl; repeat (first [left; reflexivity | right])].
Qed.

(** A piece other than a pawn, and a king only once it has moved, can go
    to a square of the board exactly when [canPieceAttackSquare] says
    that it attacks the square and the square is empty or holds a piece
    of the other colour: the generators of [getValidMoves] and the
    attack test of [isKingInCheck] describe the same movement. *)
Theorem generated_iff_attacked b from to p ep h :
  wfBoard b -> at_sq b from = Some p -> inb to ->
  type p <> pawn ->
  (type p = king -> hasMoved p = true) ->
  (In to (pseudoMoves b from p ep h) <->
   canPieceAttackSquare b from to = true /\ freeOrEnemy b p to = true).
Proof.
  intros Hwf Hp Ht Hnp Hk.
  assert (Hfrom : inb from).
  { apply inb_iff. apply (cell_Some_inb b _ _ p Hwf Hp). }
  rewrite (canPieceAttackSquare_eq b from to p Hp).
  unfold pseudoMoves. destruct (type p) eqn:Ety.
  - (* king *)
    specialize (Hk eq_refl). split.
    + intros H. apply getKingMoves_inv with (p := p) in H; [|exact Hp].
      destruct H as [H|Hm _ _ _ _ _ _ _|Hm _ _ _ _ _ _ _ _];
        [|congruence|congruence].
      apply offsetMoves_inv with (p := p) in H as (d & Hd & -> & Hin & Hfe);
        [|exact Hp].
      split; [|exact Hfe]. apply (offsets_attack_king d from Hd).
    + intros [Hat Hfe]. unfold getKingMoves. rewrite Hp.
      apply in_or_app. left.
      apply (offsetMoves_intro b from to p kingOffsets Hp Ht Hfe).
      apply king_offset; [exact Hat|].
      apply (freeOrEnemy_moves b p from to Hp Hfe).
  - (* queen *)
    unfold getQueenMoves, getRookMoves, getBishopMoves. split.
    + intros H. apply in_app_or in H as [H|H].
      * apply slideAll_line with (p := p) in H
          as (Hin & Hclear & Hocc & d & n & Hd & Hn & Hr & Hc);
          [|exact Hp|intros d Hd; apply in_or_app; now left].
        split; [|apply freeOrEnemy_intro; exact Hocc].
        rewrite Hclear, (rook_line_aligned d n from to Hd Hr Hc).
        reflexivity.
      * apply slideAll_line with (p := p) in H
          as (Hin & Hclear & Hocc & d & n & Hd & Hn & Hr & Hc);
          [|exact Hp|intros d Hd; apply in_or_app; now right].
        split; [|apply freeOrEnemy_intro; exact Hocc].
        rewrite Hclear, (bishop_line_aligned d n from to Hd Hr Hc).
        rewrite orb_true_r. reflexivity.
    + intros [Hat Hfe]. apply andb_true_iff in Hat as [Hal Hclear].
      pose proof (freeOrEnemy_moves b p from to Hp Hfe) as Hnz.
      apply in_or_app. apply orb_true_iff in Hal as [Hal|Hal].
      * left. apply (slider_attacked_generated b from to p _ Hp Hfrom Ht);
          [|exact Hclear|exact Hfe].
        apply sign_rook_direction; [|exact Hnz].
        apply orb_true_iff in Hal. rewrite !Z.eqb_eq in Hal. lia.
      * right. apply (slider_attacked_generated b from to p _ Hp Hfrom Ht);
          [|exact Hclear|exact Hfe].
        apply sign_bishop_direction; [|exact Hnz].
        apply Z.eqb_eq in Hal. lia.
  - (* rook *)
    unfold getRookMoves. split.
    + intros H. apply slideAll_line with (p := p) in H
        as (Hin & Hclear & Hocc & d & n & Hd & Hn & Hr & Hc);
        [|exact Hp|intros d Hd; apply in_or_app; now left].
      split; [|apply freeOrEnemy_intro; exact Hocc].
      rewrite Hclear, (rook_line_aligned d n from to Hd Hr Hc).
      reflexivity.
    + intros [Hat Hfe]. apply andb_true_iff in Hat as [Hal Hclear].
      pose proof (freeOrEnemy_moves b p from to Hp Hfe) as Hnz.
      apply (slider_attacked_generated b from to p _ Hp Hfrom Ht);
        [|exact Hclear|exact Hfe].
      apply sign_rook_direction; [|exact Hnz].
      apply orb_true_iff in Hal. rewrite !Z.eqb_eq in Hal. lia.
  - (* bishop *)
    unfold getBishopMoves. split.
    + intros H. apply slideAll_line with (p := p) in H
        as (Hin & Hclear & Hocc & d & n & Hd & Hn & Hr & Hc);
        [|exact Hp|intros d Hd; apply in_or_app; now right].
      split; [|apply freeOrEnemy_intro; exact Hocc].
      rewrite Hclear, (bishop_line_aligned d n from to Hd Hr Hc).
      reflexivity.
    + intros [Hat Hfe]. apply andb_true_iff in Hat as [Hal Hclear].
      pose proof (freeOrEnemy_moves b p from to Hp Hfe) as Hnz.
      apply (slider_attacked_generated b from to p _ Hp Hfrom Ht);
        [|exact Hclear|exact Hfe].
      apply sign_bishop_direction; [|exact Hnz].
      apply Z.eqb_eq in Hal. lia.
  - (* knight *)
    unfold getKnightMoves. split.
    + intros H.
      apply offsetMoves_inv with (p := p) in H as (d & Hd & -> & Hin & Hfe);
        [|exact Hp].
      split; [|exact Hfe]. apply (offsets_attack_knight d from Hd).
    + intros [Hat Hfe].
      apply (offsetMoves_intro b from to p knightOffsets Hp Ht Hfe).
      apply knight_offset. exact Hat.
  - (* pawn *)
    contradiction.
Qed.

Lemma generated_iff_attacked_witness :
  In (alg 2 3)
     (pseudoMoves createInitialBoard (alg 1 1) (mkPiece knight white false)
        None [])
  <-> canPieceAttackSquare createInitialBoard (alg 1 1) (alg 2 3) = true
      /\ freeOrEnemy createInitialBoard (mkPiece knight white false)
           (alg 2 3) = true.
Proof.
  apply (generated_iff_attacked createInitialBoard (alg 1 1) (alg 2 3)
           (mkPiece knight white false) None []).
  - apply (inv_wf initialState). apply reachable_Inv. apply reach_init.
  - vm_compute. reflexivity.
  - vm_compute. reflexivity.
  - discriminate.
  - discriminate.
Defined.

(** ** Square colours *)





